(** * Sequence-synchronised frame protocol: a shallow embedding

    The development follows the TypeScript sources of the repository:

    - [src/types.ts]              the [Frame] interface;
    - [src/compiler/types.ts]     the [ToolDefinition] interface;
    - [src/compiler/parallel.ts]  [parallel];
    - [src/tools/int-stream.ts]   [getCurrentValue] and [incrementValue];
    - [src/tools/web.ts], [src/tools/mock-dom.ts]  the example web tools;
    - [docs/STREAMING.md]         [StreamController.isValidTransition];
    - the Frame Protocol document (frame shape, base-frame rule and the
      worked example) and [docs/SYNC.md].

    Modelling conventions.

    - A JavaScript [number] is an IEEE 754 double, kept by its exact
      value: an integer, an odd numerator over a power of two, an infinity
      or [NaN].  Addition is the exact sum rounded to the nearest double,
      ties to even; it is exact on integers as long as the sum stays below
      [2^53] in absolute value.  A variable that starts at an integer and
      only ever has 1 added to it, such as a sequence counter, is a [Z],
      and adding 1 to it is number addition.
    - A value of type [any] is a [Value]: [undefined], a number, a string
      or a boolean.  Objects passed as tool inputs are finite maps from
      property names to values; reading an absent property gives
      [undefined].
    - An [async] function that does not await is a function from the
      module state to a settled promise and a new state: its body runs to
      completion when it is called, and a [throw] inside it is a rejected
      promise.  The tools of the repository are of this kind.  For
      functions of any kind (awaiting, or throwing when called), [parallel]
      is described by what each call does: see [Fate], [Call] and
      [parallel_of]. *)

From Stdlib Require Import ZArith Lia.
From stdpp Require Import base decidable option list strings pretty gmap sorting.

Local Open Scope Z_scope.

(** ** JavaScript values *)

Module Js.

(** *** Numbers

    A number is an IEEE 754 double.  It is kept by its exact value: an
    integer [n], or the odd numerator [2 * k + 1] over the power of two
    [2^e], so that a value has one representation only.  The two zeros,
    which [===], [+], the comparisons and [ToString] do not tell apart, are
    the one value [Int 0]. *)
Inductive number :=
  | Int (n : Z)
  | Fraction (k : Z) (e : positive)
  | Infinity (negative : bool)
  | NaN.

#[global] Instance number_eq_dec : EqDecision number.
Proof. solve_decision. Defined.

#[global] Coercion Int : Z >-> number.

(** [m / 2^e] with the common factors of two removed. *)
Definition dyadic (m e : Z) : number :=
  let g := Z.gcd m (2 ^ e) in
  let e' := e - Z.log2 g in
  if e' <=? 0 then Int (m / g) else Fraction (m / g / 2) (Z.to_pos e').

(** [m / 2^shift] rounded to the nearest integer, ties to the even one. *)
Definition nearest_even (m shift : Z) : Z :=
  let d := 2 ^ shift in
  let q := m / d in
  let r := m mod d in
  match 2 * r ?= d with
  | Lt => q
  | Gt => q + 1
  | Eq => if Z.even q then q else q + 1
  end.

(** The double nearest to [m / 2^e] (for [0 <= e]): 53 significant bits, no
    bit below [2^-1074], ties to even, an infinity from [2^1024] on. *)
Definition round (m e : Z) : number :=
  if m =? 0 then Int 0 else
  let q := Z.max (Z.log2 (Z.abs m) + 1 - 53 - e) (-1074) in
  if q + e <=? 0 then dyadic m e else
  let m' := nearest_even m (q + e) in
  if 2 ^ 1024 <=? Z.abs m' * 2 ^ q then Infinity (m <? 0)
  else if 0 <=? q then Int (m' * 2 ^ q) else dyadic m' (- q).

(** The numbers that are doubles: rounding leaves them as they are. *)
Definition is_double (x : number) : bool :=
  match x with
  | Int n => bool_decide (round n 0 = Int n)
  | Fraction k e => bool_decide (round (2 * k + 1) (Z.pos e) = Fraction k e)
  | Infinity _ | NaN => true
  end.

(** The exact value [m / 2^e] of a finite number, as [(m, e)]. *)
Definition exact (x : number) : Z * Z :=
  match x with
  | Int n => (n, 0)
  | Fraction k e => (2 * k + 1, Z.pos e)
  | Infinity _ | NaN => (0, 0)
  end.

(** Number addition: the exact sum, rounded. *)
Definition add_number (x y : number) : number :=
  match x, y with
  | NaN, _ | _, NaN => NaN
  | Infinity s1, Infinity s2 => if bool_decide (s1 = s2) then Infinity s1 else NaN
  | Infinity s, _ | _, Infinity s => Infinity s
  | _, _ =>
      let '(m1, e1) := exact x in
      let '(m2, e2) := exact y in
      let e := Z.max e1 e2 in
      round (m1 * 2 ^ (e - e1) + m2 * 2 ^ (e - e2)) e
  end.

(** The order of two numbers; none as soon as one of them is [NaN]. *)
Definition compare_number (x y : number) : option comparison :=
  match x, y with
  | NaN, _ | _, NaN => None
  | Infinity s1, Infinity s2 =>
      Some (if s1 then if s2 then Eq else Lt else if s2 then Gt else Eq)
  | Infinity s, _ => Some (if s then Lt else Gt)
  | _, Infinity s => Some (if s then Gt else Lt)
  | _, _ =>
      let '(m1, e1) := exact x in
      let '(m2, e2) := exact y in
      Some (m1 * 2 ^ e2 ?= m2 * 2 ^ e1)
  end.

(** [x < y], [x <= y] and [x >= y] on numbers. *)
Definition lt_number (x y : number) : bool :=
  match compare_number x y with Some Lt => true | _ => false end.

Definition le_number (x y : number) : bool :=
  match compare_number x y with Some Lt | Some Eq => true | _ => false end.

Definition ge_number (x y : number) : bool :=
  match compare_number x y with Some Gt | Some Eq => true | _ => false end.

(** *** Number::toString

    The digits are the shortest decimal [s * 10^(n-k)], [s] of [k] digits,
    that reads back as the number; they are laid out plainly for
    [-6 < n <= 21] and with an exponent otherwise. *)

Definition zeros (n : Z) : string :=
  String.concat EmptyString (replicate (Z.to_nat n) "0").

Fixpoint below_one (fuel : nat) (N E : Z) (j : Z) : Z :=
  match fuel with
  | O => j
  | S fuel => if 2 ^ E <=? N * 10 ^ j then j else below_one fuel N E (j + 1)
  end.

(** The [n] with [10^(n-1) <= N / 2^E < 10^n]. *)
Definition magnitude (N E : Z) : Z :=
  if 2 ^ E <=? N then Z.of_nat (String.length (pretty (N / 2 ^ E)))
  else 1 - below_one 400 N E 1.

Section Digits.
(** The positive double [N / 2^E]. *)
Variables (N E : Z).

(** Its last bit is [2^q] and its significand [M]; the decimals that read
    back as it lie between [lower] and [upper], bounds included when [M]
    is even.  All three are taken on the scale [2^sc]. *)
Let q := Z.max (Z.log2 N + 1 - 53 - E) (-1074).
Let M := if 0 <=? q + E then N / 2 ^ (q + E) else N * 2 ^ (- (q + E)).
Let sc := Z.max E (2 - q).
Let V := N * 2 ^ (sc - E).
Let upper := V + 2 ^ (q - 1 + sc).
Let lower :=
  V - (if (M =? 2 ^ 52) && (-1074 <? q) then 2 ^ (q - 2 + sc)
       else 2 ^ (q - 1 + sc)).

(** [s * 10^p] reads back as the number. *)
Definition reads_back (s p : Z) : bool :=
  let '(c, l, u) :=
    if 0 <=? p then (s * 10 ^ p * 2 ^ sc, lower, upper)
    else (s * 2 ^ sc, lower * 10 ^ (- p), upper * 10 ^ (- p)) in
  if Z.even M then (l <=? c) && (c <=? u) else (l <? c) && (c <? u).

(** The distance of [s * 10^p] to the number, on the scale of
    [reads_back]. *)
Definition distance (s p : Z) : Z :=
  if 0 <=? p then Z.abs (s * 10 ^ p * 2 ^ sc - V)
  else Z.abs (s * 2 ^ sc - V * 10 ^ (- p)).

(** The [k]-digit decimal nearest to the number, if it reads back. *)
Definition candidate (n k : Z) : option Z :=
  let p := n - k in
  let s := if 0 <=? p then N / (2 ^ E * 10 ^ p) else N * 10 ^ (- p) / 2 ^ E in
  match reads_back s p, reads_back (s + 1) p with
  | true, true =>
      match distance s p ?= distance (s + 1) p with
      | Lt => Some s
      | Gt => Some (s + 1)
      | Eq => Some (if Z.even s then s else s + 1)
      end
  | true, false => Some s
  | false, true => Some (s + 1)
  | false, false => None
  end.

Fixpoint search (fuel : nat) (n k : Z) : Z * Z :=
  match fuel with
  | O => (N, n)
  | S fuel =>
      match candidate n k with
      | Some s => if s =? 10 ^ k then (1, n + 1) else (s, n)
      | None => search fuel n (k + 1)
      end
  end.

(** The shortest digits [s] and the position [n] of the decimal point;
    17 digits always read back. *)
Definition shortest : Z * Z := search 17 (magnitude N E) 1.
End Digits.

Definition layout (digits : string) (n : Z) : string :=
  let k := Z.of_nat (String.length digits) in
  if (k <=? n) && (n <=? 21) then digits +:+ zeros (n - k)
  else if (0 <? n) && (n <=? 21) then
    String.substring 0 (Z.to_nat n) digits +:+ "." +:+
    String.substring (Z.to_nat n) (Z.to_nat (k - n)) digits
  else if (-6 <? n) && (n <=? 0) then "0." +:+ zeros (- n) +:+ digits
  else
    let e := n - 1 in
    (if k =? 1 then digits
     else String.substring 0 1 digits +:+ "." +:+
          String.substring 1 (Z.to_nat (k - 1)) digits)
    +:+ "e" +:+ (if 0 <=? e then "+" else "-") +:+ pretty (Z.abs e).

Definition sign (m : Z) : string := if m <? 0 then "-" else EmptyString.

(** An integer below [2^53] in absolute value needs all its digits to read
    back, so they are printed as they are. *)
Definition number_to_string (x : number) : string :=
  match x with
  | NaN => "NaN"
  | Infinity false => "Infinity"
  | Infinity true => "-Infinity"
  | Int n =>
      if Z.abs n <? 2 ^ 53 then pretty n
      else
        let '(s, p) := shortest (Z.abs n) 0 in
        sign n +:+ layout (pretty s) p
  | Fraction k e =>
      let m := 2 * k + 1 in
      let '(s, p) := shortest (Z.abs m) (Z.pos e) in
      sign m +:+ layout (pretty s) p
  end.

(** *** Strings

    A string is kept as its UTF-8 bytes.  [s.length] counts UTF-16 code
    units: one for a character of up to three bytes, two for one of four
    bytes. *)
Definition code_units (c : Ascii.ascii) : nat :=
  let b := Ascii.nat_of_ascii c in
  if (b <? 128)%nat then 1%nat
  else if (b <? 192)%nat then 0%nat
  else if (b <? 240)%nat then 1%nat
  else 2%nat.

Fixpoint string_length (s : string) : nat :=
  match s with
  | EmptyString => 0%nat
  | String c s' => (code_units c + string_length s')%nat
  end.

(** *** Values *)

Inductive Value :=
  | VUndefined
  | VNumber (x : number)
  | VString (s : string)
  | VBoolean (b : bool).

Abbreviation VNaN := (VNumber NaN).

#[global] Instance Value_eq_dec : EqDecision Value.
Proof. solve_decision. Defined.

(** An object literal / [Record<string, any>]. *)
Abbreviation Object := (gmap string Value).

(** Property access [o.k]: [undefined] when the property is absent. *)
Definition get (o : Object) (k : string) : Value :=
  default VUndefined (o !! k).

(** Array access [a[i]]: [undefined] when out of range. *)
Definition index (a : list Value) (i : nat) : Value :=
  default VUndefined (a !! i).

(** Strict equality [===] on primitives: same type and same value, except
    that [NaN] is equal to nothing, itself included. *)
Definition strict_eq (x y : Value) : bool :=
  match x, y with
  | VNaN, _ | _, VNaN => false
  | _, _ => bool_decide (x = y)
  end.

(** Strict inequality [!==]. *)
Definition strict_neq (x y : Value) : bool := negb (strict_eq x y).

(** [ToString], as used by template literals and string concatenation. *)
Definition to_string (v : Value) : string :=
  match v with
  | VUndefined => "undefined"
  | VNumber x => number_to_string x
  | VString s => s
  | VBoolean true => "true"
  | VBoolean false => "false"
  end.

(** [ToNumber] on the non-string primitives. *)
Definition to_number (v : Value) : number :=
  match v with
  | VNumber x => x
  | VBoolean true => 1
  | VBoolean false => 0
  | VUndefined | VString _ => NaN
  end.

(** The binary [+]: string concatenation as soon as one operand is a
    string, number addition otherwise. *)
Definition add (x y : Value) : Value :=
  match x, y with
  | VString _, _ | _, VString _ => VString (to_string x +:+ to_string y)
  | _, _ => VNumber (add_number (to_number x) (to_number y))
  end.

(** What can be thrown by the modelled code: [new Error(message)], or the
    [TypeError] raised by destructuring [undefined]. *)
Inductive Exception :=
  | Error (message : string)
  | TypeError.

(** A settled promise. *)
Inductive Promise (A : Type) :=
  | Fulfilled (a : A)
  | Rejected (e : Exception).
Arguments Fulfilled {A} a.
Arguments Rejected {A} e.

(** The body of an [async] function that does not await, over the module
    state [W]: the promise it returns is settled when the call returns. *)
Definition Async (W A : Type) : Type := W -> Promise A * W.

Definition ret {W A} (a : A) : Async W A := fun w => (Fulfilled a, w).

Definition throw {W A} (e : Exception) : Async W A := fun w => (Rejected e, w).

Definition bind {W A B} (c : Async W A) (k : A -> Async W B) : Async W B :=
  fun w =>
    match c w with
    | (Fulfilled a, w') => k a w'
    | (Rejected e, w') => (Rejected e, w')
    end.

Definition read {W} : Async W W := fun w => (Fulfilled w, w).

Definition write {W} (w' : W) : Async W unit := fun _ => (Fulfilled tt, w').

(** [Promise.all] on promises that were settled in array order, as those
    of [async] functions that do not await are: the array of the values
    when all are fulfilled, else the rejection of the first rejected one.
    [promise_all] below is [Promise.all] on promises settled in any
    order. *)
Fixpoint all {A} (ps : list (Promise A)) : Promise (list A) :=
  match ps with
  | [] => Fulfilled []
  | Rejected e :: _ => Rejected e
  | Fulfilled a :: ps' =>
      match all ps' with
      | Fulfilled l => Fulfilled (a :: l)
      | Rejected e => Rejected e
      end
  end.

(** Evaluating the calls of an array of calls of [async] functions that do
    not await from left to right, as [Array.prototype.map] does: every call
    is made, whatever the earlier ones settled to, and each one sees the
    state its predecessors left. *)
Fixpoint calls {W A} (cs : list (Async W A)) (w : W) : list (Promise A) * W :=
  match cs with
  | [] => ([], w)
  | c :: cs' =>
      let '(p, w1) := c w in
      let '(ps, w2) := calls cs' w1 in
      (p :: ps, w2)
  end.

(** *** Promises that settle later

    What the calls of any function that returns a promise can do, whether
    it is [async] or not and whether it awaits or not: a call throws, or it
    returns a promise, and the promise is settled at some time, or never.
    The times order the settlements of the promises of one array. *)
Inductive Fate (A : Type) :=
  | settles (time : nat) (p : Promise A)
  | pending.
Arguments settles {A} time p.
Arguments pending {A}.

Inductive Call (A : Type) :=
  | throws (e : Exception)
  | returns (f : Fate A).
Arguments throws {A} e.
Arguments returns {A} f.

(** [array.map(call)] when a call can throw: the first throw ends the
    loop, and the calls after it are not made. *)
Fixpoint map_calls {A} (cs : list (Call A)) : Exception + list (Fate A) :=
  match cs with
  | [] => inr []
  | throws e :: _ => inl e
  | returns f :: cs' =>
      match map_calls cs' with
      | inl e => inl e
      | inr fs => inr (f :: fs)
      end
  end.

(** The rejection that comes first in time (of two at the same time, the
    one of lower index). *)
Fixpoint first_rejection {A} (fs : list (Fate A)) : option (nat * Exception) :=
  match fs with
  | [] => None
  | settles t (Rejected e) :: fs' =>
      match first_rejection fs' with
      | Some (t', e') => if (t' <? t)%nat then Some (t', e') else Some (t, e)
      | None => Some (t, e)
      end
  | _ :: fs' => first_rejection fs'
  end.

(** The values of the promises, when all are fulfilled. *)
Fixpoint fulfilments {A} (fs : list (Fate A)) : option (list A) :=
  match fs with
  | [] => Some []
  | settles _ (Fulfilled a) :: fs' => cons a <$> fulfilments fs'
  | _ :: _ => None
  end.

(** [Promise.all(promises)]: rejected as soon as one of the promises is,
    with its reason; fulfilled with the values, in the order of the
    promises, once all are fulfilled; never settled ([None]) otherwise. *)
Definition promise_all {A} (fs : list (Fate A)) : option (Promise (list A)) :=
  match first_rejection fs with
  | Some (_, e) => Some (Rejected e)
  | None => Fulfilled <$> fulfilments fs
  end.

End Js.

Notation "'let*' x ':=' c 'in' k" := (Js.bind c (fun x => k))
  (at level 10, x name, c at level 100, k at level 200, only parsing).
Notation "c1 ';;' c2" := (Js.bind c1 (fun _ => c2))
  (at level 100, c2 at level 200, right associativity, only parsing).

(** ** [src/types.ts] and [src/compiler/types.ts] *)

Module Types.

Inductive FrameType := full | diff | error.

Record Frame := {
  sequence : Z;
  content : string;
  type : FrameType;
  baseSequence : option Z;
}.

End Types.

Module Compiler.
Import Js.

Inductive ToolType := query | mutation.

#[global] Instance ToolType_eq_dec : EqDecision ToolType.
Proof. solve_decision. Defined.

Inductive InputType := string_t | number_t | boolean_t.

(** [ToolDefinition]; [W] is the state the tool's module closes over and
    [Out] what its promise resolves to.  The argument of [execute] is
    [None] when the caller passes [undefined].  The member [execute] is
    that of a tool whose [execute] is an [async] function that does not
    await. *)
Record ToolDefinition (W Out : Type) := {
  name : string;
  type : ToolType;
  description : string;
  input : list (string * InputType);
  execute : option Object -> Async W Out;
}.
Arguments name {W Out} _.
Arguments type {W Out} _.
Arguments description {W Out} _.
Arguments input {W Out} _.
Arguments execute {W Out} _ _ _.

(** [parallel(tools, inputs)] of [src/compiler/parallel.ts], on tools
    whose [execute] is an [async] function that does not await. *)
Definition parallel {W Out} (tools : list (ToolDefinition W Out))
    (inputs : list Object) : Async W (list Out) :=
  (* Validate all tools are queries *)
  if negb (forallb (fun t => bool_decide (type t = query)) tools) then
    throw (Error "parallel() can only be used with query tools")
  else
    (* Validate all inputs have same sequence number *)
    let sequences := map (fun i => get i "basedOnSequence") inputs in
    if negb (forallb (fun s => strict_eq s (index sequences 0)) sequences) then
      throw (Error "All parallel tools must use the same sequence number")
    else
      (* Execute all tools in parallel *)
      fun w =>
        let '(promises, w') :=
          calls (imap (fun i tool => execute tool (inputs !! i)) tools) w in
        (all promises, w').

(** The two validations of [parallel], as one test on the batch. *)
Definition accepted {W Out} (tools : list (ToolDefinition W Out))
    (inputs : list Object) : bool :=
  forallb (fun t => bool_decide (type t = query)) tools
  && forallb (fun s => strict_eq s (index (map (fun i => get i "basedOnSequence") inputs) 0))
       (map (fun i => get i "basedOnSequence") inputs).

(** The calls an accepted batch makes, in array order:
    [tools[i].execute(inputs[i])]. *)
Definition invocations {W Out} (tools : list (ToolDefinition W Out))
    (inputs : list Object) : list (Async W Out) :=
  imap (fun i tool => execute tool (inputs !! i)) tools.

(** The state in which the call of index [i] of a batch starts: the one
    left by the calls of lower index. *)
Definition state_before {W Out} (tools : list (ToolDefinition W Out))
    (inputs : list Object) (w : W) (i : nat) : W :=
  snd (calls (take i (invocations tools inputs)) w).

(** [parallel(tools, inputs)] for [execute] functions of any kind:
    [does i] is what the call [tools[i].execute(inputs[i])] does once it is
    made.  The result is what the promise that [parallel], an [async]
    function, returns is settled to; [None] when it never is. *)
Definition parallel_of {W Out} (tools : list (ToolDefinition W Out))
    (inputs : list Object) (does : nat -> Call Out)
    : option (Promise (list Out)) :=
  (* Validate all tools are queries *)
  if negb (forallb (fun t => bool_decide (type t = query)) tools) then
    Some (Rejected (Error "parallel() can only be used with query tools"))
  else
    (* Validate all inputs have same sequence number *)
    let sequences := map (fun i => get i "basedOnSequence") inputs in
    if negb (forallb (fun s => strict_eq s (index sequences 0)) sequences) then
      Some (Rejected (Error "All parallel tools must use the same sequence number"))
    else
      (* Execute all tools in parallel *)
      match map_calls (imap (fun i _ => does i) tools) with
      | inl e => Some (Rejected e)
      | inr promises => promise_all promises
      end.

(** What the calls of a batch do when every [execute] is an [async]
    function that does not await, as [parallel] above has them: each call
    returns a promise that is settled by the time the call returns, hence
    in array order. *)
Definition settled_calls {W Out} (tools : list (ToolDefinition W Out))
    (inputs : list Object) (w : W) (i : nat) : Call Out :=
  match fst (calls (invocations tools inputs) w) !! i with
  | Some p => returns (settles i p)
  | None => returns pending
  end.

(** A tool that also records its name in a call log each time its
    [execute] is entered: the state becomes the pair of the tool's state
    and the log. *)
Definition traced {W Out} (t : ToolDefinition W Out)
    : ToolDefinition (W * list string) Out :=
  {| name := name t;
     type := type t;
     description := description t;
     input := input t;
     execute := fun arg '(w, log) =>
       let '(p, w') := execute t arg w in (p, (w', log ++ [name t])) |}.

End Compiler.

(** ** [src/tools/int-stream.ts] *)

Module IntStream.
Import Js.

(** The module-level variables [currentValue] and [currentSequence].  The
    second starts at 1 and is only ever changed by [+= 1]: it always holds
    an integer. *)
Record State := {
  currentValue : Value;
  currentSequence : Z;
}.

(** [currentSequence += 1]: number addition; the sum of two integers,
    rounded, is an integer again (or, from [2^1024] on, which no double
    plus one reaches, an infinity). *)
Definition plus_one (s : Z) : Z :=
  match add_number s 1 with
  | Int s' => s'
  | _ => s
  end.

(** [let currentValue = 0; let currentSequence = 1;] *)
Definition initial : State :=
  {| currentValue := VNumber 0; currentSequence := 1 |}.

(** [interface IntFrame extends Frame { value: number }] *)
Record IntFrame := {
  sequence : Z;
  type : Types.FrameType;
  content : string;
  baseSequence : option Z;
  value : Value;
}.

(** An [IntFrame] seen as the [Frame] it extends. *)
Definition to_frame (f : IntFrame) : Types.Frame :=
  {| Types.sequence := sequence f;
     Types.content := content f;
     Types.type := type f;
     Types.baseSequence := baseSequence f |}.

(** Destructuring the parameter [{ ... }] of [execute]: a [TypeError]
    when the argument is [undefined]. *)
Definition destructure (arg : option Object) : Async State Object :=
  match arg with
  | Some o => ret o
  | None => throw TypeError
  end.

Definition getCurrentValue_execute (arg : option Object) : Async State IntFrame :=
  let* o := destructure arg in
  let basedOnSequence := get o "basedOnSequence" in
  let* st := read in
  (* Frame Protocol: Validate sequence number *)
  if strict_neq basedOnSequence (VNumber (currentSequence st)) then
    throw (Error "Invalid sequence number")
  else
    (* Frame Protocol: Return current state as a frame *)
    ret {| sequence := currentSequence st;
           type := Types.full;
           content := "Value is " +:+ to_string (currentValue st);
           baseSequence := None;
           value := currentValue st |}.

Definition getCurrentValue : Compiler.ToolDefinition State IntFrame :=
  {| Compiler.name := "get_current_value";
     Compiler.description := "Get current value of the integer stream";
     Compiler.type := Compiler.query;
     Compiler.input := [("basedOnSequence", Compiler.number_t)];
     Compiler.execute := getCurrentValue_execute |}.

Definition incrementValue_execute (arg : option Object) : Async State IntFrame :=
  let* o := destructure arg in
  let amount := get o "amount" in
  let basedOnSequence := get o "basedOnSequence" in
  let* st := read in
  (* Frame Protocol: Validate sequence number *)
  if strict_neq basedOnSequence (VNumber (currentSequence st)) then
    throw (Error "Invalid sequence number")
  else
    (* Frame Protocol: Update state and increment sequence *)
    write {| currentValue := add (currentValue st) amount;
             currentSequence := currentSequence st |};;
    let* st := read in
    write {| currentValue := currentValue st;
             currentSequence := plus_one (currentSequence st) |};;
    (* Frame Protocol: Return new state as a frame *)
    let* st := read in
    ret {| sequence := currentSequence st;
           type := Types.full;
           content := "Value is now " +:+ to_string (currentValue st);
           baseSequence := None;
           value := currentValue st |}.

Definition incrementValue : Compiler.ToolDefinition State IntFrame :=
  {| Compiler.name := "increment_value";
     Compiler.description := "Increment the integer stream by a specified amount";
     Compiler.type := Compiler.mutation;
     Compiler.input := [("amount", Compiler.number_t);
                        ("basedOnSequence", Compiler.number_t)];
     Compiler.execute := incrementValue_execute |}.

End IntStream.

(** ** [src/tools/mock-dom.ts] and [src/tools/web.ts] *)

Module Web.
Import Js.

(** The double-quote character. *)
Definition dquote : string :=
  String (Ascii.Ascii false true false false false true false false) EmptyString.

(** [mockPage], the mock initial page state. *)
Definition mockPage : Types.Frame :=
  {| Types.sequence := 1;
     Types.content := "<div><button>Click me</button><a href=" +:+ dquote
                        +:+ "#" +:+ dquote +:+ ">Link</a></div>";
     Types.type := Types.full;
     Types.baseSequence := None |}.

(** [let currentFrame: Frame = mockPage], the state of the module. *)
Definition currentFrame : Types.Frame := mockPage.

Inductive ElementType := button | link.

Record Element := {
  selector : string;
  text : string;
  type : ElementType;
  enabled : bool;
}.

(** What the two example tools resolve to: [{ elements: [...] }] or
    [{ clicked: ... }]. *)
Inductive Result :=
  | elements (l : list Element)
  | clicked (b : bool).

(** [getClickableElements]: its [execute] takes no parameter. *)
Definition getClickableElements : Compiler.ToolDefinition Types.Frame Result :=
  {| Compiler.name := "getClickableElements";
     Compiler.type := Compiler.query;
     Compiler.description := "Get all clickable elements on the page";
     Compiler.input := [];
     Compiler.execute := fun _ => ret (elements []) |}.

(** [clickElement]: its [execute] ignores its parameter. *)
Definition clickElement : Compiler.ToolDefinition Types.Frame Result :=
  {| Compiler.name := "clickElement";
     Compiler.type := Compiler.mutation;
     Compiler.description := "Click an element on the page";
     Compiler.input := [("selector", Compiler.string_t)];
     Compiler.execute := fun input => ret (clicked true) |}.

End Web.

(** ** [docs/STREAMING.md]: the stream controller *)

Module Streaming.
Import Js.

(** [type StreamState = 'initial' | 'streaming' | 'paused' | 'cancelled'
    | 'error' | 'complete'] *)
Inductive StreamState :=
  | initial | streaming | paused | cancelled | error | complete.

#[global] Instance StreamState_eq_dec : EqDecision StreamState.
Proof. solve_decision. Defined.

Definition state_name (s : StreamState) : string :=
  match s with
  | initial => "initial"
  | streaming => "streaming"
  | paused => "paused"
  | cancelled => "cancelled"
  | error => "error"
  | complete => "complete"
  end.

(** [Array.prototype.includes]. *)
Fixpoint includes (l : list StreamState) (x : StreamState) : bool :=
  match l with
  | [] => false
  | y :: l' => if decide (y = x) then true else includes l' x
  end.

(** The table [validTransitions] of [isValidTransition]. *)
Definition validTransitions (from : StreamState) : list StreamState :=
  match from with
  | initial => [streaming; error]
  | streaming => [paused; complete; error; cancelled]
  | paused => [streaming; cancelled; error]
  | cancelled => []
  | error => []
  | complete => []
  end.

Definition isValidTransition (from to : StreamState) : bool :=
  includes (validTransitions from) to.

(** The private fields of [StreamController]: [state], and what the
    [stateEmitter] has emitted on ['stateChange'] so far. *)
Record StreamController := {
  state : StreamState;
  emitted : list StreamState;
}.

(** [transition(newState)]. *)
Definition transition (newState : StreamState) : Async StreamController unit :=
  let* this := read in
  if negb (isValidTransition (state this) newState) then
    throw (Error ("Invalid state transition: " +:+ state_name (state this)
                    +:+ " -> " +:+ state_name newState))
  else
    write {| state := newState; emitted := emitted this ++ [newState] |}.

(** The transition table in the words of the specification:
    initial goes to streaming or error; streaming to paused, complete,
    error or cancelled; paused to streaming, cancelled or error; the
    terminal states go nowhere. *)
Inductive allowed : StreamState -> StreamState -> Prop :=
  | initial_streaming : allowed initial streaming
  | initial_error : allowed initial error
  | streaming_paused : allowed streaming paused
  | streaming_complete : allowed streaming complete
  | streaming_error : allowed streaming error
  | streaming_cancelled : allowed streaming cancelled
  | paused_streaming : allowed paused streaming
  | paused_cancelled : allowed paused cancelled
  | paused_error : allowed paused error.

(** Terminal states: cancelled, error, complete. *)
Definition terminal (s : StreamState) : Prop :=
  s = cancelled \/ s = error \/ s = complete.

End Streaming.

(** ** The Frame Protocol document: frames, the base-frame rule *)

Module FrameProtocol.

(** [type: 'full_page' | 'diff' | 'error'] *)
Inductive ChangeType := full_page | diff | error.

#[global] Instance ChangeType_eq_dec : EqDecision ChangeType.
Proof. solve_decision. Defined.

(** [code: 'sequence_invalid' | 'element_not_found' | 'network_error'] *)
Inductive ErrorCode := sequence_invalid | element_not_found | network_error.

Record ErrorInfo := {
  code : ErrorCode;
  message : string;
}.

(** The [changes] member of a frame; the optional member named [error] in
    the document is [error_detail] here. *)
Record Changes := {
  type : ChangeType;
  content : string;
  selector : option string;
  baseFrame : option Z;
  error_detail : option ErrorInfo;
}.

(** [interface Frame] of the Frame Protocol document. *)
Record Frame := {
  sequence : Z;
  url : string;
  changes : Changes;
}.

(** The extended example of the document (the array it calls [sequence]),
    in array order: oldest frame first. *)
Definition example_sequence : list Frame :=
  [ {| sequence := 1; url := "/search";
       changes := {| type := full_page; content := "<search page>";
                     selector := None; baseFrame := None; error_detail := None |} |};
    {| sequence := 2; url := "/products";
       changes := {| type := full_page; content := "<product page>";
                     selector := None; baseFrame := None; error_detail := None |} |};
    {| sequence := 3; url := "/products";
       changes := {| type := diff; content := "<expanded menu>";
                     selector := Some "#menu-1"; baseFrame := Some 2; error_detail := None |} |};
    {| sequence := 4; url := "/products";
       changes := {| type := diff; content := "<new review>";
                     selector := Some "#reviews"; baseFrame := Some 2; error_detail := None |} |};
    {| sequence := 5; url := "/cart";
       changes := {| type := full_page; content := "<cart page>";
                     selector := None; baseFrame := None; error_detail := None |} |} ].

(** The two conditions of the document's rule on a candidate base frame:
    1. url matches current frame; 2. type is ['full_page']. *)
Definition is_base_for (scopeKey : string) (f : Frame) : bool :=
  bool_decide (url f = scopeKey) && bool_decide (type (changes f) = full_page).

(** Modelled from the spec: the Frame Store, absent from the sources.  It
    owns the sequence counter [head] and the append-only [history], kept
    with the most recent frame first. *)
Record FrameStore := {
  head : Z;
  history : list Frame;
}.

(** Modelled from the spec: a store with no frame yet, whose counter
    stands at [h]. *)
Definition empty (h : Z) : FrameStore := {| head := h; history := [] |}.

(** Modelled from the spec: [append(scopeKey, changes)] assigns the next
    sequence number, constructs the frame, appends it to the history and
    returns it. *)
Definition append (scopeKey : string) (c : Changes) (s : FrameStore)
    : Frame * FrameStore :=
  let f := {| sequence := head s + 1; url := scopeKey; changes := c |} in
  (f, {| head := head s + 1; history := f :: history s |}).

(** Modelled from the spec: [latestFullFrame(scopeKey)] returns the most
    recent [full_page] frame for a scope key, or not-found; the history is
    searched most-recent-first. *)
Definition latestFullFrame (scopeKey : string) (s : FrameStore) : option Frame :=
  find (is_base_for scopeKey) (history s).

(** Modelled from the spec: [isCurrent(sequence)] is true iff [sequence]
    equals the store's current head sequence. *)
Definition isCurrent (n : Z) (s : FrameStore) : bool := bool_decide (n = head s).

(** Modelled from the spec: what the Diff Resolver is given.  A fresh
    observation carries the full page, the place and content of the change,
    and whether the caller asks for a full refresh; an executor failure
    carries the error and the best-available current page. *)
Inductive Observation :=
  | observed (page : string) (where_ : string) (fragment : string) (fullRefresh : bool)
  | failed (e : ErrorInfo) (page : string).

(** Modelled from the spec: the Diff Resolver.  Failure is always encoded
    as [error]; without a prior [full_page] frame for the scope key, or on
    an explicit full refresh, the observation is encoded as [full_page];
    otherwise as [diff] with [baseFrame] the result of [latestFullFrame]. *)
Definition resolve (scopeKey : string) (o : Observation) (s : FrameStore) : Changes :=
  match o with
  | failed e page =>
      {| type := error; content := page; selector := None;
         baseFrame := None; error_detail := Some e |}
  | observed page where_ fragment fullRefresh =>
      match (if fullRefresh then None else latestFullFrame scopeKey s) with
      | None =>
          {| type := full_page; content := page; selector := None;
             baseFrame := None; error_detail := None |}
      | Some base =>
          {| type := diff; content := fragment; selector := Some where_;
             baseFrame := Some (sequence base); error_detail := None |}
      end
  end.

(** Modelled from the spec: producing a frame goes through the Diff
    Resolver and then the Frame Store. *)
Definition emit (scopeKey : string) (o : Observation) (s : FrameStore)
    : Frame * FrameStore :=
  append scopeKey (resolve scopeKey o s) s.

(** Modelled from the spec: a client-specified history limit clears the
    history that precedes the [n] most recent frames. *)
Definition limit (n : nat) (s : FrameStore) : FrameStore :=
  {| head := head s; history := take n (history s) |}.

(** Modelled from the spec: a recovery-triggered reset clears the history;
    the sequence numbers are not rewound.  (A new session starts from an
    [empty] store, in a fresh sequence space.) *)
Definition reset (s : FrameStore) : FrameStore :=
  {| head := head s; history := [] |}.

(** Modelled from the spec: the stores that exist, from an empty one by
    emitting frames, applying a history limit and resetting. *)
Inductive reachable : FrameStore -> Prop :=
  | reachable_empty h : reachable (empty h)
  | reachable_emit scopeKey o s :
      reachable s -> reachable (snd (emit scopeKey o s))
  | reachable_limit n s : reachable s -> reachable (limit n s)
  | reachable_reset s : reachable s -> reachable (reset s).

(** Modelled from the spec: the stores that come from the store [s0] by
    emitting frames, without any clearing of the history since. *)
Inductive emitted_since (s0 : FrameStore) : FrameStore -> Prop :=
  | since_now : emitted_since s0 s0
  | since_emit scopeKey o s :
      emitted_since s0 s -> emitted_since s0 (snd (emit scopeKey o s)).

(** The invariant of the history (most recent frame first): sequence
    numbers decrease towards the past and stay at or below [head], and a
    [diff] frame names as [baseFrame] the first frame behind it that
    satisfies the base-frame rule for its url. *)
Inductive well_formed : Z -> list Frame -> Prop :=
  | well_formed_nil h : well_formed h []
  | well_formed_cons h f older :
      well_formed (sequence f - 1) older ->
      sequence f <= h ->
      (type (changes f) = diff ->
       exists g, find (is_base_for (url f)) older = Some g
                 /\ baseFrame (changes f) = Some (sequence g)) ->
      well_formed h (f :: older).

(** Running a list of observations, oldest first. *)
Definition emit_all (os : list (string * Observation)) (s : FrameStore) : FrameStore :=
  fold_left (fun s ko => snd (emit (fst ko) (snd ko) s)) os s.

(** The observations behind the document's extended example: a page
    load on each new url, two changes inside the products page. *)
Definition example_observations : list (string * Observation) :=
  [ ("/search", observed "<search page>" "" "" false);
    ("/products", observed "<product page>" "" "" false);
    ("/products", observed "<product page>" "#menu-1" "<expanded menu>" false);
    ("/products", observed "<product page>" "#reviews" "<new review>" false);
    ("/cart", observed "<cart page>" "" "" false) ].

End FrameProtocol.

(** ** [docs/SYNC.md]: acknowledgements and recovery *)

Module Sync.

(** The client's test for sync issues in [docs/SYNC.md]:
    [model.lastAck < client.lastSent - MAX_UNACKED_EVENTS]. *)
Definition sync_issue (lastAck lastSent MAX_UNACKED_EVENTS : Z) : bool :=
  lastAck <? lastSent - MAX_UNACKED_EVENTS.

(** Modelled from the spec: the Session Sync Manager, absent from the
    sources.  Its state for one session. *)
Record SessionSync := {
  sessionId : string;
  lastSent : Z;
  lastAck : Z;
  smallGapThreshold : Z;
}.

(** Modelled from the spec: [recordSent(sequence)], sender-side
    bookkeeping. *)
Definition recordSent (n : Z) (s : SessionSync) : SessionSync :=
  {| sessionId := sessionId s; lastSent := n; lastAck := lastAck s;
     smallGapThreshold := smallGapThreshold s |}.

(** Modelled from the spec: [recordAck(sequence)] sets
    [lastAck = max(lastAck, sequence)]. *)
Definition recordAck (n : Z) (s : SessionSync) : SessionSync :=
  {| sessionId := sessionId s; lastSent := lastSent s;
     lastAck := Z.max (lastAck s) n;
     smallGapThreshold := smallGapThreshold s |}.

(** Modelled from the spec: [gap()] is [lastSent - lastAck]. *)
Definition gap (s : SessionSync) : Z := lastSent s - lastAck s.

(** Modelled from the spec: the strategy named by a [recovery-required]
    notification; [resend] carries the exact list of missed sequence
    numbers. *)
Inductive Recovery :=
  | resend (missed : list Z)
  | snapshot
  | reset.

(** Modelled from the spec: the missed sequence numbers,
    [lastAck + 1 .. lastSent], in the order they were sent. *)
Definition missed (s : SessionSync) : list Z := seqZ (lastAck s + 1) (gap s).

(** Modelled from the spec: the recovery policy; the session-change flag
    is looked at first, then the size of the gap. *)
Definition selectRecovery (sessionChanged : bool) (s : SessionSync) : Recovery :=
  if sessionChanged then reset
  else if gap s <=? smallGapThreshold s then resend (missed s)
  else snapshot.

End Sync.

(** ** [src/compiler/index.ts]: compiling tool definitions *)

Module Compile.

(** An object whose property order matters is the list of its entries in
    the order in which they were added (for an object literal, written); a
    key occurs once. *)
Definition keys {A} (o : list (string * A)) : list string := map fst o.

Fixpoint digits_value (s : string) (acc : N) : option N :=
  match s with
  | EmptyString => Some acc
  | String c s' =>
      let d := Ascii.N_of_ascii c in
      if ((48 <=? d) && (d <=? 57))%N then digits_value s' (10 * acc + (d - 48))%N
      else None
  end.

(** The keys that are array indices: the decimal numerals, without
    leading zeros, of the integers from 0 to [2^32 - 2]. *)
Definition array_index (k : string) : option N :=
  match digits_value k 0 with
  | Some n =>
      if bool_decide (pretty n = k) && (n <? 2 ^ 32 - 1)%N then Some n else None
  | None => None
  end.

Definition index_le {A} (e1 e2 : string * A) : Prop :=
  (default 0 (array_index e1.1) <= default 0 (array_index e2.1))%N.

#[global] Instance index_le_dec {A} (e1 e2 : string * A) : Decision (index_le e1 e2).
Proof. unfold index_le. apply _. Defined.

(** [Object.entries(o)]: the entries whose keys are array indices come
    first, by ascending index; the others follow in the order in which they
    were added. *)
Definition entries {A} (o : list (string * A)) : list (string * A) :=
  merge_sort index_le (filter (fun e => is_Some (array_index e.1)) o)
  ++ filter (fun e => ~ is_Some (array_index e.1)) o.

(** [Object.keys(o)]. *)
Definition object_keys {A} (o : list (string * A)) : list string :=
  keys (entries o).

(** [{ ...o, [key]: v }]: the entry is replaced where it stands when the
    key is there, else added last. *)
Fixpoint assign {A} (o : list (string * A)) (key : string) (v : A)
    : list (string * A) :=
  match o with
  | [] => [(key, v)]
  | (k, x) :: o' =>
      if decide (k = key) then (k, v) :: o' else (k, x) :: assign o' key v
  end.

(** [Array.prototype.includes] on strings. *)
Definition includes (l : list string) (k : string) : bool := bool_decide (k ∈ l).

(** The input types as the strings they are in the source. *)
Definition type_name (t : Compiler.InputType) : string :=
  match t with
  | Compiler.string_t => "string"
  | Compiler.number_t => "number"
  | Compiler.boolean_t => "boolean"
  end.

(** An entry of [properties]. *)
Record Property := {
  type : string;
  description : option string;
}.

(** The entry built for one input parameter:
    [{ type: type === 'number' ? 'number' : 'string',
       description: `Parameter ${key} of type ${type}` }]. *)
Definition property_for (key : string) (ty : Compiler.InputType) : Property :=
  {| type := match ty with Compiler.number_t => "number" | _ => "string" end;
     description := Some ("Parameter " +:+ key +:+ " of type " +:+ type_name ty) |}.

(** The [reduce] over [Object.entries(tool.input)], which is the same in
    [compileToOpenAI] and [compileToAnthropic]. *)
Definition reduce_properties (input : list (string * Compiler.InputType))
    : list (string * Property) :=
  fold_left (fun acc '(key, ty) => assign acc key (property_for key ty))
    (entries input) [].

(** [OpenAIFunction]. *)
Module OpenAI.
Record Parameters := {
  type : string;
  properties : list (string * Property);
  required : list string;
}.
Record Function := {
  name : string;
  description : string;
  parameters : Parameters;
}.
End OpenAI.

(** [AnthropicFunction]; [schema] is its [$schema]. *)
Module Anthropic.
Record Parameters := {
  schema : string;
  type : string;
  properties : list (string * Property);
  required : list string;
}.
Record Function := {
  name : string;
  description : string;
  parameters : Parameters;
}.
End Anthropic.

Definition compileToOpenAI {W Out} (tool : Compiler.ToolDefinition W Out)
    : OpenAI.Function :=
  {| OpenAI.name := Compiler.name tool;
     OpenAI.description := Compiler.description tool;
     OpenAI.parameters :=
       {| OpenAI.type := "object";
          OpenAI.properties := reduce_properties (Compiler.input tool);
          OpenAI.required := object_keys (Compiler.input tool) |} |}.

Definition compileToAnthropic {W Out} (tool : Compiler.ToolDefinition W Out)
    : Anthropic.Function :=
  {| Anthropic.name := Compiler.name tool;
     Anthropic.description := Compiler.description tool;
     Anthropic.parameters :=
       {| Anthropic.schema := "https://json-schema.org/draft/2020-12/schema";
          Anthropic.type := "object";
          Anthropic.properties := reduce_properties (Compiler.input tool);
          Anthropic.required := object_keys (Compiler.input tool) |} |}.

(** [!s] on a string. *)
Definition empty_string (s : string) : bool := bool_decide (s = "").

(** [validateTool(tool)].  In a [ToolDefinition] value [input] is an
    object and [execute] a function, so the tests [!tool.input] and
    [!tool.execute || typeof tool.execute !== 'function'] are false, and
    nothing in the [try] block throws. *)
Definition validateTool {W Out} (tool : Compiler.ToolDefinition W Out) : bool :=
  (* Basic validation *)
  if empty_string (Compiler.name tool) || empty_string (Compiler.description tool)
  then false
  else if (length (object_keys (Compiler.input tool)) =? 0)%nat then false
  else
    (* Compile validation *)
    let openai := compileToOpenAI tool in
    let anthropic := compileToAnthropic tool in
    (* Check all inputs are handled *)
    let inputKeys := object_keys (Compiler.input tool) in
    let openaiKeys := object_keys (OpenAI.properties (OpenAI.parameters openai)) in
    let anthropicKeys :=
      object_keys (Anthropic.properties (Anthropic.parameters anthropic)) in
    forallb (fun k => includes openaiKeys k) inputKeys
    && forallb (fun k => includes anthropicKeys k) inputKeys.

End Compile.

(** ** [src/index.ts]: the core protocol types

    Each type is a module with a record [t].  A member the validator
    tests with [!x], [?.] or [=== undefined] is an [option] ([None] is
    [undefined]); a member it tests with [typeof] is a [Value]; a member of
    type [unknown] is an object of primitive values; a [Date] is its time
    in milliseconds. *)

Module Protocol.
Import Js.

Module Example.
Record t := {
  input : Object;
  output : Object;
  description : string;
  tags : option (list string);
}.
End Example.

Inductive BillingModel := per_call | per_data | per_duration.

Module CostInfo.
Record t := {
  estimatedCostPerCall : Value;
  currency : string;
  billingModel : BillingModel;
}.
End CostInfo.

Module Documentation.
Record t := {
  description : option string;
  examples : option (list Example.t);
  limitations : option (list string);
  costImplications : option CostInfo.t;
}.
End Documentation.

Module ErrorType.
Record t := {
  code : option string;
  description : option string;
  isRetryable : Value;
  suggestedUserMessage : option string;
}.
End ErrorType.

Inductive RetryType := exponential_backoff | fixed_interval | custom_retry.

Module RetryStrategy.
Record t := {
  type : RetryType;
  maxAttempts : number;
  initialDelay : option number;
}.
End RetryStrategy.

Inductive FallbackType := alternative_tool | degraded_mode | cache | custom_fallback.

Module FallbackStrategy.
Record t := {
  type : FallbackType;
  description : string;
}.
End FallbackStrategy.

Module ErrorConfig.
Record t := {
  possibleErrors : option (list ErrorType.t);
  retryStrategies : option (list RetryStrategy.t);
  fallbackBehavior : option FallbackStrategy.t;
}.
End ErrorConfig.

(** ['ms' | 's' | 'm' | 'h'] *)
Inductive TimeUnit := unit_ms | unit_s | unit_m | unit_h.

(** [min] and [max] are numbers, and [None] when the member is missing. *)
Module Duration.
Record t := {
  min : option number;
  max : option number;
  unit : TimeUnit;
}.
End Duration.

Module ExecutionConfig.
Record t := {
  estimatedDuration : option Duration.t;
  canBeCancelled : Value;
  supportsProgress : Value;
  parallelExecutionLimit : option number;
}.
End ExecutionConfig.

Inductive ContextKind := user | system | session.

Module ContextType.
Record t := {
  key : string;
  type : ContextKind;
  description : string;
}.
End ContextType.

Inductive SideEffectKind := filesystem | network | database | external_service.

Module SideEffect.
Record t := {
  type : SideEffectKind;
  description : option string;
  isReversible : Value;
}.
End SideEffect.

Module StateConfig.
Record t := {
  persistsBetweenCalls : Value;
  requiredContext : option (list ContextType.t);
  sideEffects : option (list SideEffect.t);
}.
End StateConfig.

Module ModernTool.
Record t := {
  version : option string;
  deprecatedAfter : option Z;
  documentation : option Documentation.t;
  errors : option ErrorConfig.t;
  execution : option ExecutionConfig.t;
  state : option StateConfig.t;
}.
End ModernTool.

(** The [ModernTool] members of [exampleTool]. *)
Definition exampleTool : ModernTool.t :=
  {| ModernTool.version := Some "1.0.0";
     ModernTool.deprecatedAfter := None;
     ModernTool.documentation := Some
       {| Documentation.description := Some "Generate images using stable diffusion";
          Documentation.examples := Some
            [ {| Example.input := {[ "prompt" := VString "A sunset over mountains" ]};
                 Example.output := {[ "url" := VString "https://..." ]};
                 Example.description := "Basic landscape generation";
                 Example.tags := None |} ];
          Documentation.limitations := Some
            [ "Maximum resolution: 1024x1024"; "No explicit content" ];
          Documentation.costImplications := None |};
     ModernTool.errors := Some
       {| ErrorConfig.possibleErrors := Some
            [ {| ErrorType.code := Some "NSFW_CONTENT";
                 ErrorType.description := Some "Prompt contains inappropriate content";
                 ErrorType.isRetryable := VBoolean false;
                 ErrorType.suggestedUserMessage :=
                   Some "Please modify prompt to exclude inappropriate content" |} ];
          ErrorConfig.retryStrategies := Some
            [ {| RetryStrategy.type := exponential_backoff;
                 RetryStrategy.maxAttempts := 3;
                 RetryStrategy.initialDelay := Some (Int 1000) |} ];
          ErrorConfig.fallbackBehavior := None |};
     ModernTool.execution := Some
       {| ExecutionConfig.estimatedDuration := Some
            {| Duration.min := Some (Int 10); Duration.max := Some (Int 30);
               Duration.unit := unit_s |};
          ExecutionConfig.canBeCancelled := VBoolean true;
          ExecutionConfig.supportsProgress := VBoolean true;
          ExecutionConfig.parallelExecutionLimit := Some (Int 5) |};
     ModernTool.state := Some
       {| StateConfig.persistsBetweenCalls := VBoolean false;
          StateConfig.requiredContext := Some
            [ {| ContextType.key := "user_preferences";
                 ContextType.type := user;
                 ContextType.description := "User's style preferences" |} ];
          StateConfig.sideEffects := Some
            [ {| SideEffect.type := filesystem;
                 SideEffect.description := Some "Saves generated image to disk";
                 SideEffect.isReversible := VBoolean true |} ] |} |}.

End Protocol.

(** ** [src/validation/index.ts]: the tool validator *)

Module Validation.
Import Js Protocol.

Inductive ValidationErrorCode :=
  | MISSING_REQUIRED | INVALID_TYPE | INVALID_VALUE | INCONSISTENT_STATE.

Inductive ValidationWarningCode :=
  | MISSING_RECOMMENDED | POTENTIAL_ISSUE | BEST_PRACTICE.

Module ValidationError.
Record t := {
  path : list string;
  message : string;
  code : ValidationErrorCode;
}.
End ValidationError.

Module ValidationWarning.
Record t := {
  path : list string;
  message : string;
  code : ValidationWarningCode;
}.
End ValidationWarning.

Module ValidationResult.
Record t := {
  isValid : bool;
  errors : list ValidationError.t;
  warnings : list ValidationWarning.t;
}.
End ValidationResult.

(** The private members of [ToolValidator]. *)
Record ToolValidator := {
  errors : list ValidationError.t;
  warnings : list ValidationWarning.t;
}.

(** [typeof v === 'boolean'] and [typeof v === 'number']. *)
Definition is_boolean (v : Value) : bool :=
  match v with VBoolean _ => true | _ => false end.

Definition is_number (v : Value) : bool :=
  match v with VNumber _ => true | _ => false end.

(** The truth value of [v] in a condition. *)
Definition truthy (v : Value) : bool :=
  match v with
  | VUndefined | VNaN => false
  | VNumber (Int n) => negb (n =? 0)
  | VNumber _ => true
  | VString s => negb (bool_decide (s = ""))
  | VBoolean b => b
  end.

(** A number that may be missing, as an operand of a comparison:
    [undefined] is converted to [NaN]. *)
Definition number_of (x : option number) : number := default NaN x.

(** [!x] for a string that may be missing. *)
Definition no_string (x : option string) : bool :=
  match x with
  | Some s => bool_decide (s = "")
  | None => true
  end.

(** [!x || x.length === 0] for an array that may be missing. *)
Definition no_items {A} (x : option (list A)) : bool :=
  match x with
  | Some l => (length l =? 0)%nat
  | None => true
  end.

(** [this.errors.push({ path, message, code })]. *)
Definition addError (path : list string) (message : string)
    (code : ValidationErrorCode) (this : ToolValidator) : ToolValidator :=
  {| errors := errors this ++
       [ {| ValidationError.path := path; ValidationError.message := message;
            ValidationError.code := code |} ];
     warnings := warnings this |}.

(** [this.warnings.push({ path, message, code })]. *)
Definition addWarning (path : list string) (message : string)
    (code : ValidationWarningCode) (this : ToolValidator) : ToolValidator :=
  {| errors := errors this;
     warnings := warnings this ++
       [ {| ValidationWarning.path := path; ValidationWarning.message := message;
            ValidationWarning.code := code |} ] |}.

(** [if (c) { ... }] around a step of the validator. *)
Definition when (c : bool) (step : ToolValidator -> ToolValidator)
    (this : ToolValidator) : ToolValidator :=
  if c then step this else this.

(** [l.forEach((x, index) => ...)], the indices starting from [i]. *)
Fixpoint forEach_from {A} (i : nat) (l : list A)
    (body : A -> nat -> ToolValidator -> ToolValidator)
    (this : ToolValidator) : ToolValidator :=
  match l with
  | [] => this
  | x :: l' => forEach_from (S i) l' body (body x i this)
  end.

(** [l?.forEach((x, index) => ...)]. *)
Definition forEach {A} (l : option (list A))
    (body : A -> nat -> ToolValidator -> ToolValidator)
    (this : ToolValidator) : ToolValidator :=
  match l with
  | Some l => forEach_from 0 l body this
  | None => this
  end.

(** [validateRequired(tool)]. *)
Definition validateRequired (tool : ModernTool.t) (this : ToolValidator)
    : ToolValidator :=
  let this := when (no_string (ModernTool.version tool))
    (addError ["version"] "Version is required" MISSING_REQUIRED) this in
  let this := when (negb (bool_decide (is_Some (ModernTool.documentation tool))))
    (addError ["documentation"] "Documentation is required" MISSING_REQUIRED) this in
  let this := when (negb (bool_decide (is_Some (ModernTool.errors tool))))
    (addError ["errors"] "Error configuration is required" MISSING_REQUIRED) this in
  when (negb (bool_decide (is_Some (ModernTool.execution tool))))
    (addError ["execution"] "Execution configuration is required" MISSING_REQUIRED)
    this.

(** [validateDocumentation(docs)]. *)
Definition validateDocumentation (docs : Documentation.t) (this : ToolValidator)
    : ToolValidator :=
  let this :=
    if no_string (Documentation.description docs) then
      addError ["documentation"; "description"] "Description is required"
        MISSING_REQUIRED this
    else if (string_length (default "" (Documentation.description docs)) <? 50)%nat then
      addWarning ["documentation"; "description"]
        "Description should be detailed (50+ characters)" BEST_PRACTICE this
    else this in
  let this := when (no_items (Documentation.examples docs))
    (addWarning ["documentation"; "examples"] "Examples are recommended"
       MISSING_RECOMMENDED) this in
  let this := when (no_items (Documentation.limitations docs))
    (addWarning ["documentation"; "limitations"]
       "Documenting limitations is recommended" MISSING_RECOMMENDED) this in
  (* Cost implications *)
  match Documentation.costImplications docs with
  | Some cost =>
      when (negb (is_number (CostInfo.estimatedCostPerCall cost)))
        (addError ["documentation"; "costImplications"; "estimatedCostPerCall"]
           "Cost per call must be a number" INVALID_TYPE) this
  | None =>
      addWarning ["documentation"; "costImplications"]
        "Cost implications are recommended" MISSING_RECOMMENDED this
  end.

(** [validateErrorHandling(errorConfig)]. *)
Definition validateErrorHandling (errorConfig : ErrorConfig.t)
    (this : ToolValidator) : ToolValidator :=
  let this := when (no_items (ErrorConfig.possibleErrors errorConfig))
    (addError ["errors"; "possibleErrors"]
       "At least one possible error must be defined" MISSING_REQUIRED) this in
  let this := forEach (ErrorConfig.possibleErrors errorConfig)
    (fun error index this =>
       let this := when (no_string (ErrorType.code error))
         (addError ["errors"; "possibleErrors"; pretty index; "code"]
            "Error code is required" MISSING_REQUIRED) this in
       let this := when (no_string (ErrorType.description error))
         (addError ["errors"; "possibleErrors"; pretty index; "description"]
            "Error description is required" MISSING_REQUIRED) this in
       let this := when (negb (is_boolean (ErrorType.isRetryable error)))
         (addError ["errors"; "possibleErrors"; pretty index; "isRetryable"]
            "isRetryable must be a boolean" INVALID_TYPE) this in
       when (no_string (ErrorType.suggestedUserMessage error))
         (addWarning ["errors"; "possibleErrors"; pretty index; "suggestedUserMessage"]
            "User message is recommended" MISSING_RECOMMENDED) this)
    this in
  (* Validate retry strategies *)
  when (existsb (fun e => truthy (ErrorType.isRetryable e))
          (default [] (ErrorConfig.possibleErrors errorConfig))
        && no_items (ErrorConfig.retryStrategies errorConfig))
    (addError ["errors"; "retryStrategies"]
       "Retry strategies required when retryable errors exist" INCONSISTENT_STATE)
    this.

(** [validateExecution(execution)]. *)
Definition validateExecution (execution : ExecutionConfig.t)
    (this : ToolValidator) : ToolValidator :=
  let this := when (negb (is_boolean (ExecutionConfig.canBeCancelled execution)))
    (addError ["execution"; "canBeCancelled"] "canBeCancelled must be a boolean"
       INVALID_TYPE) this in
  let this := when (negb (is_boolean (ExecutionConfig.supportsProgress execution)))
    (addError ["execution"; "supportsProgress"] "supportsProgress must be a boolean"
       INVALID_TYPE) this in
  let this :=
    match ExecutionConfig.estimatedDuration execution with
    | Some d =>
        when (ge_number (number_of (Duration.min d)) (number_of (Duration.max d)))
          (addError ["execution"; "estimatedDuration"]
             "Duration min must be less than max" INVALID_VALUE) this
    | None => this
    end in
  match ExecutionConfig.parallelExecutionLimit execution with
  | Some limit =>
      when (le_number limit 0)
        (addError ["execution"; "parallelExecutionLimit"]
           "Parallel execution limit must be positive" INVALID_VALUE) this
  | None => this
  end.

(** [validateState(state)]. *)
Definition validateState (state : StateConfig.t) (this : ToolValidator)
    : ToolValidator :=
  let this := when (negb (is_boolean (StateConfig.persistsBetweenCalls state)))
    (addError ["state"; "persistsBetweenCalls"]
       "persistsBetweenCalls must be a boolean" INVALID_TYPE) this in
  (* If state persists, we should have some context *)
  let this := when (truthy (StateConfig.persistsBetweenCalls state)
                    && no_items (StateConfig.requiredContext state))
    (addWarning ["state"; "requiredContext"]
       "Persisting state should specify required context" BEST_PRACTICE) this in
  (* Validate side effects *)
  forEach (StateConfig.sideEffects state)
    (fun effect index this =>
       let this := when (no_string (SideEffect.description effect))
         (addError ["state"; "sideEffects"; pretty index; "description"]
            "Side effect description is required" MISSING_REQUIRED) this in
       when (negb (is_boolean (SideEffect.isReversible effect)))
         (addError ["state"; "sideEffects"; pretty index; "isReversible"]
            "isReversible must be a boolean" INVALID_TYPE) this)
    this.

(** A step that runs only when a section of the tool is there. *)
Definition if_present {A} (x : option A)
    (step : A -> ToolValidator -> ToolValidator) (this : ToolValidator)
    : ToolValidator :=
  match x with
  | Some a => step a this
  | None => this
  end.

(** [validate(tool)]: the result and the validator afterwards. *)
Definition validate (tool : ModernTool.t) (this : ToolValidator)
    : ValidationResult.t * ToolValidator :=
  let this := {| errors := []; warnings := [] |} in
  (* Basic required fields *)
  let this := validateRequired tool this in
  (* Documentation *)
  let this := if_present (ModernTool.documentation tool) validateDocumentation this in
  (* Error handling *)
  let this := if_present (ModernTool.errors tool) validateErrorHandling this in
  (* Execution config *)
  let this := if_present (ModernTool.execution tool) validateExecution this in
  (* State management *)
  let this := if_present (ModernTool.state tool) validateState this in
  ({| ValidationResult.isValid := (length (errors this) =? 0)%nat;
      ValidationResult.errors := errors this;
      ValidationResult.warnings := warnings this |}, this).

(** [validateTool(tool)]: a new validator for each call. *)
Definition validateTool (tool : ModernTool.t) : ValidationResult.t :=
  fst (validate tool {| errors := []; warnings := [] |}).

(** What makes each section of a tool free of errors. *)
Definition sound_documentation (docs : Documentation.t) : Prop :=
  (exists d, Documentation.description docs = Some d /\ d <> "")
  /\ forall cost, Documentation.costImplications docs = Some cost ->
       is_number (CostInfo.estimatedCostPerCall cost) = true.

Definition sound_error (e : ErrorType.t) : Prop :=
  (exists c, ErrorType.code e = Some c /\ c <> "")
  /\ (exists d, ErrorType.description e = Some d /\ d <> "")
  /\ is_boolean (ErrorType.isRetryable e) = true.

Definition sound_errors (c : ErrorConfig.t) : Prop :=
  exists l, ErrorConfig.possibleErrors c = Some l
    /\ l <> []
    /\ Forall sound_error l
    /\ (Exists (fun e => truthy (ErrorType.isRetryable e) = true) l ->
        exists r, ErrorConfig.retryStrategies c = Some r /\ r <> []).

(** [a] is below [b], or one of the two is missing or [NaN] and so cannot
    be compared. *)
Definition below (a b : option number) : Prop :=
  number_of a = NaN \/ number_of b = NaN
  \/ lt_number (number_of a) (number_of b) = true.

Definition sound_execution (x : ExecutionConfig.t) : Prop :=
  is_boolean (ExecutionConfig.canBeCancelled x) = true
  /\ is_boolean (ExecutionConfig.supportsProgress x) = true
  /\ (forall d, ExecutionConfig.estimatedDuration x = Some d ->
        below (Duration.min d) (Duration.max d))
  /\ (forall n, ExecutionConfig.parallelExecutionLimit x = Some n ->
        n = NaN \/ lt_number 0 n = true).

Definition sound_effect (e : SideEffect.t) : Prop :=
  (exists d, SideEffect.description e = Some d /\ d <> "")
  /\ is_boolean (SideEffect.isReversible e) = true.

Definition sound_state (st : StateConfig.t) : Prop :=
  is_boolean (StateConfig.persistsBetweenCalls st) = true
  /\ forall l, StateConfig.sideEffects st = Some l -> Forall sound_effect l.

Definition sound_tool (tool : ModernTool.t) : Prop :=
  (exists v, ModernTool.version tool = Some v /\ v <> "")
  /\ (exists docs, ModernTool.documentation tool = Some docs
                   /\ sound_documentation docs)
  /\ (exists c, ModernTool.errors tool = Some c /\ sound_errors c)
  /\ (exists x, ModernTool.execution tool = Some x /\ sound_execution x)
  /\ (forall st, ModernTool.state tool = Some st -> sound_state st).

(** The validator [v'] holds the errors of [v] and possibly more. *)
Definition extends (v v' : ToolValidator) : Prop :=
  exists es, errors v' = errors v ++ es.

(** A validator that holds no error. *)
Definition clean (v : ToolValidator) : Prop := errors v = [].

End Validation.

(** ** [docs/RATE_LIMITING.md]: dropping cursor events *)

Module RateLimiting.
Import Js.

(** [const RATE_LIMIT_MS = 1000; // 1 event per second] *)
Definition RATE_LIMIT_MS : Z := 1000.

(** [lastEventTime], and what has been passed to
    [eventBus.emit('cursor.move', ...)], oldest first, each event with the
    clock reading of the call that emitted it. *)
Record State := {
  lastEventTime : Z;
  emitted : list (Z * Object);
}.

(** [let lastEventTime = 0;] with nothing emitted yet. *)
Definition initial : State := {| lastEventTime := 0; emitted := [] |}.

(** [emitCursorEvent(event)]; [now] is what [Date.now()] returns. *)
Definition emitCursorEvent (now : Z) (event : Object) (st : State) : State :=
  if now - lastEventTime st <? RATE_LIMIT_MS then
    st (* Drop the event *)
  else
    {| lastEventTime := now; emitted := emitted st ++ [(now, event)] |}.

(** A series of calls, each with its clock reading. *)
Definition run (calls : list (Z * Object)) (st : State) : State :=
  fold_left (fun st c => emitCursorEvent (fst c) (snd c) st) calls st.

(** Times that are at least [RATE_LIMIT_MS] apart, the first one at least
    [RATE_LIMIT_MS] after [from]. *)
Fixpoint spaced (from : Z) (times : list Z) : Prop :=
  match times with
  | [] => True
  | t :: times' => RATE_LIMIT_MS <= t - from /\ spaced t times'
  end.

End RateLimiting.

(** ** The event bus of the dashboard, in its version without a queue

    A handler is a function value, compared by identity when it is
    unsubscribed.  A function passed in by a caller is named by a number;
    the closure that [once] creates around a handler is a function of its
    own, named by a serial number drawn when [once] is called.  Calling a
    handler is recorded in a log; a handler returns or throws; handlers do
    not call the bus themselves. *)

Module EventBus.
Import Js.

Record Event := {
  id : string;
  timestamp : Z;
  source : string;
  type : string;
  payload : Object;
}.

Inductive Handler :=
  | plain (f : nat)
  | one_shot (serial : nat) (f : nat).

#[global] Instance Handler_eq_dec : EqDecision Handler.
Proof. solve_decision. Defined.

(** The caller's function that a handler ends up calling. *)
Definition callee (h : Handler) : nat :=
  match h with
  | plain f => f
  | one_shot _ f => f
  end.

Definition is_plain (h : Handler) : bool :=
  match h with
  | plain _ => true
  | one_shot _ _ => false
  end.

(** [SimpleEventBus]: the own properties of its object [handlers], and the
    next serial number. *)
Record SimpleEventBus := {
  handlers : gmap string (list Handler);
  next_serial : nat;
}.

(** [new SimpleEventBus()]. *)
Definition create : SimpleEventBus := {| handlers := ∅; next_serial := 0 |}.

(** The names of the members that the object [handlers], made by [{}],
    inherits from [Object.prototype].  Under such a name
    [this.handlers[type]] is a function (for [__proto__], the prototype
    itself): it is not [undefined], so [on] never replaces it, and it is
    not an array. *)
Definition inherited (type : string) : bool :=
  bool_decide (type ∈ [ "constructor"; "hasOwnProperty"; "isPrototypeOf";
                        "propertyIsEnumerable"; "toLocaleString"; "toString";
                        "valueOf"; "__proto__"; "__defineGetter__";
                        "__defineSetter__"; "__lookupGetter__";
                        "__lookupSetter__" ]).

(** What the callers' functions do: [fs log f event] is [None] when the
    call of the function [f] with [event], made after the calls of [log],
    returns, and the exception when it throws. *)
Definition Functions : Type := list (nat * Event) -> nat -> Event -> option Exception.

(** The bus together with the callers' functions and the log of the calls
    made to them. *)
Record World := {
  bus : SimpleEventBus;
  calls : list (nat * Event);
  functions : Functions;
}.

(** The function [on] returns:
    [this.handlers[type] = this.handlers[type].filter(h => h !== handler)]. *)
Definition unsubscribe (type : string) (handler : Handler)
    (this : SimpleEventBus) : SimpleEventBus :=
  {| handlers := alter (filter (fun h => h <> handler)) type (handlers this);
     next_serial := next_serial this |}.

(** The body of [on] when [this.handlers[type]] is [undefined] or an
    array: the array is created if need be and the handler pushed. *)
Definition register (type : string) (handler : Handler) (this : SimpleEventBus)
    : SimpleEventBus :=
  {| handlers :=
       <[type := default [] (handlers this !! type) ++ [handler]]> (handlers this);
     next_serial := next_serial this |}.

(** [on(type, handler)]: under an inherited name
    [this.handlers[type].push] is not a function and the call throws a
    [TypeError]. *)
Definition on (type : string) (handler : Handler) (this : SimpleEventBus)
    : Exception + SimpleEventBus :=
  if inherited type then inl TypeError else inr (register type handler this).

(** [once(type, handler)]: the bus afterwards, and the closure that was
    registered, which is what the returned function unsubscribes. *)
Definition once (type : string) (f : nat) (this : SimpleEventBus)
    : Exception + SimpleEventBus * Handler :=
  let wrapper := one_shot (next_serial this) f in
  match on type wrapper
          {| handlers := handlers this; next_serial := S (next_serial this) |} with
  | inl e => inl e
  | inr this' => inr (this', wrapper)
  end.

(** Calling one handler with an event during [emit]: the caller's
    function is called; when it returns, a closure made by [once] then
    unsubscribes itself.  The result is the exception thrown, if any. *)
Definition call (type : string) (event : Event) (h : Handler) (w : World)
    : option Exception * World :=
  let thrown := functions w (calls w) (callee h) event in
  let log := calls w ++ [(callee h, event)] in
  match thrown, h with
  | None, one_shot _ _ =>
      (None, {| bus := unsubscribe type h (bus w); calls := log;
                functions := functions w |})
  | _, _ => (thrown, {| bus := bus w; calls := log; functions := functions w |})
  end.

(** [handlers.forEach(handler => handler(event))]: the first exception
    ends the loop. *)
Fixpoint forEach (type : string) (event : Event) (hs : list Handler) (w : World)
    : option Exception * World :=
  match hs with
  | [] => (None, w)
  | h :: hs' =>
      match call type event h w with
      | (None, w') => forEach type event hs' w'
      | (Some e, w') => (Some e, w')
      end
  end.

(** [emit(type, payload)]; [random_id] and [now] are what
    [Math.random().toString(36).substr(2, 9)] and [Date.now()] give.  The
    array read from [this.handlers[type]] at the start is the one
    iterated; under an inherited name what is read has no [forEach] and the
    call throws a [TypeError].  The result is the exception thrown, if
    any. *)
Definition emit (type : string) (payload : Object) (random_id : string) (now : Z)
    (w : World) : option Exception * World :=
  let event := {| id := random_id; timestamp := now; source := "tool";
                  type := type; payload := payload |} in
  if inherited type then (Some TypeError, w)
  else
    let handlers := default [] (handlers (bus w) !! type) in
    forEach type event handlers w.

(** The buses that calls of the methods build from a new one; callers
    register their own functions. *)
Inductive reachable : SimpleEventBus -> Prop :=
  | reachable_create : reachable create
  | reachable_on type f this this' :
      reachable this -> on type (plain f) this = inr this' -> reachable this'
  | reachable_once type f this this' wrapper :
      reachable this -> once type f this = inr (this', wrapper) -> reachable this'
  | reachable_unsubscribe type h this :
      reachable this -> reachable (unsubscribe type h this)
  | reachable_emit type payload random_id now w :
      reachable (bus w) -> reachable (bus (snd (emit type payload random_id now w))).

End EventBus.

(** ** [examples/dashboard/src/context/EventBusContext.tsx]: the bus with
    an event queue *)

Module QueuedEventBus.
Import Js EventBus.

(** [private readonly MAX_QUEUE_SIZE = 100] *)
Definition MAX_QUEUE_SIZE : nat := 100.

(** The bus of this file: the handlers and the call log as before, and
    the [eventQueue], oldest entry first. *)
Record QueuedBus := {
  world : World;
  eventQueue : list (string * Event);
}.

(** [emit(type, payload)] of this file; when the processing of the event
    throws, the bus is left as it then is. *)
Definition emit_queued (type : string) (payload : Object) (random_id : string)
    (now : Z) (this : QueuedBus) : QueuedBus :=
  let event := {| id := random_id; timestamp := now; source := "tool";
                  EventBus.type := type; payload := payload |} in
  (* Add to queue, drop oldest if full *)
  let queue := eventQueue this ++ [(type, event)] in
  let queue := if (MAX_QUEUE_SIZE <? length queue)%nat then tail queue else queue in
  (* Process the event *)
  {| world := snd (emit type payload random_id now (world this));
     eventQueue := queue |}.

(** The arguments of one call of [emit], with what [Math.random] and
    [Date.now] give during it. *)
Record Emission := {
  e_type : string;
  e_payload : Object;
  e_id : string;
  e_now : Z;
}.

(** The queue entry [{ type, event }] of a call of [emit]. *)
Definition entry (e : Emission) : string * Event :=
  (e_type e, {| id := e_id e; timestamp := e_now e; source := "tool";
                EventBus.type := e_type e; payload := e_payload e |}).

(** A series of calls of [emit]. *)
Definition emit_all (es : list Emission) (this : QueuedBus) : QueuedBus :=
  fold_left (fun this e => emit_queued (e_type e) (e_payload e) (e_id e) (e_now e) this)
    es this.

End QueuedEventBus.

(** ** Callers of the integer stream and of the stream controller *)

Module Client.
Import Js.

(** One call a client of [src/tools/int-stream.ts] can make:
    [getCurrentValue.execute(arg)] or [incrementValue.execute(arg)]. *)
Inductive Call :=
  | get_current_value (arg : option Object)
  | increment_value (arg : option Object).

Definition invoke (c : Call) : Async IntStream.State IntStream.IntFrame :=
  match c with
  | get_current_value arg => Compiler.execute IntStream.getCurrentValue arg
  | increment_value arg => Compiler.execute IntStream.incrementValue arg
  end.

(** Whether a call, given what it settled to, is a committed mutation. *)
Definition committed (c : Call) (p : Promise IntStream.IntFrame) : bool :=
  match c, p with
  | increment_value _, Fulfilled _ => true
  | _, _ => false
  end.

(** The number of committed mutations among calls and their outcomes. *)
Fixpoint commits (cs : list Call) (ps : list (Promise IntStream.IntFrame)) : nat :=
  match cs, ps with
  | c :: cs', p :: ps' => (if committed c p then 1 else 0) + commits cs' ps'
  | _, _ => 0
  end.

(** [try { controller.transition(newState) } catch { }]: the controller
    after an attempted transition, accepted or not. *)
Definition attempt (newState : Streaming.StreamState)
    (c : Streaming.StreamController) : Streaming.StreamController :=
  snd (Streaming.transition newState c).

(** A series of attempted transitions, in order. *)
Definition attempts (ts : list Streaming.StreamState)
    (c : Streaming.StreamController) : Streaming.StreamController :=
  fold_left (fun c t => attempt t c) ts c.

(** [new StreamController()]. *)
Definition fresh : Streaming.StreamController :=
  {| Streaming.state := Streaming.initial; Streaming.emitted := [] |}.

(** The state a log of emitted states ends in, [start] when it is empty. *)
Definition ends_in (start : Streaming.StreamState)
    (log : list Streaming.StreamState) : Streaming.StreamState :=
  default start (last log).

(** The states a controller has been in, oldest first, given the state it
    started in and what it emitted. *)
Fixpoint chain (from : Streaming.StreamState) (log : list Streaming.StreamState) : Prop :=
  match log with
  | [] => True
  | to :: log' => Streaming.allowed from to /\ chain to log'
  end.

End Client.

(** * Properties *)

(** ** JavaScript values *)

Module JsFacts.
Import Js.

(** Within the safe integers, rounding changes nothing. *)
Lemma round_safe (m : Z) : Z.abs m < 2 ^ 53 -> round m 0 = Int m.
Proof.
  intros Hm. unfold round.
  destruct (m =? 0) eqn:H0; [by apply Z.eqb_eq in H0 as ->|].
  apply Z.eqb_neq in H0.
  assert (Z.log2 (Z.abs m) < 53) by (apply Z.log2_lt_pow2; lia).
  destruct (_ <=? 0) eqn:Hq; [|apply Z.leb_gt in Hq; lia].
  unfold dyadic. rewrite Z.pow_0_r, Z.gcd_1_r. simpl. by rewrite Z.div_1_r.
Qed.

(** The sum of two integers is exact when it is a safe integer. *)
Lemma add_number_safe (a b : Z) :
  Z.abs (a + b) < 2 ^ 53 -> add_number a b = Int (a + b).
Proof.
  intros H. unfold add_number. simpl exact. cbv zeta iota beta.
  rewrite Z.max_id, Z.sub_diag, Z.pow_0_r, !Z.mul_1_r. by apply round_safe.
Qed.

(** At [2^53] addition starts to round: to the even neighbour on a tie. *)
Example add_number_rounds :
  add_number (2 ^ 53) 1 = Int (2 ^ 53)
  /\ add_number (2 ^ 53) 3 = Int (2 ^ 53 + 4)
  /\ add_number (2 ^ 53) (Fraction 0 1) = Int (2 ^ 53)
  /\ add_number (Fraction 0 1) (Fraction 0 2) = Fraction 1 2
  /\ add_number (Fraction 0 1) (Fraction 0 1) = Int 1
  /\ add_number (2 ^ 1024 - 2 ^ 971) (2 ^ 970) = Infinity false.
Proof. vm_compute. done. Qed.

(** Which numbers are doubles: the integers up to [2^53] and beyond them
    only those with 53 significant bits; fractions down to [2^-1074]. *)
Example is_double_examples :
  is_double (2 ^ 53) = true
  /\ is_double (2 ^ 53 + 1) = false
  /\ is_double (2 ^ 53 + 2) = true
  /\ is_double (Fraction 1801439850948198 55) = true
  /\ is_double (Fraction 0 1074) = true
  /\ is_double (Fraction 0 1075) = false.
Proof. vm_compute. done. Qed.

(** [0.1 + 0.2] is [0.30000000000000004]; [0.1] is
    [3602879701896397 / 2^55] and [0.2] twice that. *)
Example tenth_plus_fifth :
  number_to_string (Fraction 1801439850948198 55) = "0.1"
  /\ number_to_string (Fraction 1801439850948198 54) = "0.2"
  /\ number_to_string
       (add_number (Fraction 1801439850948198 55) (Fraction 1801439850948198 54))
     = "0.30000000000000004".
Proof. vm_compute. done. Qed.

(** The exponent notation starts at [1e21] and at [1e-7]. *)
Example number_to_string_layouts :
  number_to_string (10 ^ 20) = "100000000000000000000"
  /\ number_to_string (10 ^ 21) = "1e+21"
  /\ number_to_string (2 ^ 60) = "1152921504606847000"
  /\ number_to_string (Fraction 0 20) = "9.5367431640625e-7"
  /\ number_to_string (Fraction (-2) 1) = "-1.5"
  /\ number_to_string (Fraction 0 1074) = "5e-324".
Proof. vm_compute. done. Qed.

Lemma to_string_safe (n : Z) :
  Z.abs n < 2 ^ 53 -> to_string (VNumber n) = pretty n.
Proof.
  intros H. unfold to_string, number_to_string.
  by apply Z.ltb_lt in H as ->.
Qed.

(** [x >= y] fails exactly when [x < y] or one of the two is [NaN]. *)
Lemma ge_number_false (x y : number) :
  ge_number x y = false <-> x = NaN \/ y = NaN \/ lt_number x y = true.
Proof.
  unfold ge_number, lt_number.
  destruct (compare_number x y) as [[| |]|] eqn:H; split; try done; auto.
  - intros [-> | [-> | ?] ]; first [done | by destruct y | by destruct x].
  - intros [-> | [-> | ?] ]; first [done | by destruct y | by destruct x].
  - intros _. destruct x as [n|m e|[|]|], y as [n'|m' e'|[|]|]; try done; auto.
Qed.

Lemma compare_number_antisym (x y : number) :
  compare_number y x = CompOpp <$> compare_number x y.
Proof.
  destruct x as [n|m e|[|]|], y as [n'|m' e'|[|]|]; try done;
    unfold compare_number, exact; cbv beta iota; simpl fmap; f_equal;
    apply Z.compare_antisym.
Qed.

(** [x <= y] fails exactly when [y < x] or one of the two is [NaN]. *)
Lemma le_number_false (x y : number) :
  le_number x y = false <-> x = NaN \/ y = NaN \/ lt_number y x = true.
Proof.
  unfold le_number, lt_number. rewrite (compare_number_antisym x y).
  destruct (compare_number x y) as [[| |]|] eqn:H; simpl; split; try done; auto.
  - intros [-> | [-> | ?] ]; first [done | by destruct y | by destruct x].
  - intros [-> | [-> | ?] ]; first [done | by destruct y | by destruct x].
  - intros _. destruct x as [n|m e|[|]|], y as [n'|m' e'|[|]|]; try done; auto.
Qed.

Lemma strict_eq_number (x : Value) (n : Z) :
  strict_eq x (VNumber n) = true <-> x = VNumber n.
Proof.
  destruct x as [|[]| |]; simpl; rewrite ?bool_decide_eq_true; split; congruence.
Qed.

Lemma strict_neq_number (x : Value) (n : Z) :
  strict_neq x (VNumber n) = true <-> x <> VNumber n.
Proof.
  unfold strict_neq. rewrite negb_true_iff, <- not_true_iff_false.
  by rewrite strict_eq_number.
Qed.

(** [===] never relates two values that are not the same value. *)
Lemma strict_eq_eq (x y : Value) : strict_eq x y = true -> x = y.
Proof.
  destruct x as [|[]| |], y as [|[]| |]; simpl; intros H;
    try discriminate H; try reflexivity; by apply bool_decide_eq_true in H.
Qed.

Lemma add_numbers (a b : Z) :
  Z.abs (a + b) < 2 ^ 53 -> add (VNumber a) (VNumber b) = VNumber (a + b).
Proof.
  intros H. change (add (VNumber a) (VNumber b)) with (VNumber (add_number a b)).
  by rewrite add_number_safe.
Qed.

Lemma all_length {A} (ps : list (Promise A)) (l : list A) :
  all ps = Fulfilled l -> length l = length ps.
Proof.
  revert l. induction ps as [|[a|e] ps IH]; intros l; simpl.
  - by intros [= <-].
  - destruct (all ps) as [l'|e]; [|discriminate].
    intros [= <-]. simpl. by rewrite (IH l').
  - discriminate.
Qed.

Lemma calls_length {W A} (cs : list (Async W A)) (w : W) :
  length (fst (calls cs w)) = length cs.
Proof.
  revert w. induction cs as [|c cs IH]; intros w; simpl; [done|].
  destruct (c w) as [p w1]. specialize (IH w1).
  destruct (calls cs w1) as [ps w2]. simpl in *. by rewrite IH.
Qed.

End JsFacts.

(** ** The integer stream *)

Module IntStreamFacts.
Import Js IntStream JsFacts.

(** Unfolding the [async] bodies down to the state-passing functions. *)
Ltac run_async :=
  unfold getCurrentValue_execute, incrementValue_execute, destructure,
    bind, read, write, ret, throw; simpl.

(** Below [2^53], [+= 1] moves the sequence by exactly 1. *)
Lemma plus_one_safe (s : Z) : Z.abs (s + 1) < 2 ^ 53 -> plus_one s = s + 1.
Proof. intros H. unfold plus_one. by rewrite add_number_safe. Qed.

Lemma getCurrentValue_current (st : State) (o : Object) :
  get o "basedOnSequence" = VNumber (currentSequence st) ->
  getCurrentValue_execute (Some o) st =
    (Fulfilled {| sequence := currentSequence st;
                  type := Types.full;
                  content := "Value is " +:+ to_string (currentValue st);
                  baseSequence := None;
                  value := currentValue st |}, st).
Proof.
  intros Hb. run_async.
  apply strict_eq_number in Hb. unfold strict_neq. by rewrite Hb.
Qed.

Lemma getCurrentValue_stale (st : State) (o : Object) :
  get o "basedOnSequence" <> VNumber (currentSequence st) ->
  getCurrentValue_execute (Some o) st =
    (Rejected (Error "Invalid sequence number"), st).
Proof.
  intros Hb. run_async.
  apply strict_neq_number in Hb. by rewrite Hb.
Qed.

Lemma incrementValue_current (st : State) (o : Object) :
  get o "basedOnSequence" = VNumber (currentSequence st) ->
  incrementValue_execute (Some o) st =
    (Fulfilled {| sequence := plus_one (currentSequence st);
                  type := Types.full;
                  content := "Value is now "
                               +:+ to_string (add (currentValue st) (get o "amount"));
                  baseSequence := None;
                  value := add (currentValue st) (get o "amount") |},
     {| currentValue := add (currentValue st) (get o "amount");
        currentSequence := plus_one (currentSequence st) |}).
Proof.
  intros Hb. run_async.
  apply strict_eq_number in Hb. unfold strict_neq. by rewrite Hb.
Qed.

Lemma incrementValue_stale (st : State) (o : Object) :
  get o "basedOnSequence" <> VNumber (currentSequence st) ->
  incrementValue_execute (Some o) st =
    (Rejected (Error "Invalid sequence number"), st).
Proof.
  intros Hb. run_async.
  apply strict_neq_number in Hb. by rewrite Hb.
Qed.

(** Every call of [incrementValue], whatever its argument: either it is
    rejected and the state is the one before the call, or it returns a
    frame and [+= 1] has been applied to the sequence once, giving the
    sequence of that frame. *)
Lemma incrementValue_outcome (arg : option Object) (st : State) :
  match incrementValue_execute arg st with
  | (Rejected _, st') => st' = st
  | (Fulfilled f, st') =>
      currentSequence st' = plus_one (currentSequence st)
      /\ sequence f = currentSequence st'
      /\ value f = currentValue st'
  end.
Proof.
  destruct arg as [o|]; [|done].
  destruct (decide (get o "basedOnSequence" = VNumber (currentSequence st)))
    as [Heq|Hne].
  - by rewrite (incrementValue_current st o Heq).
  - by rewrite (incrementValue_stale st o Hne).
Qed.

(** Every call of [getCurrentValue] leaves the state as it was. *)
Lemma getCurrentValue_pure (arg : option Object) (st : State) :
  snd (getCurrentValue_execute arg st) = st.
Proof.
  destruct arg as [o|]; [|done].
  destruct (decide (get o "basedOnSequence" = VNumber (currentSequence st)))
    as [Heq|Hne].
  - by rewrite (getCurrentValue_current st o Heq).
  - by rewrite (getCurrentValue_stale st o Hne).
Qed.

(** C1, as amended.  In a state with current sequence [s] and current
    value the number [x], [incrementValue] called with
    [basedOnSequence = s] and the number [y] as [amount] succeeds; the
    frame it returns has the sequence [s + 1] and the value [x + y] of
    number addition, which are also the current sequence and the current
    value afterwards.  As long as the sums are safe integers ([x] and [y]
    integers [v] and [a] with [v + a] and [s + 1] below [2^53] in absolute
    value), number addition is exact: the sequence is [s + 1] and the
    value [v + a], and a successful mutation advances the sequence by
    exactly 1. *)
Theorem incrementValue_commits (st : State) (o : Object) (x y : number) :
  currentValue st = VNumber x ->
  get o "amount" = VNumber y ->
  get o "basedOnSequence" = VNumber (currentSequence st) ->
  incrementValue_execute (Some o) st =
    (Fulfilled {| sequence := plus_one (currentSequence st);
                  type := Types.full;
                  content := "Value is now "
                               +:+ to_string (VNumber (add_number x y));
                  baseSequence := None;
                  value := VNumber (add_number x y) |},
     {| currentValue := VNumber (add_number x y);
        currentSequence := plus_one (currentSequence st) |})
  /\ forall v a : Z,
       x = Int v -> y = Int a ->
       Z.abs (v + a) < 2 ^ 53 ->
       Z.abs (currentSequence st + 1) < 2 ^ 53 ->
       incrementValue_execute (Some o) st =
         (Fulfilled {| sequence := currentSequence st + 1;
                       type := Types.full;
                       content := "Value is now " +:+ pretty (v + a);
                       baseSequence := None;
                       value := VNumber (v + a) |},
          {| currentValue := VNumber (v + a);
             currentSequence := currentSequence st + 1 |}).
Proof.
  intros Hv Ha Hb. rewrite (incrementValue_current st o Hb), Hv, Ha.
  split; [done|]. intros v a -> -> Hva Hs.
  by rewrite add_numbers, to_string_safe, plus_one_safe.
Qed.

(** The first step of the specification's scenario: from sequence 1 and
    value 0, [increment(amount=5, basedOnSequence=1)] gives the frame with
    sequence 2 whose content reflects value 5. *)
Lemma incrementValue_commits_witness :
  incrementValue_execute
    (Some {[ "amount" := VNumber 5; "basedOnSequence" := VNumber 1 ]}) initial =
    (Fulfilled {| sequence := 2; type := Types.full;
                  content := "Value is now 5";
                  baseSequence := None; value := VNumber 5 |},
     {| currentValue := VNumber 5; currentSequence := 2 |}).
Proof.
  destruct (incrementValue_commits initial
              {[ "amount" := VNumber 5; "basedOnSequence" := VNumber 1 ]} 0 5)
    as [_ H]; [reflexivity|reflexivity|reflexivity|].
  apply (H 0 5); [reflexivity|reflexivity|simpl; lia|simpl; lia].
Defined.

(** C1 as first stated fails at [2^53], where the sums are rounded back:
    with current sequence [2^53] and current value [2^53], [incrementValue]
    called with [basedOnSequence = 2^53] and [amount = 1] succeeds, but the
    frame it returns has sequence [2^53], not [2^53 + 1], and value [2^53],
    not [2^53 + 1], and the state after the call is the state before
    it. *)
Lemma incrementValue_at_2_53 :
  let st := {| currentValue := VNumber (2 ^ 53); currentSequence := 2 ^ 53 |} in
  let o : Object :=
    {[ "amount" := VNumber 1; "basedOnSequence" := VNumber (2 ^ 53) ]} in
  incrementValue_execute (Some o) st =
    (Fulfilled {| sequence := 2 ^ 53; type := Types.full;
                  content := "Value is now 9007199254740992";
                  baseSequence := None; value := VNumber (2 ^ 53) |}, st)
  /\ currentSequence (snd (incrementValue_execute (Some o) st))
       <> currentSequence st + 1
  /\ fst (incrementValue_execute (Some o) st) <>
       Fulfilled {| sequence := 2 ^ 53 + 1; type := Types.full;
                    content := "Value is now 9007199254740993";
                    baseSequence := None; value := VNumber (2 ^ 53 + 1) |}.
Proof. vm_compute. repeat split; discriminate. Qed.

(** C2.  In a state with current sequence [s], [incrementValue] called
    with a [basedOnSequence] other than [s] fails with the staleness error
    (the specification's STALE_SEQUENCE, which the code signals by
    [Error('Invalid sequence number')]) and changes nothing: the state
    after the call, current value and current sequence, is the state
    before it. *)
Theorem incrementValue_stale_atomic (st : State) (o : Object) :
  get o "basedOnSequence" <> VNumber (currentSequence st) ->
  incrementValue_execute (Some o) st =
    (Rejected (Error "Invalid sequence number"), st)
  /\ currentValue (snd (incrementValue_execute (Some o) st)) = currentValue st
  /\ currentSequence (snd (incrementValue_execute (Some o) st)) = currentSequence st.
Proof.
  intros Hb. by rewrite (incrementValue_stale st o Hb).
Qed.

(** The second step of the scenario: at sequence 2 and value 5, the stale
    [increment(amount=1, basedOnSequence=1)] is refused and the sequence
    remains 2. *)
Lemma incrementValue_stale_atomic_witness :
  let st := {| currentValue := VNumber 5; currentSequence := 2 |} in
  let o : Object := {[ "amount" := VNumber 1; "basedOnSequence" := VNumber 1 ]} in
  incrementValue_execute (Some o) st =
    (Rejected (Error "Invalid sequence number"), st)
  /\ currentValue (snd (incrementValue_execute (Some o) st)) = VNumber 5
  /\ currentSequence (snd (incrementValue_execute (Some o) st)) = 2.
Proof.
  apply (incrementValue_stale_atomic
           {| currentValue := VNumber 5; currentSequence := 2 |}
           {[ "amount" := VNumber 1; "basedOnSequence" := VNumber 1 ]}).
  vm_compute. discriminate.
Defined.

(** C9.  In a state with current sequence [s], [getCurrentValue] called
    with a [basedOnSequence] other than [s] fails with
    [Error('Invalid sequence number')] and returns no frame (nor does it
    change the state): a stale query is refused, not served from an older
    snapshot.  The test is the one [incrementValue] performs: on every
    argument and in every state the two tools are rejected in exactly the
    same cases, with the same exception. *)
Theorem getCurrentValue_stale_rejected (st : State) (o : Object) :
  get o "basedOnSequence" <> VNumber (currentSequence st) ->
  getCurrentValue_execute (Some o) st =
    (Rejected (Error "Invalid sequence number"), st)
  /\ (forall arg st' e,
        fst (getCurrentValue_execute arg st') = Rejected e <->
        fst (incrementValue_execute arg st') = Rejected e).
Proof.
  intros Hb. split; [by apply getCurrentValue_stale|].
  intros [o'|] st' e; [|done].
  destruct (decide (get o' "basedOnSequence" = VNumber (currentSequence st')))
    as [Heq|Hne].
  - by rewrite (getCurrentValue_current st' o' Heq),
      (incrementValue_current st' o' Heq).
  - by rewrite (getCurrentValue_stale st' o' Hne),
      (incrementValue_stale st' o' Hne).
Qed.

Lemma getCurrentValue_stale_rejected_witness :
  getCurrentValue_execute (Some {[ "basedOnSequence" := VNumber 7 ]}) initial =
    (Rejected (Error "Invalid sequence number"), initial)
  /\ (forall arg st' e,
        fst (getCurrentValue_execute arg st') = Rejected e <->
        fst (incrementValue_execute arg st') = Rejected e).
Proof.
  apply (getCurrentValue_stale_rejected initial {[ "basedOnSequence" := VNumber 7 ]}).
  vm_compute. discriminate.
Defined.

End IntStreamFacts.

(** ** [parallel] *)

Module ParallelFacts.
Import Js Compiler JsFacts.

Section Batch.
Context {W Out : Type}.
Implicit Types (tools : list (ToolDefinition W Out)) (inputs : list Object).
Implicit Types (w : W) (cs : list (Async W Out)).

Lemma all_queries_true tools :
  forallb (fun t => bool_decide (type t = query)) tools = true <->
  Forall (fun t => type t = query) tools.
Proof.
  rewrite forallb_forall, Forall_forall. setoid_rewrite <- list_elem_of_In.
  by setoid_rewrite bool_decide_eq_true.
Qed.

Lemma mutation_not_all_queries tools t :
  t ∈ tools -> type t = mutation ->
  forallb (fun t => bool_decide (type t = query)) tools = false.
Proof.
  intros Hin Hty. apply not_true_iff_false. rewrite all_queries_true.
  rewrite Forall_forall. intros Hall. specialize (Hall t Hin). congruence.
Qed.

(** When every sequence is [===] to the first one, any two are the same. *)
Lemma same_sequence_all_equal (seqs : list Value) i j x y :
  forallb (fun s => strict_eq s (index seqs 0)) seqs = true ->
  seqs !! i = Some x -> seqs !! j = Some y -> x = y.
Proof.
  rewrite forallb_forall. setoid_rewrite <- list_elem_of_In. intros Hall Hi Hj.
  apply list_elem_of_lookup_2 in Hi, Hj.
  apply Hall, strict_eq_eq in Hi. apply Hall, strict_eq_eq in Hj. congruence.
Qed.

Lemma same_sequence_number inputs (n : Z) :
  Forall (fun o => get o "basedOnSequence" = VNumber n) inputs ->
  forallb (fun s => strict_eq s (index (map (fun i => get i "basedOnSequence") inputs) 0))
    (map (fun i => get i "basedOnSequence") inputs) = true.
Proof.
  intros Hall. destruct inputs as [|o inputs]; [done|].
  apply forallb_forall. intros s Hs. apply list_elem_of_In in Hs.
  apply list_elem_of_fmap in Hs as (o' & -> & Ho').
  rewrite Forall_forall in Hall. unfold index. simpl.
  rewrite (Hall o' Ho'), (Hall o (list_elem_of_here _ _)).
  by apply strict_eq_number.
Qed.

Lemma parallel_accepted tools inputs w :
  accepted tools inputs = true ->
  parallel tools inputs w =
    (all (fst (calls (invocations tools inputs) w)),
     snd (calls (invocations tools inputs) w)).
Proof.
  unfold accepted, parallel, invocations. intros [H1 H2]%andb_true_iff.
  rewrite H1, H2. simpl. by destruct (calls _ w).
Qed.

Lemma calls_cons (c : Async W Out) cs w :
  calls (c :: cs) w =
    (fst (c w) :: fst (calls cs (snd (c w))), snd (calls cs (snd (c w)))).
Proof. simpl. destruct (c w) as [p w1]. simpl. by destruct (calls cs w1). Qed.

Lemma calls_lookup cs w i (c : Async W Out) :
  cs !! i = Some c ->
  fst (calls cs w) !! i = Some (fst (c (snd (calls (take i cs) w)))).
Proof.
  revert w i. induction cs as [|c0 cs IH]; intros w i Hc; [done|].
  rewrite calls_cons. destruct i as [|i]; simpl in *.
  - by injection Hc as ->.
  - rewrite (IH (snd (c0 w)) i Hc). destruct (c0 w) as [p w1]. simpl.
    by destruct (calls (take i cs) w1).
Qed.

(** Calls that all settle to [p] without touching the state. *)
Lemma calls_const cs w (p : Promise Out) :
  Forall (fun c => c w = (p, w)) cs ->
  calls cs w = (replicate (length cs) p, w).
Proof.
  induction 1 as [|c cs Hc _ IH]; [done|]. simpl. by rewrite Hc, IH.
Qed.

Lemma all_replicate (n : nat) (r : Out) :
  all (replicate n (Fulfilled r)) = Fulfilled (replicate n r).
Proof. induction n as [|n IH]; simpl; [done|]. by rewrite IH. Qed.

Lemma all_fulfilled (ps : list (Promise Out)) :
  (forall p, p ∈ ps -> exists r, p = Fulfilled r) ->
  exists rs, all ps = Fulfilled rs /\
    forall i, ps !! i = Fulfilled <$> rs !! i.
Proof.
  induction ps as [|p ps IH]; intros Hall.
  - exists []. by split.
  - destruct (Hall p (list_elem_of_here _ _)) as [r ->].
    destruct IH as (rs & Hrs & Hlk).
    { intros q Hq. apply Hall. by apply list_elem_of_further. }
    exists (r :: rs). simpl. rewrite Hrs. split; [done|].
    intros [|i]; [done|]. apply Hlk.
Qed.

Lemma all_first_rejected (ps : list (Promise Out)) i e :
  ps !! i = Some (Rejected e) ->
  (forall j, (j < i)%nat -> exists r, ps !! j = Some (Fulfilled r)) ->
  all ps = Rejected e.
Proof.
  revert i. induction ps as [|p ps IH]; intros i Hi Hbefore; [done|].
  destruct i as [|i]; simpl in *.
  - by injection Hi as ->.
  - destruct (Hbefore 0%nat) as [r Hr]; [lia|]. injection Hr as ->.
    rewrite (IH i Hi); [done|].
    intros j Hj. apply (Hbefore (S j)). lia.
Qed.

Lemma invocations_lookup tools inputs i :
  invocations tools inputs !! i =
    (fun tool => execute tool (inputs !! i)) <$> tools !! i.
Proof. unfold invocations. apply list_lookup_imap. Qed.

Lemma invocations_length tools inputs :
  length (invocations tools inputs) = length tools.
Proof. unfold invocations. apply length_imap. Qed.

End Batch.

(** Tracing leaves the outcome and the tools' own state as they are, and
    appends to the log the names of the tools called, in call order. *)
Lemma calls_traced {W Out} (tools : list (ToolDefinition W Out))
    (args : nat -> option Object) (w : W) (log : list string) :
  calls (imap (fun i t => execute (traced t) (args i)) tools) (w, log) =
    (fst (calls (imap (fun i t => execute t (args i)) tools) w),
     (snd (calls (imap (fun i t => execute t (args i)) tools) w),
      log ++ map name tools)).
Proof.
  revert args w log. induction tools as [|t tools IH]; intros args w log.
  - simpl. by rewrite app_nil_r.
  - rewrite !imap_cons, !calls_cons. simpl.
    destruct (execute t (args 0%nat) w) as [p w1]. simpl.
    specialize (IH (args ∘ S) w1 (log ++ [name t])). simpl in IH.
    unfold compose in *. rewrite IH. simpl. by rewrite <- app_assoc.
Qed.

Lemma accepted_traced {W Out} (tools : list (ToolDefinition W Out)) inputs :
  accepted (map traced tools) inputs = accepted tools inputs.
Proof.
  unfold accepted. f_equal. induction tools as [|t tools IH]; [done|].
  simpl. by rewrite IH.
Qed.

Lemma parallel_traced_log {W Out} (tools : list (ToolDefinition W Out))
    inputs (w : W) (log : list string) :
  accepted tools inputs = true ->
  parallel (map traced tools) inputs (w, log) =
    (fst (parallel tools inputs w),
     (snd (parallel tools inputs w), log ++ map name tools)).
Proof.
  intros Hacc. rewrite !parallel_accepted by by rewrite ?accepted_traced.
  unfold invocations. rewrite imap_fmap.
  pose proof (calls_traced tools (fun i => inputs !! i) w log) as Hlog.
  unfold compose. simpl in *. by rewrite Hlog.
Qed.

End ParallelFacts.

(** ** [Promise.all] over promises that settle later *)

Module PromiseFacts.
Import Js Compiler JsFacts ParallelFacts.

Lemma map_calls_returns {A} (fs : list (Fate A)) :
  map_calls (map returns fs) = inr fs.
Proof. induction fs as [|f fs IH]; simpl; [done|]. by rewrite IH. Qed.

Lemma map_calls_inr {A} (cs : list (Call A)) (fs : list (Fate A)) :
  map_calls cs = inr fs -> cs = map returns fs.
Proof.
  revert fs. induction cs as [|[e|f] cs IH]; intros fs; simpl.
  - by intros [= <-].
  - discriminate.
  - destruct (map_calls cs) as [e|fs']; [discriminate|].
    intros [= <-]. simpl. by rewrite (IH fs').
Qed.

Lemma fulfilments_no_rejection {A} (fs : list (Fate A)) (rs : list A) :
  fulfilments fs = Some rs -> first_rejection fs = None.
Proof.
  revert rs. induction fs as [|[t [a|e]|] fs IH]; intros rs; simpl; try done.
  destruct (fulfilments fs) as [l|]; [|discriminate]. intros _. by apply (IH l).
Qed.

(** [Promise.all] is fulfilled exactly when every promise is, and then
    with their values in the order of the promises. *)
Lemma promise_all_fulfilled {A} (fs : list (Fate A)) (rs : list A) :
  promise_all fs = Some (Fulfilled rs) <->
  Forall2 (fun f r => exists t, f = settles t (Fulfilled r)) fs rs.
Proof.
  assert (fulfilments fs = Some rs <->
          Forall2 (fun f r => exists t, f = settles t (Fulfilled r)) fs rs) as Hful.
  { revert rs. induction fs as [|[t [a|e]|] fs IH]; intros rs; simpl.
    - split; [intros [= <-]; constructor|]. by intros ->%Forall2_nil_inv_l.
    - split.
      + destruct (fulfilments fs) as [l|]; [|discriminate].
        intros [= <-]. constructor; [by exists t|]. by apply IH.
      + intros (r & rs' & [t' [= <- <-]] & Hrest & ->)%Forall2_cons_inv_l.
        apply IH in Hrest. by rewrite Hrest.
    - split; [discriminate|].
      by intros (r & rs' & [t' [=]] & _)%Forall2_cons_inv_l.
    - split; [discriminate|].
      by intros (r & rs' & [t' [=]] & _)%Forall2_cons_inv_l. }
  rewrite <- Hful. unfold promise_all. split.
  - destruct (first_rejection fs) as [[t e]|]; [discriminate|].
    destruct (fulfilments fs); simpl; [|discriminate]. by intros [= <-].
  - intros H. by rewrite (fulfilments_no_rejection fs rs H), H.
Qed.

Lemma first_rejection_time {A} (k : nat) (ps : list (Promise A)) t e :
  first_rejection (imap (fun i p => settles (k + i) p) ps) = Some (t, e) ->
  (k <= t)%nat.
Proof.
  revert k t e. induction ps as [|[a|e0] ps IH]; intros k t e; simpl; [done| |].
  - rewrite (imap_ext _ (fun i p => settles (S k + i) p)) by (intros; unfold compose; simpl; f_equal; lia).
    intros H. apply IH in H. lia.
  - rewrite (imap_ext _ (fun i p => settles (S k + i) p)) by (intros; unfold compose; simpl; f_equal; lia).
    destruct (first_rejection _) as [[t' e']|] eqn:Hrest.
    + apply IH in Hrest. destruct (t' <? k + 0)%nat; intros [= <- <-]; lia.
    + intros [= <- <-]. lia.
Qed.

(** Promises settled in array order: [Promise.all] is rejected with the
    reason of the first rejected one. *)
Lemma promise_all_in_order {A} (k : nat) (ps : list (Promise A)) :
  promise_all (imap (fun i p => settles (k + i) p) ps) = Some (all ps).
Proof.
  revert k. induction ps as [|[a|e] ps IH]; intros k; [done| |].
  - specialize (IH (S k)). unfold promise_all in *. simpl.
    rewrite (imap_ext _ (fun i p => settles (S k + i) p)) by (intros; unfold compose; simpl; f_equal; lia).
    destruct (first_rejection _) as [[t' e']|].
    + injection IH as <-. done.
    + destruct (fulfilments _) as [l|]; [|discriminate]. simpl in *.
      by injection IH as <-.
  - unfold promise_all. simpl.
    rewrite (imap_ext _ (fun i p => settles (S k + i) p)) by (intros; unfold compose; simpl; f_equal; lia).
    destruct (first_rejection _) as [[t' e']|] eqn:Hrest; [|done].
    apply first_rejection_time in Hrest.
    destruct (t' <? k + 0)%nat eqn:Hlt; [|done].
    apply Nat.ltb_lt in Hlt. lia.
Qed.

(** [Promise.all] is rejected with the reason of the promise rejected
    first in time, not of the one of lowest index. *)
Example promise_all_first_in_time :
  promise_all [ settles 5 (Rejected (Error "slow") : Promise nat);
                settles 1 (Rejected (Error "fast")) ]
  = Some (Rejected (Error "fast")).
Proof. reflexivity. Qed.

(** A call that throws ends [map]: the result is its exception, whatever
    the promises returned before it do. *)
Example map_calls_throw :
  map_calls [ returns (pending : Fate nat); throws (Error "thrown");
              returns (settles 0 (Fulfilled 1%nat)) ]
  = inl (Error "thrown").
Proof. reflexivity. Qed.

(** A batch that passes both validations, whatever its calls do. *)
Lemma parallel_of_accepted {W Out} (tools : list (ToolDefinition W Out))
    (inputs : list Object) (does : nat -> Call Out) :
  accepted tools inputs = true ->
  parallel_of tools inputs does =
    match map_calls (imap (fun i _ => does i) tools) with
    | inl e => Some (Rejected e)
    | inr promises => promise_all promises
    end.
Proof.
  unfold accepted, parallel_of. intros [-> ->]%andb_true_iff. done.
Qed.

(** The model of [parallel] on [async] functions that do not await is the
    case of [parallel_of] in which the promises are settled in array
    order. *)
Lemma parallel_of_settled_calls {W Out} (tools : list (ToolDefinition W Out))
    (inputs : list Object) (w : W) :
  parallel_of tools inputs (settled_calls tools inputs w) =
    Some (fst (parallel tools inputs w)).
Proof.
  unfold parallel_of, parallel.
  destruct (negb (forallb _ tools)); [done|]. cbv zeta.
  destruct (negb (forallb _ (map _ inputs))); [done|].
  fold (invocations tools inputs).
  destruct (calls (invocations tools inputs) w) as [promises w'] eqn:Hcalls.
  simpl.
  assert (imap (fun i (_ : ToolDefinition W Out) => settled_calls tools inputs w i)
            tools =
          map returns (imap (fun i p => settles (0 + i) p) promises)) as ->.
  { apply list_eq. intros i. unfold settled_calls.
    rewrite list_lookup_imap, list_lookup_fmap, list_lookup_imap, Hcalls. simpl.
    pose proof (calls_length (invocations tools inputs) w) as Hlen.
    rewrite Hcalls, invocations_length in Hlen. simpl in Hlen.
    destruct (tools !! i) as [t|] eqn:Ht, (promises !! i) as [p|] eqn:Hp;
      simpl; try done.
    - apply lookup_lt_Some in Ht. apply lookup_ge_None in Hp. lia.
    - apply lookup_ge_None in Ht. apply lookup_lt_Some in Hp. lia. }
  rewrite map_calls_returns. apply promise_all_in_order.
Qed.

End PromiseFacts.

Module BatchClaims.
Import Js Compiler JsFacts ParallelFacts PromiseFacts.

(** C4.  A batch of query tools whose inputs carry two differing
    [basedOnSequence] values is rejected with the batch-sequence error (the
    specification's INCONSISTENT_BATCH_SEQUENCE, which the code signals by
    [Error('All parallel tools must use the same sequence number')]), and
    the state is left as it was, whatever the tools' [execute] functions
    would do; with traced tools the call log is left as it was too: no
    [execute] is entered. *)
Theorem parallel_rejects_differing_sequences {W Out}
    (tools : list (ToolDefinition W Out)) (inputs : list Object) (w : W)
    (i j : nat) (oi oj : Object) :
  Forall (fun t => type t = query) tools ->
  inputs !! i = Some oi ->
  inputs !! j = Some oj ->
  get oi "basedOnSequence" <> get oj "basedOnSequence" ->
  parallel tools inputs w =
    (Rejected (Error "All parallel tools must use the same sequence number"), w)
  /\ forall log,
       parallel (map traced tools) inputs (w, log) =
         (Rejected (Error "All parallel tools must use the same sequence number"),
          (w, log)).
Proof.
  intros Hq Hi Hj Hne.
  assert (forallb (fun s => strict_eq s
             (index (map (fun i => get i "basedOnSequence") inputs) 0))
            (map (fun i => get i "basedOnSequence") inputs) = false) as Hseq.
  { apply not_true_iff_false. intros Hall. apply Hne.
    eapply (same_sequence_all_equal _ i j); [exact Hall| |];
      by rewrite list_lookup_fmap, ?Hi, ?Hj. }
  split; [|intros log]; unfold parallel.
  - apply all_queries_true in Hq. by rewrite Hq, Hseq.
  - assert (Forall (fun t => type t = query) (map (@traced W Out) tools)) as Hq'.
    { rewrite Forall_fmap. eapply Forall_impl; [exact Hq|]. by intros t. }
    apply all_queries_true in Hq'. by rewrite Hq', Hseq.
Qed.

(** C5.  A batch that contains a tool of type ['mutation'] is rejected
    with the mixed-batch error (the specification's MIXED_ACTION_TYPES,
    which the code signals by
    [Error('parallel() can only be used with query tools')]), and the state
    is left as it was, whatever the tools' [execute] functions would do;
    with traced tools the call log is left as it was too: no [execute] is
    entered. *)
Theorem parallel_rejects_mutation {W Out}
    (tools : list (ToolDefinition W Out)) (inputs : list Object) (w : W)
    (t : ToolDefinition W Out) :
  t ∈ tools ->
  type t = mutation ->
  parallel tools inputs w =
    (Rejected (Error "parallel() can only be used with query tools"), w)
  /\ forall log,
       parallel (map traced tools) inputs (w, log) =
         (Rejected (Error "parallel() can only be used with query tools"),
          (w, log)).
Proof.
  intros Hin Hty. split; [|intros log]; unfold parallel.
  - by rewrite (mutation_not_all_queries tools t Hin Hty).
  - rewrite (mutation_not_all_queries (map traced tools) (traced t)); [done| |done].
    by apply list_elem_of_fmap_2.
Qed.

(** C10, as amended.  The empty batch succeeds with the empty list.  For
    a batch that passes both validations, whatever its tools' [execute]
    functions are: [parallel] returns a list exactly when every call
    [tools[i].execute(inputs[i])] succeeds, that is, returns a promise that
    is fulfilled; the list then has exactly one result per tool and its
    [i]-th element is the result of [tools[i].execute(inputs[i])].  When
    one of the calls fails, [parallel] returns no list.  For [async]
    functions that do not await, such as the tools of the integer stream,
    this is the case of [parallel] on the state of the tools: the [i]-th
    result is the one of [tools[i].execute(inputs[i])] in the state the
    calls before it left. *)
Theorem parallel_positional {W Out}
    (tools : list (ToolDefinition W Out)) (inputs : list Object) :
  accepted tools inputs = true ->
  (forall w, parallel ([] : list (ToolDefinition W Out)) [] w = (Fulfilled [], w))
  /\ (forall (does : nat -> Call Out) (rs : list Out),
        parallel_of tools inputs does = Some (Fulfilled rs) <->
        length rs = length tools
        /\ forall i, (i < length tools)%nat ->
             exists t r, does i = returns (settles t (Fulfilled r))
                         /\ rs !! i = Some r)
  /\ (forall w,
        parallel_of tools inputs (settled_calls tools inputs w) =
          Some (fst (parallel tools inputs w)))
  /\ (forall w,
        let promises := fst (calls (invocations tools inputs) w) in
        (forall p, p ∈ promises -> exists r, p = Fulfilled r) ->
        exists rs,
          fst (parallel tools inputs w) = Fulfilled rs
          /\ length rs = length tools
          /\ forall i tool, tools !! i = Some tool ->
               exists r, rs !! i = Some r
                 /\ fst (execute tool (inputs !! i) (state_before tools inputs w i))
                    = Fulfilled r).
Proof.
  intros Hacc. split; [done|]. split; [|split].
  - intros does rs. rewrite (parallel_of_accepted tools inputs does Hacc).
    set (cs := imap (fun i (_ : ToolDefinition W Out) => does i) tools).
    assert (length cs = length tools) as Hcs by apply length_imap.
    assert (forall i, (i < length tools)%nat -> cs !! i = Some (does i)) as Hlk.
    { intros i Hi. unfold cs. rewrite list_lookup_imap.
      destruct (lookup_lt_is_Some_2 tools i Hi) as [t ->]. done. }
    split.
    + destruct (map_calls cs) as [e|fs] eqn:Hmap; [discriminate|].
      apply map_calls_inr in Hmap.
      intros Hall%promise_all_fulfilled.
      pose proof (Forall2_length _ _ _ Hall) as Hlen.
      assert (length fs = length tools) as Hfs.
      { rewrite <- Hcs, Hmap. by rewrite length_fmap. }
      split; [lia|]. intros i Hi.
      destruct (lookup_lt_is_Some_2 fs i ltac:(lia)) as [f Hf].
      destruct (lookup_lt_is_Some_2 rs i ltac:(lia)) as [r Hr].
      destruct (Forall2_lookup_lr _ _ _ _ _ _ Hall Hf Hr) as [t ->].
      exists t, r. split; [|done].
      specialize (Hlk i Hi). rewrite Hmap, list_lookup_fmap, Hf in Hlk.
      by injection Hlk as <-.
    + intros [Hlen Hpos].
      assert (cs = map returns
                (map (fun c => match c with returns f => f | throws _ => pending end) cs))
        as Hret.
      { apply list_eq. intros i. rewrite !list_lookup_fmap.
        destruct (cs !! i) as [c|] eqn:Hc; [|done]. simpl.
        pose proof (lookup_lt_Some _ _ _ Hc) as Hi. rewrite Hcs in Hi.
        rewrite (Hlk i Hi) in Hc. injection Hc as <-.
        by destruct (Hpos i Hi) as (t & r & -> & _). }
      rewrite Hret, map_calls_returns. apply promise_all_fulfilled.
      apply Forall2_same_length_lookup. split; [by rewrite length_fmap; lia|].
      intros i f r. rewrite list_lookup_fmap. intros Hf Hr.
      pose proof (lookup_lt_Some _ _ _ Hr) as Hi. rewrite Hlen in Hi.
      rewrite (Hlk i Hi) in Hf. simpl in Hf. injection Hf as <-.
      destruct (Hpos i Hi) as (t & r' & -> & Hr'). exists t.
      rewrite Hr in Hr'. by injection Hr' as ->.
  - intros w. apply parallel_of_settled_calls.
  - intros w promises Hall.
    assert (forall i tool, tools !! i = Some tool ->
              promises !! i =
                Some (fst (execute tool (inputs !! i) (state_before tools inputs w i))))
      as Hpos.
    { intros i tool Ht. unfold promises, state_before.
      apply calls_lookup. by rewrite invocations_lookup, Ht. }
    destruct (all_fulfilled promises Hall) as (rs & Hrs & Hlk).
    exists rs. rewrite (parallel_accepted tools inputs w Hacc).
    fold promises. simpl. split; [done|].
    assert (length rs = length tools) as Hlen.
    { rewrite (all_length promises rs Hrs). unfold promises.
      by rewrite calls_length, invocations_length. }
    split; [exact Hlen|]. intros i tool Ht.
    specialize (Hpos i tool Ht). rewrite Hlk in Hpos.
    destruct (rs !! i) as [r|] eqn:Hr; [|done].
    exists r. split; [done|]. simpl in Hpos. by injection Hpos as <-.
Qed.

End BatchClaims.

Module IntStreamBatch.
Import Js Compiler IntStream JsFacts ParallelFacts IntStreamFacts.

(** C3.  In a state with current sequence [s], [getCurrentValue] called
    with [basedOnSequence = s], alone or as [N] queries of one [parallel]
    batch whose inputs all carry [basedOnSequence = s], leaves the state
    (current sequence and current value) unchanged, and every query returns
    the frame whose sequence is [s] and whose value is the current value. *)
Theorem queries_never_advance (st : State) (N : nat) (inputs : list Object) :
  length inputs = N ->
  Forall (fun o => get o "basedOnSequence" = VNumber (currentSequence st)) inputs ->
  let frame := {| sequence := currentSequence st;
                  type := Types.full;
                  content := "Value is " +:+ to_string (currentValue st);
                  baseSequence := None;
                  value := currentValue st |} in
  (forall o, get o "basedOnSequence" = VNumber (currentSequence st) ->
     execute getCurrentValue (Some o) st = (Fulfilled frame, st))
  /\ parallel (replicate N getCurrentValue) inputs st =
       (Fulfilled (replicate N frame), st).
Proof.
  intros Hlen Hall frame. split.
  { intros o Ho. by apply getCurrentValue_current. }
  assert (accepted (replicate N getCurrentValue) inputs = true) as Hacc.
  { unfold accepted. apply andb_true_iff. split.
    - apply all_queries_true, Forall_replicate. reflexivity.
    - by apply (same_sequence_number inputs (currentSequence st)). }
  rewrite (parallel_accepted _ _ _ Hacc).
  rewrite (calls_const _ st (Fulfilled frame)).
  - simpl. by rewrite invocations_length, length_replicate, all_replicate.
  - apply Forall_lookup. intros i c Hc.
    pose proof (eq_trans (eq_sym Hc)
      (invocations_lookup (replicate N getCurrentValue) inputs i)) as Hc'.
    symmetry in Hc'. apply fmap_Some in Hc' as (tool & Htool & ->).
    apply lookup_replicate in Htool as [-> Hi].
    destruct (lookup_lt_is_Some_2 inputs i) as [o Ho]; [lia|].
    rewrite Ho. apply getCurrentValue_current.
    by apply (Forall_lookup_1 _ _ _ _ Hall Ho).
Qed.

End IntStreamBatch.

Module BatchExamples.
Import Js Compiler IntStream JsFacts ParallelFacts IntStreamFacts.
Import BatchClaims IntStreamBatch.

(** Two queries anchored on the initial sequence 1, in one batch. *)
Lemma queries_never_advance_witness :
  let o : Object := {[ "basedOnSequence" := VNumber 1 ]} in
  let frame := {| sequence := 1; type := Types.full; content := "Value is 0";
                  baseSequence := None; value := VNumber 0 |} in
  execute getCurrentValue (Some o) initial = (Fulfilled frame, initial)
  /\ parallel [getCurrentValue; getCurrentValue] [o; o] initial =
       (Fulfilled [frame; frame], initial).
Proof.
  intros o frame.
  destruct (queries_never_advance initial 2 [o; o]) as [Halone Hbatch].
  - reflexivity.
  - repeat constructor.
  - split; [apply Halone; reflexivity | exact Hbatch].
Defined.

(** The batch of the test 'fails if sequence numbers differ'. *)
Lemma parallel_rejects_differing_sequences_witness :
  let o1 : Object := {[ "basedOnSequence" := VNumber 1 ]} in
  let o2 : Object := {[ "basedOnSequence" := VNumber 2 ]} in
  parallel [getCurrentValue; getCurrentValue] [o1; o2] initial =
    (Rejected (Error "All parallel tools must use the same sequence number"),
     initial)
  /\ forall log,
       parallel (map traced [getCurrentValue; getCurrentValue]) [o1; o2]
         (initial, log) =
         (Rejected (Error "All parallel tools must use the same sequence number"),
          (initial, log)).
Proof.
  intros o1 o2.
  apply (parallel_rejects_differing_sequences
           [getCurrentValue; getCurrentValue] [o1; o2] initial 0 1 o1 o2).
  - repeat constructor.
  - reflexivity.
  - reflexivity.
  - vm_compute. discriminate.
Defined.

(** A query and a mutation in one batch, as in the test 'fails if mixing
    queries and mutations'. *)
Lemma parallel_rejects_mutation_witness :
  let o1 : Object := {[ "basedOnSequence" := VNumber 1 ]} in
  let o2 : Object := {[ "amount" := VNumber 5; "basedOnSequence" := VNumber 1 ]} in
  parallel [getCurrentValue; incrementValue] [o1; o2] initial =
    (Rejected (Error "parallel() can only be used with query tools"), initial)
  /\ forall log,
       parallel (map traced [getCurrentValue; incrementValue]) [o1; o2]
         (initial, log) =
         (Rejected (Error "parallel() can only be used with query tools"),
          (initial, log)).
Proof.
  intros o1 o2.
  apply (parallel_rejects_mutation
           [getCurrentValue; incrementValue] [o1; o2] initial incrementValue).
  - apply list_elem_of_further, list_elem_of_here.
  - reflexivity.
Defined.

(** C10 as first stated fails.  The batch of one [getCurrentValue]
    anchored on sequence 5 passes both validations while the current
    sequence is 1; [parallel] then returns no list at all: it is rejected
    with the tool's own staleness error. *)
Lemma parallel_accepted_batch_rejected :
  let o : Object := {[ "basedOnSequence" := VNumber 5 ]} in
  accepted [getCurrentValue] [o] = true
  /\ parallel [getCurrentValue] [o] initial =
       (Rejected (Error "Invalid sequence number"), initial)
  /\ ~ (exists rs : list IntFrame,
          fst (parallel [getCurrentValue] [o] initial) = Fulfilled rs
          /\ length rs = length [getCurrentValue]).
Proof.
  intros o.
  assert (parallel [getCurrentValue] [o] initial =
            (Rejected (Error "Invalid sequence number"), initial)) as Hrej
    by reflexivity.
  split; [reflexivity|]. split; [exact Hrej|].
  intros (rs & Hrs & _). rewrite Hrej in Hrs. discriminate Hrs.
Qed.

(** Two current queries: an accepted batch in which every call succeeds. *)
Lemma parallel_positional_witness :
  let o : Object := {[ "basedOnSequence" := VNumber 1 ]} in
  let frame := {| sequence := 1; type := Types.full; content := "Value is 0";
                  baseSequence := None; value := VNumber 0 |} in
  exists rs,
    fst (parallel [getCurrentValue; getCurrentValue] [o; o] initial) =
      Fulfilled rs
    /\ length rs = 2%nat
    /\ rs !! 0%nat = Some frame /\ rs !! 1%nat = Some frame.
Proof.
  intros o frame.
  destruct (parallel_positional [getCurrentValue; getCurrentValue] [o; o])
    as (_ & _ & _ & Hok); [reflexivity|].
  destruct (Hok initial) as (rs & Hpar & Hlen & Hpos).
  - intros p Hp.
    change (p ∈ [Fulfilled frame; Fulfilled frame]) in Hp.
    apply elem_of_cons in Hp as [->|Hp]; [by eexists|].
    apply elem_of_cons in Hp as [->|Hp]; [by eexists|].
    by apply elem_of_nil in Hp.
  - exists rs. split; [exact Hpar|]. split; [exact Hlen|]. split.
    + destruct (Hpos 0%nat getCurrentValue eq_refl) as (r & -> & Hr).
      by injection Hr as <-.
    + destruct (Hpos 1%nat getCurrentValue eq_refl) as (r & -> & Hr).
      by injection Hr as <-.
Defined.

End BatchExamples.

(** The three tests of [src/compiler/__tests__/parallel.test.ts], run on
    the model. *)
Module ParallelTests.
Import Js Compiler Web.

(** 'executes query tools in parallel': the result has length 2. *)
Example test_executes_queries :
  parallel [getClickableElements; getClickableElements]
    [ {[ "basedOnSequence" := VNumber 1; "type" := VString "button" ]};
      {[ "basedOnSequence" := VNumber 1; "type" := VString "link" ]} ]
    currentFrame
  = (Fulfilled [elements []; elements []], currentFrame).
Proof. reflexivity. Qed.

(** 'fails if mixing queries and mutations'. *)
Example test_mixing :
  parallel [getClickableElements; clickElement]
    [ {[ "basedOnSequence" := VNumber 1 ]};
      {[ "basedOnSequence" := VNumber 1; "selector" := VString "#button" ]} ]
    currentFrame
  = (Rejected (Error "parallel() can only be used with query tools"),
     currentFrame).
Proof. reflexivity. Qed.

(** 'fails if sequence numbers differ'. *)
Example test_sequences_differ :
  parallel [getClickableElements; getClickableElements]
    [ {[ "basedOnSequence" := VNumber 1 ]};
      {[ "basedOnSequence" := VNumber 2 ]} ]
    currentFrame
  = (Rejected (Error "All parallel tools must use the same sequence number"),
     currentFrame).
Proof. reflexivity. Qed.

End ParallelTests.

(** ** The stream controller *)

Module StreamingFacts.
Import Js Streaming.

Lemma isValidTransition_allowed (from to : StreamState) :
  isValidTransition from to = true <-> allowed from to.
Proof.
  split.
  - destruct from, to; simpl; intros H; try discriminate H; constructor.
  - by destruct 1.
Qed.

(** C6.  A transition [from -> to] is accepted exactly when it is in the
    table: initial to streaming or error; streaming to paused, complete,
    error or cancelled; paused to streaming, cancelled or error.  The
    terminal states cancelled, error and complete have no outgoing
    transition, and they are the only states without one.  [transition] moves the controller to [to] (and emits the
    state change) when [isValidTransition] accepts, and otherwise throws
    and leaves the controller as it was. *)
Theorem transition_table (from to : StreamState) :
  (isValidTransition from to = true <-> allowed from to)
  /\ (isValidTransition from to = false <-> ~ allowed from to)
  /\ (isValidTransition cancelled to = false
      /\ isValidTransition error to = false
      /\ isValidTransition complete to = false)
  /\ (terminal from <-> validTransitions from = [])
  /\ (forall log,
        transition to {| state := from; emitted := log |} =
          if isValidTransition from to
          then (Fulfilled tt, {| state := to; emitted := log ++ [to] |})
          else (Rejected (Error ("Invalid state transition: "
                                   +:+ state_name from +:+ " -> "
                                   +:+ state_name to)),
                {| state := from; emitted := log |})).
Proof.
  split; [apply isValidTransition_allowed|]. split; [|split; [|split]].
  - rewrite <- isValidTransition_allowed. by destruct (isValidTransition from to).
  - by destruct to.
  - unfold terminal. destruct from; simpl; split; intros H; auto;
      try discriminate H; by destruct H as [H|[H|H]].
  - intros log. unfold transition, bind, read, write, throw. simpl.
    by destruct (isValidTransition from to).
Qed.

(** The table, entry by entry. *)
Example transition_table_rows :
  map (fun from => filter (fun to => isValidTransition from to = true)
                     [initial; streaming; paused; cancelled; error; complete])
    [initial; streaming; paused; cancelled; error; complete]
  = [ [streaming; error];
      [paused; cancelled; error; complete];
      [streaming; cancelled; error];
      []; []; [] ].
Proof. reflexivity. Qed.

End StreamingFacts.

(** ** Diff frames and their base frames *)

Module FrameProtocolFacts.
Import FrameProtocol.

Lemma is_base_for_spec (scopeKey : string) (f : Frame) :
  is_base_for scopeKey f = true <->
  url f = scopeKey /\ type (changes f) = full_page.
Proof.
  unfold is_base_for. by rewrite andb_true_iff, !bool_decide_eq_true.
Qed.

Lemma find_elem_of (p : Frame -> bool) (l : list Frame) (g : Frame) :
  find p l = Some g -> g ∈ l /\ p g = true.
Proof.
  intros H. apply find_some in H as [Hin Hp]. by rewrite list_elem_of_In.
Qed.

Lemma find_none_elem_of (p : Frame -> bool) (l : list Frame) :
  find p l = None <-> forall g, g ∈ l -> p g = false.
Proof.
  induction l as [|x l IH]; simpl.
  - split; [|done]. intros _ g Hg. by apply elem_of_nil in Hg.
  - destruct (p x) eqn:Hx.
    + split; [done|]. intros H. specialize (H x (list_elem_of_here _ _)). congruence.
    + rewrite IH. split.
      * intros H g [->|Hg]%elem_of_cons; auto.
      * intros H g Hg. apply H. by apply list_elem_of_further.
Qed.

Lemma well_formed_bound (h : Z) (l : list Frame) (g : Frame) :
  well_formed h l -> g ∈ l -> sequence g <= h.
Proof.
  induction 1 as [h|h f older Hwf IH Hle Hdiff]; intros Hin.
  - by apply elem_of_nil in Hin.
  - apply elem_of_cons in Hin as [->|Hin]; [done|].
    specialize (IH Hin). lia.
Qed.

Lemma well_formed_weaken (h h' : Z) (l : list Frame) :
  well_formed h l -> h <= h' -> well_formed h' l.
Proof.
  destruct 1 as [h|h f older Hwf Hle Hdiff]; intros Hh; constructor; auto; lia.
Qed.

(** Sequence numbers identify the frames of a well-formed history. *)
Lemma well_formed_unique (h : Z) (l : list Frame) (g g' : Frame) :
  well_formed h l -> g ∈ l -> g' ∈ l -> sequence g = sequence g' -> g = g'.
Proof.
  induction 1 as [h|h f older Hwf IH Hle Hdiff]; intros Hg Hg' Heq.
  - by apply elem_of_nil in Hg.
  - apply elem_of_cons in Hg as [->|Hg], Hg' as [->|Hg']; auto.
    + pose proof (well_formed_bound _ _ _ Hwf Hg'). lia.
    + pose proof (well_formed_bound _ _ _ Hwf Hg). lia.
Qed.

(** Searching most-recent-first finds the candidate of highest sequence
    number. *)
Lemma find_most_recent (p : Frame -> bool) (h : Z) (l : list Frame) (g : Frame) :
  well_formed h l -> find p l = Some g ->
  forall g', g' ∈ l -> p g' = true -> sequence g' <= sequence g.
Proof.
  induction 1 as [h|h f older Hwf IH Hle Hdiff]; simpl; [done|].
  destruct (p f) eqn:Hf.
  - intros [= <-] g' [->|Hg']%elem_of_cons _; [lia|].
    pose proof (well_formed_bound _ _ _ Hwf Hg'). lia.
  - intros Hfind g' [->|Hg']%elem_of_cons Hp; [congruence|]. by apply IH.
Qed.

(** What the invariant gives for each [diff] frame of the history. *)
Lemma well_formed_diff_base (h : Z) (l : list Frame) (f : Frame) :
  well_formed h l -> f ∈ l -> type (changes f) = diff ->
  exists g,
    baseFrame (changes f) = Some (sequence g)
    /\ g ∈ l
    /\ type (changes g) = full_page
    /\ url g = url f
    /\ sequence g < sequence f
    /\ (forall g', g' ∈ l -> sequence g' = sequence g -> g' = g)
    /\ (forall g', g' ∈ l -> type (changes g') = full_page -> url g' = url f ->
          sequence g' < sequence f -> sequence g' <= sequence g).
Proof.
  induction 1 as [h|h f0 older Hwf IH Hle Hdiff]; intros Hin Hty.
  - by apply elem_of_nil in Hin.
  - apply elem_of_cons in Hin as [->|Hin].
    + destruct (Hdiff Hty) as (g & Hfind & Hbase).
      destruct (find_elem_of _ _ _ Hfind) as [Hg [Hurl Hfull]%is_base_for_spec].
      pose proof (well_formed_bound _ _ _ Hwf Hg) as Hlt.
      exists g. repeat split; auto using list_elem_of_further; try lia.
      * intros g' [->|Hg']%elem_of_cons Heq; [lia|].
        by apply (well_formed_unique _ _ _ _ Hwf).
      * intros g' [->|Hg']%elem_of_cons Hfull' Hurl' Hlt'; [lia|].
        apply (find_most_recent _ _ _ _ Hwf Hfind g' Hg').
        by apply is_base_for_spec.
    + destruct (IH Hin Hty) as (g & Hbase & Hg & Hfull & Hurl & Hlt & Huniq & Hmax).
      pose proof (well_formed_bound _ _ _ Hwf Hin) as Hf.
      exists g. repeat split; auto using list_elem_of_further.
      * intros g' [->|Hg']%elem_of_cons Heq; [lia|]. by apply Huniq.
      * intros g' [->|Hg']%elem_of_cons Hfull' Hurl' Hlt'; [lia|]. by apply Hmax.
Qed.

Lemma emit_well_formed (scopeKey : string) (o : Observation) (s : FrameStore) :
  well_formed (head s) (history s) ->
  well_formed (head (snd (emit scopeKey o s))) (history (snd (emit scopeKey o s))).
Proof.
  intros Hwf. unfold emit, append. simpl. constructor; simpl.
  - by replace (head s + 1 - 1) with (head s) by lia.
  - lia.
  - destruct o as [page where_ fragment [|]|e page]; simpl; try discriminate.
    unfold latestFullFrame.
    destruct (find (is_base_for scopeKey) (history s)) as [g|]; simpl;
      [|discriminate].
    intros _. by exists g.
Qed.

Lemma find_app_l (p : Frame -> bool) (l l' : list Frame) (g : Frame) :
  find p l = Some g -> find p (l ++ l') = Some g.
Proof.
  induction l as [|x l IH]; simpl; [done|]. by destruct (p x).
Qed.

(** What clearing preserves: the history is the recent end of a history
    that is well formed, the frames [cleared] being gone. *)
Lemma reachable_recent_end (s : FrameStore) :
  reachable s -> exists cleared, well_formed (head s) (history s ++ cleared).
Proof.
  induction 1 as [h|scopeKey o s _ [cleared IH]|n s _ [cleared IH]
                  |s _ [cleared IH]].
  - exists []. constructor.
  - exists cleared. unfold emit, append. simpl. constructor; simpl.
    + by replace (head s + 1 - 1) with (head s) by lia.
    + lia.
    + destruct o as [page where_ fragment [|]|e page]; simpl; try discriminate.
      unfold latestFullFrame.
      destruct (find (is_base_for scopeKey) (history s)) as [g|] eqn:Hfind;
        simpl; [|discriminate].
      intros _. exists g. split; [by apply find_app_l|done].
  - exists (drop n (history s) ++ cleared). simpl.
    by rewrite app_assoc, take_drop.
  - exists (history s ++ cleared). exact IH.
Qed.

(** In a store the protocol can reach, no frame is numbered above the
    head. *)
Lemma reachable_bound (s : FrameStore) (f : Frame) :
  reachable s -> f ∈ history s -> sequence f <= head s.
Proof.
  intros [cleared Hwf]%reachable_recent_end Hf.
  apply (well_formed_bound _ _ _ Hwf). apply elem_of_app. by left.
Qed.

(** The base frame of a [diff] frame stays in the history as long as the
    history is not cleared. *)
Lemma emitted_since_base (s0 s : FrameStore) (f : Frame) :
  reachable s0 -> emitted_since s0 s ->
  f ∈ history s -> head s0 < sequence f -> type (changes f) = diff ->
  exists g, g ∈ history s /\ baseFrame (changes f) = Some (sequence g).
Proof.
  intros Hreach Hsince. induction Hsince as [|scopeKey o s _ IH]; intros Hf Hlt Hty.
  - pose proof (reachable_bound s0 f Hreach Hf). lia.
  - unfold emit, append in Hf. simpl in Hf.
    apply elem_of_cons in Hf as [->|Hf].
    + simpl in Hty. unfold emit, append. simpl.
      destruct o as [page where_ fragment [|]|e page]; simpl in *;
        try discriminate.
      unfold latestFullFrame in *.
      destruct (find (is_base_for scopeKey) (history s)) as [g|] eqn:Hfind;
        simpl in *; [|discriminate].
      exists g. split; [|done].
      apply list_elem_of_further. by apply (find_elem_of _ _ _ Hfind).
    + destruct (IH Hf Hlt Hty) as (g & Hg & Hbase).
      exists g. split; [|done]. unfold emit, append. simpl.
      by apply list_elem_of_further.
Qed.

(** C7, as amended.  In every store the protocol can reach, each [diff]
    frame of the history names as [baseFrame] a strictly lower sequence
    number; the frame of the history with that number, if it has not been
    cleared, is the only one with that number and is a [full_page] frame
    with the same url, and no [full_page] frame with the same url that
    precedes the diff has a higher sequence number; and it is there as long
    as the history has not been cleared since the diff was emitted.  When a
    frame is emitted as a [diff], the history holds its base frame: a
    [full_page] frame with the same url and a strictly lower sequence
    number, the most recent such frame.  And when the history holds no
    [full_page] frame for a url, an observation for that url is emitted as
    a [full_page] frame carrying the whole page, not as a diff. *)
Theorem diff_base_valid (s : FrameStore) :
  reachable s ->
  (forall f, f ∈ history s -> type (changes f) = diff ->
     exists b,
       baseFrame (changes f) = Some b
       /\ b < sequence f
       /\ (forall g, g ∈ history s -> sequence g = b ->
             type (changes g) = full_page
             /\ url g = url f
             /\ forall g', g' ∈ history s -> sequence g' = b -> g' = g)
       /\ (forall g', g' ∈ history s -> type (changes g') = full_page ->
             url g' = url f -> sequence g' < sequence f -> sequence g' <= b)
       /\ (forall s0, reachable s0 -> emitted_since s0 s ->
             head s0 < sequence f ->
             exists g, g ∈ history s /\ sequence g = b))
  /\ (forall scopeKey o,
        let f := fst (emit scopeKey o s) in
        let s' := snd (emit scopeKey o s) in
        type (changes f) = diff ->
        exists g,
          baseFrame (changes f) = Some (sequence g)
          /\ g ∈ history s'
          /\ type (changes g) = full_page
          /\ url g = url f
          /\ sequence g < sequence f
          /\ (forall g', g' ∈ history s' -> type (changes g') = full_page ->
                url g' = url f -> sequence g' < sequence f ->
                sequence g' <= sequence g))
  /\ (forall scopeKey page where_ fragment fullRefresh,
        (forall g, g ∈ history s -> url g = scopeKey ->
           type (changes g) <> full_page) ->
        let f := fst (emit scopeKey (observed page where_ fragment fullRefresh) s) in
        type (changes f) = full_page
        /\ content (changes f) = page
        /\ baseFrame (changes f) = None
        /\ url f = scopeKey
        /\ sequence f = head s + 1).
Proof.
  intros Hreach. destruct (reachable_recent_end s Hreach) as [cleared Hwf].
  split; [|split].
  - intros f Hf Hty.
    destruct (well_formed_diff_base _ _ f Hwf) as
      (g & Hbase & Hg & Hfull & Hurl & Hlt & Huniq & Hmax);
      [by apply elem_of_app; left|done|].
    exists (sequence g). split; [done|]. split; [done|]. split; [|split].
    + intros g0 Hg0 Heq0.
      assert (g0 = g) as -> by (apply Huniq; [apply elem_of_app; by left|done]).
      split; [done|]. split; [done|].
      intros g' Hg' Heq'. apply Huniq; [apply elem_of_app; by left|done].
    + intros g' Hg' Hfull' Hurl' Hlt'.
      apply Hmax; try done. apply elem_of_app; by left.
    + intros s0 Hreach0 Hsince Hnew.
      destruct (emitted_since_base s0 s f Hreach0 Hsince Hf Hnew Hty)
        as (g1 & Hg1 & Hbase1).
      exists g1. split; [done|]. congruence.
  - intros scopeKey o f s' Hty. subst f s'. unfold emit, append in *.
    simpl in *.
    destruct o as [page where_ fragment [|]|e page]; simpl in *; try discriminate.
    unfold latestFullFrame in *.
    destruct (find (is_base_for scopeKey) (history s)) as [g|] eqn:Hfind;
      simpl in *; [|discriminate].
    destruct (find_elem_of _ _ _ Hfind) as [Hg [Hurl Hfull]%is_base_for_spec].
    assert (sequence g <= head s) as Hle.
    { apply (well_formed_bound _ _ _ Hwf). apply elem_of_app; by left. }
    exists g. split; [done|]. split; [by apply list_elem_of_further|].
    split; [done|]. split; [done|]. split; [lia|].
    intros g' [->|Hg']%elem_of_cons Hfull' Hurl' Hlt'; simpl in *; [lia|].
    apply (find_most_recent _ _ _ _ Hwf (find_app_l _ _ cleared _ Hfind)).
    + apply elem_of_app; by left.
    + by apply is_base_for_spec.
  - intros scopeKey page where_ fragment fullRefresh Hnone. simpl.
    assert (latestFullFrame scopeKey s = None) as ->.
    { apply find_none_elem_of. intros g Hg.
      apply not_true_iff_false. intros [Hurl Hfull]%is_base_for_spec.
      by apply (Hnone g Hg Hurl). }
    by destruct fullRefresh.
Qed.

(** Emitting them from an empty store gives the frames of the document,
    base-frame references included. *)
Example example_sequence_emitted :
  reverse (history (emit_all example_observations (empty 0))) = example_sequence.
Proof. reflexivity. Qed.

Lemma emit_all_since (os : list (string * Observation)) (s0 s : FrameStore) :
  emitted_since s0 s -> emitted_since s0 (emit_all os s).
Proof.
  revert s. induction os as [|[k o] os IH]; intros s Hs; [done|].
  simpl. apply IH. by constructor.
Qed.

Lemma emitted_since_reachable (s0 s : FrameStore) :
  reachable s0 -> emitted_since s0 s -> reachable s.
Proof. induction 2; [done|]. by constructor. Qed.

(** The store of the document's example is reachable, with a history that
    has never been cleared, and the base frame of its frame 3, a diff on
    [/products], is the full page of sequence 2. *)
Lemma diff_base_valid_witness :
  let s := emit_all example_observations (empty 0) in
  reachable s
  /\ exists g, g ∈ history s
       /\ sequence g = 2
       /\ type (changes g) = full_page
       /\ url g = "/products".
Proof.
  intros s.
  assert (emitted_since (empty 0) s) as Hsince
    by (apply emit_all_since; constructor).
  assert (reachable s) as Hreach
    by (apply (emitted_since_reachable (empty 0)); [constructor|done]).
  split; [exact Hreach|].
  destruct (diff_base_valid s Hreach) as [Hdiff _].
  destruct (Hdiff {| sequence := 3; url := "/products";
                     changes := {| type := diff; content := "<expanded menu>";
                                   selector := Some "#menu-1";
                                   baseFrame := Some 2;
                                   error_detail := None |} |})
    as (b & Hbase & _ & Hres & _ & Hthere).
  - do 2 apply list_elem_of_further. apply list_elem_of_here.
  - reflexivity.
  - destruct (Hthere (empty 0) (reachable_empty 0) Hsince) as (g & Hg & Hseq);
      [simpl; lia|].
    destruct (Hres g Hg Hseq) as (Hfull & Hurl & _).
    exists g. simpl in Hbase, Hurl. injection Hbase as <-. done.
Defined.

(** C7 as first stated fails once the history is cleared.  A page load and
    a change inside the page give a [full_page] frame 1 and a [diff] frame
    2 based on it; under a history limit of one frame the diff is still in
    the history and still names frame 1, which is no longer there. *)
Lemma diff_base_cleared :
  let s := limit 1 (emit_all
                      [ ("/products", observed "<product page>" "" "" false);
                        ("/products",
                         observed "<product page>" "#menu-1" "<expanded menu>" false) ]
                      (empty 0)) in
  reachable s
  /\ exists f, f ∈ history s
       /\ type (changes f) = diff
       /\ baseFrame (changes f) = Some 1
       /\ forall g, g ∈ history s -> sequence g <> 1.
Proof.
  intros s. split.
  - apply reachable_limit. do 2 apply reachable_emit. apply reachable_empty.
  - eexists. split; [apply list_elem_of_here|]. split; [reflexivity|].
    split; [reflexivity|].
    intros g [->|Hg]%elem_of_cons; [discriminate|]. by apply elem_of_nil in Hg.
Qed.

End FrameProtocolFacts.

(** ** Recovery selection *)

Module SyncFacts.
Import Sync.

(** With the same threshold, the gap is large exactly when the client's
    test of [docs/SYNC.md] reports a sync issue. *)
Lemma large_gap_sync_issue (s : SessionSync) :
  sync_issue (lastAck s) (lastSent s) (smallGapThreshold s) = true <->
  smallGapThreshold s < gap s.
Proof. unfold sync_issue, gap. rewrite Z.ltb_lt. lia. Qed.

(** Acknowledgements never move [lastAck] backwards. *)
Lemma recordAck_monotone (n : Z) (s : SessionSync) :
  lastAck s <= lastAck (recordAck n s).
Proof. simpl. lia. Qed.

(** C8.  Without a session change, the strategy selected is [resend]
    when [lastSent - lastAck <= smallGapThreshold] and [snapshot] when
    [lastSent - lastAck > smallGapThreshold].  The list carried by [resend]
    is [lastAck + 1 .. lastSent]: its [i]-th entry is [lastAck + 1 + i], so
    the numbers come in the order they were sent and are not renumbered,
    and a number is in it exactly when it lies above [lastAck] and at or
    below [lastSent]; [snapshot] carries no list.  With [lastSent = 50] and
    [smallGapThreshold = 20], [lastAck = 10] selects [snapshot] and
    [lastAck = 45] selects [resend] with the list [46; 47; 48; 49; 50]. *)
Theorem recovery_selection (s : SessionSync) :
  (gap s <= smallGapThreshold s -> selectRecovery false s = resend (missed s))
  /\ (smallGapThreshold s < gap s -> selectRecovery false s = snapshot)
  /\ (forall (i : nat) (n : Z),
        missed s !! i = Some n <->
        n = lastAck s + 1 + Z.of_nat i /\ n <= lastSent s)
  /\ (forall n : Z, n ∈ missed s <-> lastAck s < n <= lastSent s)
  /\ selectRecovery false
       {| sessionId := sessionId s; lastSent := 50; lastAck := 10;
          smallGapThreshold := 20 |} = snapshot
  /\ selectRecovery false
       {| sessionId := sessionId s; lastSent := 50; lastAck := 45;
          smallGapThreshold := 20 |} = resend [46; 47; 48; 49; 50].
Proof.
  split; [|split; [|split; [|split; [|split]]]].
  - intros Hgap. unfold selectRecovery. apply Z.leb_le in Hgap. by rewrite Hgap.
  - intros Hgap. unfold selectRecovery. apply Z.leb_gt in Hgap. by rewrite Hgap.
  - intros i n. unfold missed, gap. rewrite lookup_seqZ. lia.
  - intros n. unfold missed, gap. rewrite elem_of_seqZ. lia.
  - reflexivity.
  - reflexivity.
Qed.

End SyncFacts.

(** ** More on the integer stream and on [parallel] *)

Module IntStreamExtras.
Import Js Compiler IntStream Client JsFacts ParallelFacts IntStreamFacts.

Lemma getCurrentValue_fulfilled (arg : option Object) (st : State) (f : IntFrame) :
  fst (getCurrentValue_execute arg st) = Fulfilled f ->
  f = {| sequence := currentSequence st;
         type := Types.full;
         content := "Value is " +:+ to_string (currentValue st);
         baseSequence := None;
         value := currentValue st |}.
Proof.
  destruct arg as [o|]; [|done].
  destruct (decide (get o "basedOnSequence" = VNumber (currentSequence st)))
    as [Heq|Hne].
  - rewrite (getCurrentValue_current st o Heq). simpl. by intros [= <-].
  - by rewrite (getCurrentValue_stale st o Hne).
Qed.

Lemma calls_pure {W A} (cs : list (Async W A)) (w : W) :
  Forall (fun c => forall w', snd (c w') = w') cs ->
  snd (calls cs w) = w
  /\ forall i c, cs !! i = Some c -> fst (calls cs w) !! i = Some (fst (c w)).
Proof.
  revert w. induction 1 as [|c cs Hc _ IH]; intros; simpl.
  - by split.
  - specialize (Hc w). destruct (c w) as [p w1] eqn:Hcw. simpl in Hc. subst w1.
    destruct IH as [IH1 IH2]. destruct (calls cs w) as [ps w2]. simpl in *.
    split; [done|]. intros [|i] c' Hlk; simpl in *.
    + injection Hlk as <-. by rewrite Hcw.
    + by apply IH2.
Qed.

Lemma all_lookup {A} (ps : list (Promise A)) (rs : list A) :
  all ps = Fulfilled rs -> forall i, ps !! i = Fulfilled <$> rs !! i.
Proof.
  revert rs. induction ps as [|[a|e] ps IH]; intros rs; simpl.
  - by intros [= <-].
  - destruct (all ps) as [l|e]; [|discriminate].
    intros [= <-] [|i]; [done|]. simpl. by apply IH.
  - discriminate.
Qed.

Lemma invocations_pure (N : nat) (inputs : list Object) :
  Forall (fun c : Async State IntFrame => forall w', snd (c w') = w')
    (invocations (replicate N getCurrentValue) inputs).
Proof.
  apply Forall_lookup. intros i c Hc.
  pose proof (eq_trans (eq_sym Hc)
    (invocations_lookup (replicate N getCurrentValue) inputs i)) as Hc'.
  symmetry in Hc'. apply fmap_Some in Hc' as (tool & Htool & ->).
  apply lookup_replicate in Htool as [-> _].
  intros w'. apply getCurrentValue_pure.
Qed.

(** While [s + 1] is a safe integer (below [2^53] in absolute value) for
    the current sequence [s], so that [+= 1] moves it: of two mutations
    issued one after the other with the same [basedOnSequence] the second
    is always rejected as stale and changes nothing; the first succeeds
    exactly when the anchor was the current sequence.  So two mutations
    anchored on one sequence never both commit. *)
Theorem same_anchor_serialized (st : State) (o1 o2 : Object) :
  Z.abs (currentSequence st + 1) < 2 ^ 53 ->
  get o1 "basedOnSequence" = get o2 "basedOnSequence" ->
  let r1 := incrementValue_execute (Some o1) st in
  let r2 := incrementValue_execute (Some o2) (snd r1) in
  r2 = (Rejected (Error "Invalid sequence number"), snd r1)
  /\ ((exists f, fst r1 = Fulfilled f) <->
      get o1 "basedOnSequence" = VNumber (currentSequence st)).
Proof.
  intros Hs Hsame r1 r2. subst r1 r2.
  destruct (decide (get o1 "basedOnSequence" = VNumber (currentSequence st)))
    as [Heq|Hne].
  - rewrite (incrementValue_current st o1 Heq). simpl.
    split; [|split; [done|intros _; eexists; reflexivity]].
    apply incrementValue_stale. simpl. rewrite <- Hsame, Heq.
    rewrite plus_one_safe by done. intros [= H]. lia.
  - rewrite (incrementValue_stale st o1 Hne). simpl. split.
    + apply incrementValue_stale. by rewrite <- Hsame.
    + split; [by intros [f Hf]|done].
Qed.

Lemma same_anchor_serialized_witness :
  let o1 : Object := {[ "amount" := VNumber 5; "basedOnSequence" := VNumber 1 ]} in
  let o2 : Object := {[ "amount" := VNumber 1; "basedOnSequence" := VNumber 1 ]} in
  let st' := {| currentValue := VNumber 5; currentSequence := 2 |} in
  incrementValue_execute (Some o2) (snd (incrementValue_execute (Some o1) initial))
    = (Rejected (Error "Invalid sequence number"), st').
Proof.
  intros o1 o2 st'.
  destruct (same_anchor_serialized initial o1 o2) as [H _];
    [simpl; lia|reflexivity|].
  exact H.
Defined.

(** Through any series of calls of the two tools, with any arguments,
    that starts at a sequence [s >= 0] and is short enough to stay within
    the safe integers ([s] plus the number of calls is below [2^53]), the
    current sequence moves by exactly the number of mutations that
    succeeded: queries and failed mutations never move it. *)
Theorem sequence_counts_commits (cs : list Call) (st : State) :
  0 <= currentSequence st ->
  currentSequence st + Z.of_nat (length cs) < 2 ^ 53 ->
  currentSequence (snd (calls (map invoke cs) st)) =
    currentSequence st + Z.of_nat (commits cs (fst (calls (map invoke cs) st))).
Proof.
  revert st. induction cs as [|c cs IH]; intros st Hlo Hhi.
  - simpl. lia.
  - cbn [map]. rewrite calls_cons. cbn [fst snd commits]. cbn [length] in Hhi.
    destruct c as [arg|arg]; cbn [invoke execute getCurrentValue incrementValue].
    + pose proof (getCurrentValue_pure arg st) as Hst.
      rewrite IH; rewrite Hst; [|done|lia].
      destruct (fst (getCurrentValue_execute arg st)); simpl; lia.
    + pose proof (incrementValue_outcome arg st) as Hout.
      destruct (incrementValue_execute arg st) as [[f|e] st']; simpl.
      * destruct Hout as (Hst' & _).
        rewrite plus_one_safe in Hst' by lia.
        rewrite IH; rewrite Hst'; lia.
      * subst st'. rewrite IH; lia.
Qed.

(** The specification's scenario, as a series of calls: a mutation that
    commits, a stale mutation, a query. *)
Lemma sequence_counts_commits_witness :
  currentSequence
    (snd (calls (map invoke
      [ increment_value
          (Some {[ "amount" := VNumber 5; "basedOnSequence" := VNumber 1 ]});
        increment_value
          (Some {[ "amount" := VNumber 1; "basedOnSequence" := VNumber 1 ]});
        get_current_value (Some {[ "basedOnSequence" := VNumber 2 ]}) ])
      initial)) = 2.
Proof.
  rewrite (sequence_counts_commits _ initial); [reflexivity|simpl; lia|simpl; lia].
Defined.

(** A batch of [getCurrentValue] queries, whatever its inputs, leaves
    the state as it was, and its outcome is all or nothing: when it returns
    a list, the list holds one frame per query, each the frame of the
    current state. *)
Theorem query_batch_pure (N : nat) (inputs : list Object) (st : State) :
  snd (parallel (replicate N getCurrentValue) inputs st) = st
  /\ forall rs,
       fst (parallel (replicate N getCurrentValue) inputs st) = Fulfilled rs ->
       rs = replicate N
              {| sequence := currentSequence st;
                 type := Types.full;
                 content := "Value is " +:+ to_string (currentValue st);
                 baseSequence := None;
                 value := currentValue st |}.
Proof.
  destruct (accepted (replicate N getCurrentValue) inputs) eqn:Hacc.
  - rewrite (parallel_accepted _ _ _ Hacc). simpl.
    destruct (calls_pure _ st (invocations_pure N inputs)) as [Hst Hps].
    split; [exact Hst|]. intros rs Hrs. symmetry. apply replicate_as_Forall.
    pose proof (all_length _ _ Hrs) as Hlen.
    rewrite calls_length, invocations_length, length_replicate in Hlen.
    split; [exact Hlen|]. apply Forall_lookup. intros i f Hf.
    pose proof (all_lookup _ _ Hrs i) as Hi. rewrite Hf in Hi. simpl in Hi.
    destruct (lookup_lt_is_Some_2 (invocations (replicate N getCurrentValue) inputs) i)
      as [c Hc].
    { rewrite invocations_length, length_replicate.
      apply lookup_lt_Some in Hf. lia. }
    rewrite (Hps i c Hc) in Hi. injection Hi as Hi.
    pose proof (eq_trans (eq_sym Hc)
      (invocations_lookup (replicate N getCurrentValue) inputs i)) as Hc'.
    symmetry in Hc'. apply fmap_Some in Hc' as (tool & Htool & ->).
    apply lookup_replicate in Htool as [-> _].
    symmetry. by apply (getCurrentValue_fulfilled (inputs !! i) st).
  - unfold accepted in Hacc. unfold parallel.
    destruct (forallb _ (replicate N getCurrentValue)); simpl in *; [|done].
    rewrite Hacc. by simpl.
Qed.

(** A batch with more [getCurrentValue] queries than inputs, the inputs
    all anchored on the current sequence, passes both validations; the
    queries beyond the inputs are called with [undefined], and the batch is
    rejected with their [TypeError], the state unchanged. *)
Theorem query_batch_missing_input (N : nat) (inputs : list Object) (st : State) :
  (length inputs < N)%nat ->
  Forall (fun o => get o "basedOnSequence" = VNumber (currentSequence st)) inputs ->
  accepted (replicate N getCurrentValue) inputs = true
  /\ parallel (replicate N getCurrentValue) inputs st = (Rejected TypeError, st).
Proof.
  intros Hlen Hall.
  assert (accepted (replicate N getCurrentValue) inputs = true) as Hacc.
  { unfold accepted. apply andb_true_iff. split.
    - apply all_queries_true, Forall_replicate. reflexivity.
    - by apply (same_sequence_number inputs (currentSequence st)). }
  split; [exact Hacc|].
  rewrite (parallel_accepted _ _ _ Hacc).
  destruct (calls_pure _ st (invocations_pure N inputs)) as [Hst Hps].
  rewrite Hst. f_equal.
  assert (forall i, (i < N)%nat ->
            invocations (replicate N getCurrentValue) inputs !! i =
              Some (execute getCurrentValue (inputs !! i))) as Hinv.
  { intros i Hi. rewrite invocations_lookup, lookup_replicate_2; done. }
  apply (all_first_rejected _ (length inputs)).
  - rewrite (Hps _ _ (Hinv _ Hlen)).
    by rewrite (lookup_ge_None_2 inputs (length inputs)).
  - intros j Hj. rewrite (Hps _ _ (Hinv j ltac:(lia))).
    destruct (lookup_lt_is_Some_2 inputs j Hj) as [o Ho]. rewrite Ho.
    cbn [execute getCurrentValue].
    rewrite (getCurrentValue_current st o); [by eexists|].
    by apply (Forall_lookup_1 _ _ _ _ Hall Ho).
Qed.

Lemma query_batch_missing_input_witness :
  parallel [getCurrentValue; getCurrentValue]
    [ {[ "basedOnSequence" := VNumber 1 ]} ] initial
  = (Rejected TypeError, initial).
Proof.
  destruct (query_batch_missing_input 2
              [ {[ "basedOnSequence" := VNumber 1 ]} ] initial) as [_ H].
  - simpl. lia.
  - repeat constructor.
  - exact H.
Defined.

(** [incrementValue] called at the current sequence [s] without an
    [amount] still commits: the sequence advances by 1 ([s + 1] being a
    safe integer), and the value, when it was a number, [NaN] included,
    becomes [NaN]; and once the value is [NaN], increments by a number keep
    it [NaN]. *)
Theorem increment_without_amount (st : State) (o : Object) :
  Z.abs (currentSequence st + 1) < 2 ^ 53 ->
  get o "basedOnSequence" = VNumber (currentSequence st) ->
  (exists v : number, currentValue st = VNumber v) ->
  get o "amount" = VUndefined \/
    (currentValue st = VNaN /\ exists a : number, get o "amount" = VNumber a) ->
  incrementValue_execute (Some o) st =
    (Fulfilled {| sequence := currentSequence st + 1;
                  type := Types.full;
                  content := "Value is now NaN";
                  baseSequence := None;
                  value := VNaN |},
     {| currentValue := VNaN; currentSequence := currentSequence st + 1 |}).
Proof.
  intros Hs Hb Hv Ha. rewrite (incrementValue_current st o Hb).
  rewrite plus_one_safe by done.
  assert (add (currentValue st) (get o "amount") = VNaN) as ->; [|done].
  destruct Ha as [->|[-> [a ->]]]; [|done].
  destruct Hv as [v ->]. by destruct v.
Qed.

Lemma increment_without_amount_witness :
  incrementValue_execute (Some {[ "basedOnSequence" := VNumber 1 ]}) initial =
    (Fulfilled {| sequence := 2; type := Types.full;
                  content := "Value is now NaN";
                  baseSequence := None; value := VNaN |},
     {| currentValue := VNaN; currentSequence := 2 |}).
Proof.
  apply (increment_without_amount initial {[ "basedOnSequence" := VNumber 1 ]}).
  - simpl. lia.
  - reflexivity.
  - by exists 0.
  - by left.
Defined.

(** Which batches pass the two validations of [parallel]: those whose
    tools are all queries and whose inputs, if any, all carry the same
    [basedOnSequence], which is not [NaN].  The sequence is not compared
    with any current state, and the numbers of tools and inputs are not
    compared. *)
Theorem accepted_iff {W Out} (tools : list (ToolDefinition W Out))
    (inputs : list Object) :
  accepted tools inputs = true <->
  Forall (fun t => Compiler.type t = query) tools
  /\ (inputs = [] \/
      exists v, v <> VNaN /\ Forall (fun o => get o "basedOnSequence" = v) inputs).
Proof.
  unfold accepted. rewrite andb_true_iff, all_queries_true.
  apply and_iff_compat_l. destruct inputs as [|o inputs]; [by split; auto|].
  set (seqs := map (fun i => get i "basedOnSequence") (o :: inputs)).
  rewrite forallb_forall. setoid_rewrite <- list_elem_of_In. split.
  - intros Hall. right. exists (get o "basedOnSequence"). split.
    + intros Hnan.
      specialize (Hall (get o "basedOnSequence") (list_elem_of_here _ _)).
      rewrite Hnan in Hall. discriminate Hall.
    + apply Forall_forall. intros o' Ho'.
      assert (get o' "basedOnSequence" ∈ seqs) as Hin.
      { by apply (list_elem_of_fmap_2 (fun i : Object => get i "basedOnSequence")). }
      by apply Hall, strict_eq_eq in Hin.
  - intros [[=]|(v & Hv & Hall)] s Hs.
    apply list_elem_of_fmap in Hs as (o' & -> & Ho').
    rewrite Forall_forall in Hall. unfold index. simpl.
    rewrite (Hall o' Ho'), (Hall o (list_elem_of_here _ _)).
    destruct v as [|[]| |]; simpl; try done; by apply bool_decide_eq_true.
Qed.

End IntStreamExtras.

(** ** Runs of the stream controller *)

Module StreamExtras.
Import Js Streaming Client StreamingFacts.

Lemma attempt_cases (to : StreamState) (c : StreamController) :
  (allowed (state c) to
   /\ attempt to c = {| state := to; emitted := emitted c ++ [to] |})
  \/ (~ allowed (state c) to /\ attempt to c = c).
Proof.
  destruct c as [from log]. unfold attempt, transition, bind, read, write, throw.
  simpl. destruct (isValidTransition from to) eqn:Hv; simpl.
  - left. by apply isValidTransition_allowed in Hv.
  - right. split; [|done]. rewrite <- isValidTransition_allowed. congruence.
Qed.

Lemma chain_snoc (from to : StreamState) (log : list StreamState) :
  chain from (log ++ [to]) <-> chain from log /\ allowed (ends_in from log) to.
Proof.
  revert from. induction log as [|x log IH]; intros from; simpl.
  - unfold ends_in. simpl. tauto.
  - rewrite IH. unfold ends_in. rewrite last_cons.
    destruct (last log); simpl; tauto.
Qed.

Lemma attempts_snoc (ts : list StreamState) (t : StreamState) (c : StreamController) :
  attempts (ts ++ [t]) c = attempt t (attempts ts c).
Proof. unfold attempts. by rewrite fold_left_app. Qed.

Lemma attempts_invariant (start : StreamState) (ts : list StreamState)
    (c : StreamController) :
  chain start (emitted c) -> state c = ends_in start (emitted c) ->
  chain start (emitted (attempts ts c))
  /\ state (attempts ts c) = ends_in start (emitted (attempts ts c)).
Proof.
  intros Hchain0 Hstate0.
  induction ts as [|t ts IH] using rev_ind; [done|].
  rewrite attempts_snoc. destruct IH as [Hchain Hstate].
  destruct (attempt_cases t (attempts ts c)) as [ [Hok ->] | [_ ->] ]; [|done].
  simpl. split.
  - apply chain_snoc. by rewrite <- Hstate.
  - unfold ends_in. by rewrite last_snoc.
Qed.

(** Whatever transitions are attempted on a new controller, what it has
    emitted is a path through the table that starts from [initial], one
    entry per accepted transition, and the controller is in the state the
    path ends in. *)
Theorem emitted_is_path (ts : list StreamState) :
  chain initial (emitted (attempts ts fresh))
  /\ state (attempts ts fresh) = ends_in initial (emitted (attempts ts fresh)).
Proof.
  apply (attempts_invariant initial ts fresh); [exact I|reflexivity].
Qed.

(** A controller in a terminal state (cancelled, error or complete)
    refuses every transition: [transition(newState)] throws
    [Error('Invalid state transition: <state> -> <newState>')] and leaves
    the controller as it was.  So the controller stays as it is whatever
    transitions are attempted: its state does not change and nothing more
    is emitted. *)
Theorem terminal_absorbing (ts : list StreamState) (c : StreamController) :
  terminal (state c) ->
  (forall newState,
     transition newState c =
       (Rejected (Error ("Invalid state transition: " +:+ state_name (state c)
                           +:+ " -> " +:+ state_name newState)), c))
  /\ attempts ts c = c.
Proof.
  intros Hterm.
  assert (forall newState,
            transition newState c =
              (Rejected (Error ("Invalid state transition: "
                                  +:+ state_name (state c)
                                  +:+ " -> " +:+ state_name newState)), c))
    as Hthrows.
  { intros newState. unfold transition, bind, read, throw.
    by destruct Hterm as [-> | [-> | ->] ]. }
  split; [exact Hthrows|].
  induction ts as [|t ts IH] using rev_ind; [done|].
  rewrite attempts_snoc, IH. unfold attempt. by rewrite Hthrows.
Qed.

Lemma terminal_absorbing_witness :
  let c := {| state := cancelled; emitted := [streaming; cancelled] |} in
  (forall newState,
     transition newState c =
       (Rejected (Error ("Invalid state transition: cancelled -> "
                           +:+ state_name newState)), c))
  /\ attempts [streaming; paused; initial; complete] c = c.
Proof.
  apply (terminal_absorbing [streaming; paused; initial; complete]
           {| state := cancelled; emitted := [streaming; cancelled] |}).
  left. reflexivity.
Defined.

Lemma chain_needs_streaming (log : list StreamState) (s : StreamState) :
  chain initial log -> s ∈ log ->
  s = paused \/ s = complete \/ s = cancelled -> streaming ∈ log.
Proof.
  revert s. induction log as [|x log IH] using rev_ind; intros s Hchain Hs Hcase.
  - by apply elem_of_nil in Hs.
  - apply chain_snoc in Hchain as [Hchain Hlast].
    rewrite elem_of_app. apply elem_of_app in Hs as [Hs|Hs].
    { left. by apply (IH s). }
    apply list_elem_of_singleton in Hs as ->.
    assert (ends_in initial log = streaming \/ ends_in initial log = paused)
      as Hprev.
    { destruct Hcase as [-> | [-> | ->] ]; inversion Hlast; auto. }
    unfold ends_in in Hprev. destruct (last log) as [y|] eqn:Hy; simpl in Hprev.
    + apply last_Some_elem_of in Hy. left.
      destruct Hprev as [-> | ->]; [done|]. apply (IH paused); auto.
    + destruct Hprev; discriminate.
Qed.

(** A new controller cannot be paused, completed or cancelled before it
    has started streaming: whatever transitions are attempted, if it ends
    up paused, complete or cancelled then it has emitted [streaming].  In
    particular a lone [transition('complete')] or [transition('cancelled')]
    on a new controller throws. *)
Theorem streaming_comes_first (ts : list StreamState) :
  (state (attempts ts fresh) = paused
   \/ state (attempts ts fresh) = complete
   \/ state (attempts ts fresh) = cancelled ->
   streaming ∈ emitted (attempts ts fresh))
  /\ (forall to, to = paused \/ to = complete \/ to = cancelled ->
        fst (transition to fresh) =
          Rejected (Error ("Invalid state transition: initial -> "
                             +:+ state_name to))).
Proof.
  split.
  - intros Hstate.
    destruct (attempts_invariant initial ts fresh I eq_refl) as [Hchain Hends].
    apply (chain_needs_streaming _ (state (attempts ts fresh)) Hchain); [|done].
    rewrite Hends. unfold ends_in.
    destruct (last (emitted (attempts ts fresh))) as [y|] eqn:Hy; simpl.
    + by apply last_Some_elem_of.
    + rewrite Hends in Hstate. unfold ends_in in Hstate. rewrite Hy in Hstate.
      simpl in Hstate. destruct Hstate as [H|[H|H]]; discriminate H.
  - by intros to [-> | [-> | ->] ].
Qed.

End StreamExtras.

(** ** Compiled tool definitions *)

Module CompileFacts.
Import Compile.

Lemma assign_fresh {A} (o : list (string * A)) (key : string) (v : A) :
  key ∉ keys o -> assign o key v = o ++ [(key, v)].
Proof.
  induction o as [|[k x] o IH]; simpl; [done|].
  intros Hnotin. apply not_elem_of_cons in Hnotin as [Hne Hnotin].
  destruct (decide (k = key)) as [->|_]; [done|]. by rewrite IH.
Qed.

Lemma keys_assign {A} (o : list (string * A)) (key : string) (v : A) (k : string) :
  k ∈ keys (assign o key v) <-> k ∈ keys o \/ k = key.
Proof.
  induction o as [|[k' x] o IH]; simpl.
  - rewrite list_elem_of_singleton, elem_of_nil. tauto.
  - destruct (decide (k' = key)) as [->|Hne]; simpl.
    + rewrite !elem_of_cons. tauto.
    + rewrite !elem_of_cons, IH. tauto.
Qed.

Lemma fold_assign_keys (input : list (string * Compiler.InputType))
    (acc : list (string * Property)) (k : string) :
  k ∈ keys (fold_left (fun acc '(key, ty) => assign acc key (property_for key ty))
              input acc)
  <-> k ∈ keys acc \/ k ∈ keys input.
Proof.
  revert acc. induction input as [|[key ty] input IH]; intros acc; simpl.
  - rewrite elem_of_nil. tauto.
  - rewrite IH, keys_assign, elem_of_cons. tauto.
Qed.

Lemma fold_assign_nodup (input : list (string * Compiler.InputType))
    (acc : list (string * Property)) :
  NoDup (keys acc ++ keys input) ->
  fold_left (fun acc '(key, ty) => assign acc key (property_for key ty)) input acc
  = acc ++ map (fun e => (e.1, property_for e.1 e.2)) input.
Proof.
  revert acc. induction input as [|[key ty] input IH]; intros acc Hnd; simpl.
  - by rewrite app_nil_r.
  - simpl in Hnd. apply NoDup_app in Hnd as (Hacc & Hdisj & Hin).
    apply NoDup_cons in Hin as [Hkey Hin].
    rewrite assign_fresh.
    + rewrite IH; [by rewrite <- app_assoc|].
      unfold keys. rewrite fmap_app. simpl. rewrite <- app_assoc. simpl.
      apply NoDup_app. split; [done|]. split; [|by apply NoDup_cons].
      intros x Hx. by apply Hdisj.
    + intros Hk. apply (Hdisj key Hk). apply list_elem_of_here.
Qed.

Lemma entries_Permutation {A} (o : list (string * A)) : entries o ≡ₚ o.
Proof.
  unfold entries. rewrite merge_sort_Permutation. apply filter_app_complement.
Qed.

Lemma elem_of_object_keys {A} (o : list (string * A)) (k : string) :
  k ∈ object_keys o <-> k ∈ keys o.
Proof. unfold object_keys, keys. by rewrite (entries_Permutation o). Qed.

(** Without array indices among the keys, the entries are enumerated in
    the order in which they were written. *)
Lemma entries_no_index {A} (o : list (string * A)) :
  Forall (fun k => array_index k = None) (keys o) -> entries o = o.
Proof.
  intros Hall. unfold entries.
  assert (filter (fun e : string * A => is_Some (array_index e.1)) o = []
          /\ filter (fun e : string * A => ~ is_Some (array_index e.1)) o = o)
    as [-> ->]; [|done].
  induction o as [|[k x] o IH]; [done|].
  apply Forall_cons in Hall as [Hk Hall]. destruct (IH Hall) as [IH1 IH2].
  rewrite !filter_cons, IH1, IH2. simpl in *.
  assert (~ is_Some (array_index k)) as Hno by (rewrite Hk; by intros [? [=]]).
  split; repeat case_decide; done.
Qed.

(** The properties compiled from a tool's inputs.  Whatever the inputs,
    [properties] has an entry for a key exactly when the key is an input of
    the tool.  When no key is declared twice, the entries were added one
    per input in the order in which [Object.entries] enumerates the inputs
    (array-index keys first, by ascending index, then the others as
    declared), each with type ['number'] for a number input and ['string']
    for a string or boolean input, and [required] lists the same keys in
    the same order; the OpenAI and the Anthropic compilation carry the same
    properties.  When no key is an array index, that order is the order of
    declaration. *)
Theorem compiled_properties {W Out} (tool : Compiler.ToolDefinition W Out) :
  let properties := OpenAI.properties (OpenAI.parameters (compileToOpenAI tool)) in
  let required := OpenAI.required (OpenAI.parameters (compileToOpenAI tool)) in
  (forall k, k ∈ keys properties <-> k ∈ keys (Compiler.input tool))
  /\ Anthropic.properties (Anthropic.parameters (compileToAnthropic tool)) = properties
  /\ Anthropic.required (Anthropic.parameters (compileToAnthropic tool)) = required
  /\ required = keys (entries (Compiler.input tool))
  /\ (NoDup (keys (Compiler.input tool)) ->
      keys properties = required
      /\ properties =
           map (fun e => (e.1,
                          {| type := match e.2 with
                                     | Compiler.number_t => "number"
                                     | _ => "string"
                                     end;
                             description :=
                               Some ("Parameter " +:+ e.1 +:+ " of type "
                                       +:+ type_name e.2) |}))
             (entries (Compiler.input tool)))
  /\ (Forall (fun k => array_index k = None) (keys (Compiler.input tool)) ->
      entries (Compiler.input tool) = Compiler.input tool).
Proof.
  simpl. split; [|split; [done|split; [done|split; [done|split]]]].
  - intros k. unfold reduce_properties. rewrite fold_assign_keys.
    unfold keys at 1. simpl. rewrite elem_of_nil.
    fold (object_keys (Compiler.input tool)). rewrite elem_of_object_keys. tauto.
  - intros Hnd. unfold reduce_properties.
    rewrite (fold_assign_nodup (entries (Compiler.input tool)) []).
    + simpl. split; [|done]. unfold object_keys, keys.
      rewrite <- list_fmap_compose. by apply list_fmap_ext.
    + simpl. unfold keys. by rewrite (entries_Permutation (Compiler.input tool)).
  - apply entries_no_index.
Qed.

(** Array-index keys are enumerated first, by ascending index, wherever
    they were declared. *)
Example entries_index_keys_first :
  entries [("zeta", Compiler.string_t); ("2", Compiler.number_t);
           ("10", Compiler.boolean_t); ("1", Compiler.number_t);
           ("01", Compiler.string_t)] =
    [("1", Compiler.number_t); ("2", Compiler.number_t);
     ("10", Compiler.boolean_t); ("zeta", Compiler.string_t);
     ("01", Compiler.string_t)].
Proof. reflexivity. Qed.

(** [validateTool] accepts a tool exactly when its name and its
    description are not empty and it declares at least one input: the
    final test that every input key is handled by both compilations never
    fails. *)
Theorem validateTool_iff {W Out} (tool : Compiler.ToolDefinition W Out) :
  validateTool tool = true <->
  Compiler.name tool <> "" /\ Compiler.description tool <> ""
  /\ Compiler.input tool <> [].
Proof.
  unfold validateTool, empty_string.
  destruct (decide (Compiler.name tool = "")) as [Hn|Hn].
  { rewrite bool_decide_eq_true_2 by done. simpl. split; [done|tauto]. }
  destruct (decide (Compiler.description tool = "")) as [Hd|Hd].
  { rewrite (bool_decide_eq_true_2 (Compiler.description tool = "")) by done.
    rewrite orb_true_r. split; [done|tauto]. }
  rewrite !bool_decide_eq_false_2 by done. simpl.
  assert (length (object_keys (Compiler.input tool)) =
          length (Compiler.input tool)) as Hlen.
  { unfold object_keys, keys.
    by rewrite length_fmap, (entries_Permutation (Compiler.input tool)). }
  rewrite Hlen.
  destruct (Compiler.input tool) as [|e input] eqn:Hin; simpl.
  { split; [done|]. tauto. }
  split; [done|]. intros _.
  assert (forallb (fun k => includes (object_keys (reduce_properties (e :: input))) k)
            (object_keys (e :: input)) = true) as ->; [|done].
  apply forallb_forall. intros k Hk%list_elem_of_In.
  unfold includes. apply bool_decide_eq_true.
  rewrite elem_of_object_keys in Hk. rewrite elem_of_object_keys.
  unfold reduce_properties. rewrite fold_assign_keys. right.
  fold (object_keys (e :: input)). by rewrite elem_of_object_keys.
Qed.

(** The test 'compiles to OpenAI format' of the integer-stream tools. *)
Example getCurrentValue_compiled :
  compileToOpenAI IntStream.getCurrentValue =
    {| OpenAI.name := "get_current_value";
       OpenAI.description := "Get current value of the integer stream";
       OpenAI.parameters :=
         {| OpenAI.type := "object";
            OpenAI.properties :=
              [ ("basedOnSequence",
                 {| type := "number";
                    description :=
                      Some "Parameter basedOnSequence of type number" |}) ];
            OpenAI.required := ["basedOnSequence"] |} |}.
Proof. reflexivity. Qed.

End CompileFacts.

(** ** The tool validator *)

Module ValidationFacts.
Import Js Protocol Validation.

#[local] Instance extends_refl : Reflexive extends.
Proof. intros v. exists []. by rewrite app_nil_r. Qed.

#[local] Instance extends_trans : Transitive extends.
Proof.
  intros v1 v2 v3 [es1 H1] [es2 H2]. exists (es1 ++ es2).
  by rewrite H2, H1, app_assoc.
Qed.

Lemma extends_elem_of (v v' : ToolValidator) (e : ValidationError.t) :
  extends v v' -> e ∈ errors v -> e ∈ errors v'.
Proof. intros [es ->] He. apply elem_of_app. by left. Qed.

Lemma extends_addError path message code v : extends v (addError path message code v).
Proof. by eexists. Qed.

Lemma extends_addWarning path message code v :
  extends v (addWarning path message code v).
Proof. exists []. simpl. by rewrite app_nil_r. Qed.

Lemma extends_when c step v :
  (forall v, extends v (step v)) -> extends v (when c step v).
Proof. intros Hstep. destruct c; simpl; [apply Hstep|reflexivity]. Qed.

Lemma extends_forEach_from {A} (i : nat) (l : list A) body v :
  (forall x i v, extends v (body x i v)) -> extends v (forEach_from i l body v).
Proof.
  intros Hbody. revert i v. induction l as [|x l IH]; intros i v; simpl.
  - reflexivity.
  - etrans; [apply (Hbody x i)|apply IH].
Qed.

Lemma extends_forEach {A} (l : option (list A)) body v :
  (forall x i v, extends v (body x i v)) -> extends v (forEach l body v).
Proof.
  intros Hbody. destruct l; simpl; [by apply extends_forEach_from|reflexivity].
Qed.

(** The validator only ever pushes: each step extends the validator. *)
Ltac extends_step :=
  cbv zeta beta;
  first
    [ reflexivity
    | lazymatch goal with
      | |- extends _ (addError _ _ _ ?w) =>
          transitivity w; [extends_step|apply extends_addError]
      | |- extends _ (addWarning _ _ _ ?w) =>
          transitivity w; [extends_step|apply extends_addWarning]
      | |- extends _ (when _ _ ?w) =>
          transitivity w; [extends_step|apply extends_when; intros; extends_step]
      | |- extends _ (forEach _ _ ?w) =>
          transitivity w; [extends_step|apply extends_forEach; intros; extends_step]
      | |- extends _ (match ?x with _ => _ end) => destruct x; extends_step
      end ].

Lemma extends_validateRequired tool v : extends v (validateRequired tool v).
Proof. unfold validateRequired. extends_step. Qed.

Lemma extends_validateDocumentation docs v :
  extends v (validateDocumentation docs v).
Proof. unfold validateDocumentation. extends_step. Qed.

Lemma extends_validateErrorHandling c v : extends v (validateErrorHandling c v).
Proof. unfold validateErrorHandling. extends_step. Qed.

Lemma extends_validateExecution x v : extends v (validateExecution x v).
Proof. unfold validateExecution. extends_step. Qed.

Lemma extends_validateState st v : extends v (validateState st v).
Proof. unfold validateState. extends_step. Qed.

Lemma extends_if_present {A} (x : option A) step v :
  (forall a v, extends v (step a v)) -> extends v (if_present x step v).
Proof. intros H. destruct x; simpl; [apply H|reflexivity]. Qed.

Lemma clean_addError path message code v : clean (addError path message code v) <-> False.
Proof. unfold clean. simpl. split; [|done]. by destruct (errors v). Qed.

Lemma clean_addWarning path message code v :
  clean (addWarning path message code v) <-> clean v.
Proof. done. Qed.

Lemma clean_when_error c path message code v :
  clean (when c (addError path message code) v) <-> clean v /\ c = false.
Proof.
  destruct c; simpl; [rewrite clean_addError|]; split; try tauto.
  by intros [_ ?].
Qed.

Lemma clean_when_warning c path message code v :
  clean (when c (addWarning path message code) v) <-> clean v.
Proof. by destruct c. Qed.

Lemma clean_forEach_from {A} (Q : A -> Prop) (i : nat) (l : list A) body v :
  (forall x i v, clean (body x i v) <-> clean v /\ Q x) ->
  clean (forEach_from i l body v) <-> clean v /\ Forall Q l.
Proof.
  intros Hbody. revert i v. induction l as [|x l IH]; intros i v; simpl.
  - split; [by split|by intros []].
  - rewrite IH, Hbody, Forall_cons. tauto.
Qed.

Lemma clean_forEach {A} (Q : A -> Prop) (l : option (list A)) body v :
  (forall x i v, clean (body x i v) <-> clean v /\ Q x) ->
  clean (forEach l body v) <-> clean v /\ forall l', l = Some l' -> Forall Q l'.
Proof.
  intros Hbody. destruct l as [l|]; simpl.
  - rewrite (clean_forEach_from Q) by done. split.
    + intros [? ?]. split; [done|]. by intros ? [= <-].
    + intros [? H]. split; [done|]. by apply H.
  - split; [by intros ?; split|by intros []].
Qed.

Lemma no_string_false (x : option string) :
  no_string x = false <-> exists s, x = Some s /\ s <> "".
Proof.
  destruct x as [s|]; simpl.
  - rewrite bool_decide_eq_false. split; [by eauto|]. by intros (? & [= <-] & ?).
  - split; [done|]. by intros (? & ? & ?).
Qed.

Lemma no_items_false {A} (x : option (list A)) :
  no_items x = false <-> exists l, x = Some l /\ l <> [].
Proof.
  destruct x as [l|]; simpl.
  - rewrite Nat.eqb_neq. split.
    + intros Hl. exists l. split; [done|]. by intros ->.
    + intros (? & [= <-] & Hl). by destruct l.
  - split; [done|]. by intros (? & ? & ?).
Qed.

Lemma missing_false {A} (x : option A) :
  negb (bool_decide (is_Some x)) = false <-> is_Some x.
Proof. by rewrite negb_false_iff, bool_decide_eq_true. Qed.

Lemma clean_validateRequired tool v :
  clean (validateRequired tool v) <->
  clean v
  /\ (exists s, ModernTool.version tool = Some s /\ s <> "")
  /\ is_Some (ModernTool.documentation tool)
  /\ is_Some (ModernTool.errors tool)
  /\ is_Some (ModernTool.execution tool).
Proof.
  unfold validateRequired. cbv zeta.
  rewrite !clean_when_error, !missing_false, no_string_false. tauto.
Qed.

Lemma clean_validateDocumentation docs v :
  clean (validateDocumentation docs v) <-> clean v /\ sound_documentation docs.
Proof.
  unfold validateDocumentation, sound_documentation. cbv zeta.
  rewrite <- no_string_false.
  assert (forall w, (clean w /\ forall cost,
              Documentation.costImplications docs = Some cost ->
              is_number (CostInfo.estimatedCostPerCall cost) = true) <->
            clean (match Documentation.costImplications docs with
                   | Some cost =>
                       when (negb (is_number (CostInfo.estimatedCostPerCall cost)))
                         (addError ["documentation"; "costImplications";
                                    "estimatedCostPerCall"]
                            "Cost per call must be a number" INVALID_TYPE) w
                   | None =>
                       addWarning ["documentation"; "costImplications"]
                         "Cost implications are recommended" MISSING_RECOMMENDED w
                   end)) as Hcost.
  { intros w. destruct (Documentation.costImplications docs) as [cost|].
    - rewrite clean_when_error, negb_false_iff. split.
      + intros [? H]. split; [done|]. by apply H.
      + intros [? H]. split; [done|]. by intros ? [= <-].
    - rewrite clean_addWarning. split; [by intros []|]. by intros ?; split. }
  rewrite <- Hcost, !clean_when_warning.
  destruct (no_string (Documentation.description docs)).
  - rewrite clean_addError. split; [by intros [[] _]|]. by intros (_ & ? & _).
  - destruct (_ <? _)%nat; rewrite ?clean_addWarning; tauto.
Qed.

Lemma retry_check_false (l : option (list ErrorType.t))
    (r : option (list RetryStrategy.t)) :
  existsb (fun e => truthy (ErrorType.isRetryable e)) (default [] l) && no_items r
    = false <->
  (forall l', l = Some l' ->
     Exists (fun e => truthy (ErrorType.isRetryable e) = true) l' ->
     exists r', r = Some r' /\ r' <> []).
Proof.
  split.
  - intros H l' -> Hex. apply andb_false_iff in H as [Hno|Hr].
    + exfalso. apply not_true_iff_false in Hno. apply Hno, existsb_exists.
      apply Exists_exists in Hex as (e & He & Ht). exists e.
      split; [by apply list_elem_of_In|done].
    + by apply no_items_false.
  - intros H. apply andb_false_iff.
    destruct (no_items r) eqn:Hr; [|by right]. left.
    apply not_true_iff_false. intros (e & He & Ht)%existsb_exists.
    destruct l as [l'|]; [|done]. simpl in He.
    destruct (H l' eq_refl) as (r' & Hr' & Hne).
    { apply Exists_exists. exists e. split; [by apply list_elem_of_In|done]. }
    assert (no_items r = false) as Hr2 by (apply no_items_false; eauto).
    congruence.
Qed.

Lemma clean_validateErrorHandling c v :
  clean (validateErrorHandling c v) <-> clean v /\ sound_errors c.
Proof.
  unfold validateErrorHandling, sound_errors. cbv zeta.
  rewrite clean_when_error, retry_check_false.
  rewrite (clean_forEach sound_error).
  - rewrite clean_when_error, no_items_false. split.
    + intros [[[Hv (l & Hl & Hne)] Hall] Hretry]. split; [done|].
      exists l. split; [done|]. split; [done|].
      split; [by apply Hall|by apply Hretry].
    + intros [Hv (l & Hl & Hne & Hall & Hretry)].
      split; [split; [split; [done|by exists l]|]|].
      * intros l' Hl'. by simplify_eq.
      * intros l' Hl'. by simplify_eq.
  - intros x i w. unfold sound_error.
    rewrite clean_when_warning, !clean_when_error, !no_string_false,
      negb_false_iff. tauto.
Qed.

Lemma clean_validateExecution x v :
  clean (validateExecution x v) <-> clean v /\ sound_execution x.
Proof.
  unfold validateExecution, sound_execution, below. cbv zeta.
  assert (forall n : number,
            le_number n 0 = false <-> n = NaN \/ lt_number 0 n = true) as Hlimit.
  { intros n. rewrite JsFacts.le_number_false. intuition congruence. }
  destruct (ExecutionConfig.parallelExecutionLimit x) as [n|],
    (ExecutionConfig.estimatedDuration x) as [d|];
    rewrite !clean_when_error, ?negb_false_iff, ?JsFacts.ge_number_false, ?Hlimit.
  - split.
    + intros [[[[? ?] ?] ?] ?]. repeat split; try done; by intros ? [= <-].
    + intros (? & ? & ? & Hd & Hn). repeat split; try done; [by apply Hd|by apply Hn].
  - split.
    + intros [[[? ?] ?] ?]. repeat split; try done. by intros ? [= <-].
    + intros (? & ? & ? & Hd & Hn). repeat split; try done. by apply Hn.
  - split.
    + intros [[[? ?] ?] ?]. repeat split; try done. by intros ? [= <-].
    + intros (? & ? & ? & Hd & Hn). repeat split; try done. by apply Hd.
  - split.
    + intros [[? ?] ?]. repeat split; done.
    + intros (? & ? & ? & Hd & Hn). repeat split; done.
Qed.

Lemma clean_validateState st v :
  clean (validateState st v) <-> clean v /\ sound_state st.
Proof.
  unfold validateState, sound_state. cbv zeta.
  rewrite (clean_forEach sound_effect).
  - rewrite clean_when_warning, clean_when_error, negb_false_iff. tauto.
  - intros x i w. unfold sound_effect.
    rewrite !clean_when_error, no_string_false, negb_false_iff. tauto.
Qed.

Lemma clean_if_present {A} (Q : A -> Prop) (x : option A) step v :
  (forall a v, clean (step a v) <-> clean v /\ Q a) ->
  clean (if_present x step v) <-> clean v /\ forall a, x = Some a -> Q a.
Proof.
  intros Hstep. destruct x as [a|]; simpl.
  - rewrite Hstep. split.
    + intros [? ?]. split; [done|]. by intros ? [= <-].
    + intros [? H]. split; [done|]. by apply H.
  - split; [by intros ?; split|by intros []].
Qed.

(** The errors of [validateTool(tool)] are those of the validator at the
    end of [validate]. *)
Lemma validateTool_errors tool :
  ValidationResult.errors (validateTool tool) =
    errors (if_present (ModernTool.state tool) validateState
      (if_present (ModernTool.execution tool) validateExecution
        (if_present (ModernTool.errors tool) validateErrorHandling
          (if_present (ModernTool.documentation tool) validateDocumentation
            (validateRequired tool {| errors := []; warnings := [] |}))))).
Proof. reflexivity. Qed.

Lemma validateTool_isValid tool :
  ValidationResult.isValid (validateTool tool) = true <->
  ValidationResult.errors (validateTool tool) = [].
Proof.
  unfold validateTool, validate. simpl. rewrite Nat.eqb_eq.
  by rewrite length_zero_iff_nil.
Qed.

(** A tool is valid exactly when: it has a non-empty version; its
    documentation is there with a non-empty description and, if it names
    cost implications, a numeric cost per call; its error configuration is
    there with at least one possible error, each with a non-empty code and
    description and a boolean [isRetryable], and with at least one retry
    strategy if some possible error is retryable; its execution
    configuration is there with boolean [canBeCancelled] and
    [supportsProgress], a duration, if any, with [min < max] or with one of
    the two missing or [NaN], and a parallel limit, if any, above 0 or
    [NaN]; and its state section, which may be absent, has
    a boolean [persistsBetweenCalls] and side effects each with a non-empty
    description and a boolean [isReversible].  Nothing that only produces a
    warning makes a tool invalid. *)
Theorem validateTool_valid_iff (tool : ModernTool.t) :
  ValidationResult.isValid (validateTool tool) = true <-> sound_tool tool.
Proof.
  rewrite validateTool_isValid, validateTool_errors. fold (clean).
  change (errors ?v = []) with (clean v).
  rewrite (clean_if_present sound_state) by apply clean_validateState.
  rewrite (clean_if_present sound_execution) by apply clean_validateExecution.
  rewrite (clean_if_present sound_errors) by apply clean_validateErrorHandling.
  rewrite (clean_if_present sound_documentation)
    by apply clean_validateDocumentation.
  rewrite clean_validateRequired. unfold sound_tool, clean. simpl. split.
  - intros [[[[(_ & Hv & [d Hd] & [c Hc] & [x Hx]) Hdoc] Herr] Hexec] Hstate].
    split; [done|]. split; [by eauto|]. split; [by eauto|]. by eauto.
  - intros (Hv & (d & Hd & Hdoc) & (c & Hc & Herr) & (x & Hx & Hexec) & Hstate).
    split; [split; [split; [split|]|]|].
    + split; [done|]. split; [done|]. split; [by exists d|].
      split; [by exists c|by exists x].
    + intros a Ha. by simplify_eq.
    + intros a Ha. by simplify_eq.
    + intros a Ha. by simplify_eq.
    + exact Hstate.
Qed.

Lemma validateTool_extends tool v (x : ValidationError.t) :
  x ∈ errors (if_present (ModernTool.errors tool) validateErrorHandling v) ->
  ValidationResult.errors
    (fst (validate tool {| errors := []; warnings := [] |})) =
    errors (if_present (ModernTool.state tool) validateState
      (if_present (ModernTool.execution tool) validateExecution
        (if_present (ModernTool.errors tool) validateErrorHandling v))) ->
  x ∈ ValidationResult.errors (validateTool tool).
Proof.
  intros Hx Heq. unfold validateTool. rewrite Heq.
  eapply extends_elem_of; [|exact Hx].
  transitivity (if_present (ModernTool.execution tool) validateExecution
    (if_present (ModernTool.errors tool) validateErrorHandling v)).
  - apply extends_if_present, extends_validateExecution.
  - apply extends_if_present, extends_validateState.
Qed.

Lemma invalid_of_error tool (x : ValidationError.t) :
  x ∈ ValidationResult.errors (validateTool tool) ->
  ValidationResult.isValid (validateTool tool) = false.
Proof.
  intros Hx. apply not_true_iff_false. rewrite validateTool_isValid.
  intros Hnil. rewrite Hnil in Hx. by apply elem_of_nil in Hx.
Qed.

(** A tool with a possible error whose [isRetryable] is truthy, and with
    no retry strategy ([retryStrategies] missing or empty), is invalid: the
    errors of the result hold INCONSISTENT_STATE at
    [['errors', 'retryStrategies']].  A non-boolean truthy [isRetryable],
    such as a non-empty string, counts as retryable here. *)
Theorem retryable_needs_strategies (tool : ModernTool.t) (c : ErrorConfig.t)
    (l : list ErrorType.t) (e : ErrorType.t) :
  ModernTool.errors tool = Some c ->
  ErrorConfig.possibleErrors c = Some l ->
  e ∈ l ->
  truthy (ErrorType.isRetryable e) = true ->
  no_items (ErrorConfig.retryStrategies c) = true ->
  {| ValidationError.path := ["errors"; "retryStrategies"];
     ValidationError.message :=
       "Retry strategies required when retryable errors exist";
     ValidationError.code := INCONSISTENT_STATE |}
    ∈ ValidationResult.errors (validateTool tool)
  /\ ValidationResult.isValid (validateTool tool) = false.
Proof.
  intros Hc Hl He Ht Hr.
  match goal with |- ?x ∈ _ /\ _ =>
    assert (x ∈ ValidationResult.errors (validateTool tool)) as Hin end.
  { eapply validateTool_extends; [|reflexivity].
    rewrite Hc. simpl. unfold validateErrorHandling. cbv zeta.
    rewrite Hr, Hl. simpl.
    assert (existsb (fun e => truthy (ErrorType.isRetryable e)) l = true) as ->.
    { apply existsb_exists. exists e. by rewrite <- list_elem_of_In. }
    simpl. apply elem_of_app. right. apply list_elem_of_here. }
  split; [exact Hin|]. by apply (invalid_of_error tool _ Hin).
Qed.

Lemma retryable_needs_strategies_witness :
  let e := {| ErrorType.code := Some "TEST";
              ErrorType.description := Some "Test";
              ErrorType.isRetryable := VString "maybe";
              ErrorType.suggestedUserMessage := Some "Test" |} in
  let c := {| ErrorConfig.possibleErrors := Some [e];
              ErrorConfig.retryStrategies := Some [];
              ErrorConfig.fallbackBehavior := None |} in
  let tool := {| ModernTool.version := Some "1.0.0";
                 ModernTool.deprecatedAfter := None;
                 ModernTool.documentation := ModernTool.documentation exampleTool;
                 ModernTool.errors := Some c;
                 ModernTool.execution := ModernTool.execution exampleTool;
                 ModernTool.state := ModernTool.state exampleTool |} in
  {| ValidationError.path := ["errors"; "retryStrategies"];
     ValidationError.message :=
       "Retry strategies required when retryable errors exist";
     ValidationError.code := INCONSISTENT_STATE |}
    ∈ ValidationResult.errors (validateTool tool)
  /\ ValidationResult.isValid (validateTool tool) = false.
Proof.
  intros e c tool.
  apply (retryable_needs_strategies tool c [e] e); try reflexivity.
  apply list_elem_of_here.
Defined.

Lemma elem_of_when c step w (err : ValidationError.t) :
  (forall v, extends v (step v)) -> err ∈ errors w -> err ∈ errors (when c step w).
Proof. intros Hstep. apply extends_elem_of. by apply extends_when. Qed.

Lemma forEach_from_elem_of {A} (start i : nat) (l : list A) (x : A) body v
    (err : ValidationError.t) :
  l !! i = Some x ->
  (forall v, err ∈ errors (body x (start + i)%nat v)) ->
  (forall x i v, extends v (body x i v)) ->
  err ∈ errors (forEach_from start l body v).
Proof.
  intros Hx Herr Hext. revert start i v Hx Herr.
  induction l as [|y l IH]; intros start i v Hx Herr; [done|].
  destruct i as [|i]; simpl in *.
  - injection Hx as ->. rewrite Nat.add_0_r in Herr.
    eapply extends_elem_of; [by apply extends_forEach_from|apply Herr].
  - apply (IH (S start) i); [done|]. intros v'.
    by replace (S start + i)%nat with (start + S i)%nat by lia.
Qed.

(** Each problem of an entry of [possibleErrors] is reported under the
    index of the entry, written in decimal: a missing or empty [code] or
    [description] as MISSING_REQUIRED at
    [['errors', 'possibleErrors', index, 'code']] (or ['description']), an
    [isRetryable] that is not a boolean as INVALID_TYPE at
    [['errors', 'possibleErrors', index, 'isRetryable']]. *)
Theorem possible_error_reported (tool : ModernTool.t) (c : ErrorConfig.t)
    (l : list ErrorType.t) (i : nat) (e : ErrorType.t) :
  ModernTool.errors tool = Some c ->
  ErrorConfig.possibleErrors c = Some l ->
  l !! i = Some e ->
  (no_string (ErrorType.code e) = true ->
   {| ValidationError.path := ["errors"; "possibleErrors"; pretty i; "code"];
      ValidationError.message := "Error code is required";
      ValidationError.code := MISSING_REQUIRED |}
     ∈ ValidationResult.errors (validateTool tool))
  /\ (no_string (ErrorType.description e) = true ->
      {| ValidationError.path :=
           ["errors"; "possibleErrors"; pretty i; "description"];
         ValidationError.message := "Error description is required";
         ValidationError.code := MISSING_REQUIRED |}
        ∈ ValidationResult.errors (validateTool tool))
  /\ (is_boolean (ErrorType.isRetryable e) = false ->
      {| ValidationError.path :=
           ["errors"; "possibleErrors"; pretty i; "isRetryable"];
         ValidationError.message := "isRetryable must be a boolean";
         ValidationError.code := INVALID_TYPE |}
        ∈ ValidationResult.errors (validateTool tool)).
Proof.
  intros Hc Hl He.
  assert (forall err,
            (forall v, err ∈ errors
               (when (no_string (ErrorType.suggestedUserMessage e))
                  (addWarning ["errors"; "possibleErrors"; pretty i;
                               "suggestedUserMessage"]
                     "User message is recommended" MISSING_RECOMMENDED)
               (when (negb (is_boolean (ErrorType.isRetryable e)))
                  (addError ["errors"; "possibleErrors"; pretty i; "isRetryable"]
                     "isRetryable must be a boolean" INVALID_TYPE)
               (when (no_string (ErrorType.description e))
                  (addError ["errors"; "possibleErrors"; pretty i; "description"]
                     "Error description is required" MISSING_REQUIRED)
               (when (no_string (ErrorType.code e))
                  (addError ["errors"; "possibleErrors"; pretty i; "code"]
                     "Error code is required" MISSING_REQUIRED) v))))) ->
            err ∈ ValidationResult.errors (validateTool tool)) as Hlift.
  { intros err Herr. eapply validateTool_extends; [|reflexivity].
    rewrite Hc. simpl. unfold validateErrorHandling. cbv zeta.
    eapply extends_elem_of; [apply extends_when; intros; apply extends_addError|].
    rewrite Hl. simpl.
    apply (forEach_from_elem_of 0 i l e); [done|exact Herr|].
    intros. extends_step. }
  split; [|split]; intros Hbad; apply Hlift; intros v; rewrite Hbad.
  - do 3 (apply elem_of_when; [intros; extends_step|]).
    simpl. apply elem_of_app. right. apply list_elem_of_here.
  - do 2 (apply elem_of_when; [intros; extends_step|]).
    simpl. apply elem_of_app. right. apply list_elem_of_here.
  - apply elem_of_when; [intros; extends_step|].
    simpl. apply elem_of_app. right. apply list_elem_of_here.
Qed.

Lemma possible_error_reported_witness :
  let e := {| ErrorType.code := Some "TEST";
              ErrorType.description := Some "Test";
              ErrorType.isRetryable := VString "maybe";
              ErrorType.suggestedUserMessage := Some "Test" |} in
  let c := {| ErrorConfig.possibleErrors := Some [e];
              ErrorConfig.retryStrategies := Some [];
              ErrorConfig.fallbackBehavior := None |} in
  let tool := {| ModernTool.version := Some "1.0.0";
                 ModernTool.deprecatedAfter := None;
                 ModernTool.documentation := ModernTool.documentation exampleTool;
                 ModernTool.errors := Some c;
                 ModernTool.execution := ModernTool.execution exampleTool;
                 ModernTool.state := ModernTool.state exampleTool |} in
  {| ValidationError.path := ["errors"; "possibleErrors"; "0"; "isRetryable"];
     ValidationError.message := "isRetryable must be a boolean";
     ValidationError.code := INVALID_TYPE |}
    ∈ ValidationResult.errors (validateTool tool).
Proof.
  intros e c tool.
  destruct (possible_error_reported tool c [e] 0 e) as (_ & _ & H);
    try reflexivity.
  by apply H.
Defined.

(** [validateTool(exampleTool)]: valid, with the two warnings for the
    short description and the missing cost implications. *)
Example exampleTool_validated :
  validateTool exampleTool =
    {| ValidationResult.isValid := true;
       ValidationResult.errors := [];
       ValidationResult.warnings :=
         [ {| ValidationWarning.path := ["documentation"; "description"];
              ValidationWarning.message :=
                "Description should be detailed (50+ characters)";
              ValidationWarning.code := BEST_PRACTICE |};
           {| ValidationWarning.path := ["documentation"; "costImplications"];
              ValidationWarning.message := "Cost implications are recommended";
              ValidationWarning.code := MISSING_RECOMMENDED |} ] |}.
Proof. reflexivity. Qed.

(** The test 'should fail for missing required fields': a tool with a
    version only. *)
Example version_only_validated :
  validateTool {| ModernTool.version := Some "1.0.0";
                  ModernTool.deprecatedAfter := None;
                  ModernTool.documentation := None;
                  ModernTool.errors := None;
                  ModernTool.execution := None;
                  ModernTool.state := None |} =
    {| ValidationResult.isValid := false;
       ValidationResult.errors :=
         [ {| ValidationError.path := ["documentation"];
              ValidationError.message := "Documentation is required";
              ValidationError.code := MISSING_REQUIRED |};
           {| ValidationError.path := ["errors"];
              ValidationError.message := "Error configuration is required";
              ValidationError.code := MISSING_REQUIRED |};
           {| ValidationError.path := ["execution"];
              ValidationError.message := "Execution configuration is required";
              ValidationError.code := MISSING_REQUIRED |} ];
       ValidationResult.warnings := [] |}.
Proof. reflexivity. Qed.

End ValidationFacts.

(** ** The cursor-event rate limit *)

Module RateLimitingFacts.
Import Js RateLimiting.

Lemma run_snoc (calls : list (Z * Object)) (c : Z * Object) (st : State) :
  run (calls ++ [c]) st = emitCursorEvent (fst c) (snd c) (run calls st).
Proof. unfold run. by rewrite fold_left_app. Qed.

Lemma spaced_snoc (from t : Z) (times : list Z) :
  spaced from (times ++ [t]) <->
  spaced from times /\ RATE_LIMIT_MS <= t - default from (last times).
Proof.
  revert from. induction times as [|x times IH]; intros from; simpl.
  - tauto.
  - rewrite IH, last_cons. destruct (last times); simpl; tauto.
Qed.

Lemma spaced_last (from : Z) (times : list Z) :
  spaced from times ->
  from + RATE_LIMIT_MS * Z.of_nat (length times) <= default from (last times).
Proof.
  revert from. induction times as [|x times IH]; intros from; simpl.
  - lia.
  - intros [Hx Hrest]. specialize (IH x Hrest). rewrite last_cons.
    destruct (last times); simpl in *; lia.
Qed.

(** What every run from the initial state keeps true. *)
Lemma run_invariant (calls : list (Z * Object)) :
  let st := run calls initial in
  spaced 0 (map fst (emitted st))
  /\ lastEventTime st = default 0 (last (map fst (emitted st)))
  /\ emitted st `sublist_of` calls.
Proof.
  induction calls as [|[now event] calls IH] using rev_ind; [done|].
  rewrite run_snoc. simpl in *. destruct IH as (Hsp & Hlast & Hsub).
  unfold emitCursorEvent. simpl.
  destruct (now - lastEventTime (run calls initial) <? RATE_LIMIT_MS) eqn:Hnow.
  - split; [done|]. split; [done|]. by apply sublist_inserts_r.
  - apply Z.ltb_ge in Hnow. simpl. rewrite map_app. simpl.
    rewrite last_snoc. simpl. split; [|split; [done|]].
    + apply spaced_snoc. split; [done|]. by rewrite <- Hlast.
    + by apply sublist_app.
Qed.

(** Whatever the calls and their clock readings, from the initial state:
    the events passed on to the bus are calls that were made, in the order
    they were made; the first is passed at a reading of 1000 or more and
    each next one at least 1000 ms after the one before; so when no reading
    exceeds [hi], at most [hi / 1000] events are passed on. *)
Theorem cursor_events_spaced (calls : list (Z * Object)) :
  let st := run calls initial in
  emitted st `sublist_of` calls
  /\ spaced 0 (map fst (emitted st))
  /\ forall hi, Forall (fun c => fst c <= hi) calls ->
       RATE_LIMIT_MS * Z.of_nat (length (emitted st)) <= Z.max hi 0.
Proof.
  destruct (run_invariant calls) as (Hsp & Hlast & Hsub). simpl in *.
  split; [done|]. split; [done|]. intros hi Hhi.
  pose proof (spaced_last 0 _ Hsp) as Hbound. rewrite length_map in Hbound.
  destruct (last (map fst (emitted (run calls initial)))) as [t|] eqn:Ht;
    simpl in Hbound; [|lia].
  assert (t <= hi); [|lia].
  apply last_Some_elem_of, list_elem_of_fmap in Ht as ([t' e] & -> & Hin).
  rewrite Forall_forall in Hhi.
  by apply (Hhi (t', e)), (elem_of_sublist _ _ _ Hin Hsub).
Qed.

End RateLimitingFacts.

(** ** The event bus *)

Module EventBusFacts.
Import Js EventBus.

Lemma filter_ext_elem_of {A} (P Q : A -> Prop) `{!forall x, Decision (P x)}
    `{!forall x, Decision (Q x)} (l : list A) :
  (forall x, x ∈ l -> (P x <-> Q x)) -> filter P l = filter Q l.
Proof.
  induction l as [|x l IH]; intros Hext; [done|].
  rewrite !filter_cons.
  rewrite IH by (intros y Hy; apply Hext; by apply list_elem_of_further).
  pose proof (Hext x (list_elem_of_here _ _)) as Hx.
  destruct (decide (P x)), (decide (Q x)); tauto.
Qed.

Lemma filter_ext_all {A} (P : A -> Prop) `{!forall x, Decision (P x)} (l : list A) :
  (forall x, x ∈ l -> P x) -> filter P l = l.
Proof.
  induction l as [|x l IH]; intros Hall; [done|].
  rewrite filter_cons_True by apply Hall, list_elem_of_here.
  rewrite IH; [done|]. intros y Hy. by apply Hall, list_elem_of_further.
Qed.


(** Whatever the handlers do, calling them leaves the callers' functions
    and the serial numbers as they are and registers no handler. *)
Lemma forEach_keeps (type : string) (event : Event) (hs : list Handler) (w : World) :
  functions (snd (forEach type event hs w)) = functions w
  /\ next_serial (bus (snd (forEach type event hs w))) = next_serial (bus w)
  /\ forall type' l',
       handlers (bus (snd (forEach type event hs w))) !! type' = Some l' ->
       exists l, handlers (bus w) !! type' = Some l /\ forall x, x ∈ l' -> x ∈ l.
Proof.
  revert w. induction hs as [|h hs IH]; intros w; simpl.
  - split; [done|]. split; [done|]. intros type' l' Hl'. by exists l'.
  - assert (functions (snd (call type event h w)) = functions w
            /\ next_serial (bus (snd (call type event h w))) = next_serial (bus w)
            /\ forall type' l',
                 handlers (bus (snd (call type event h w))) !! type' = Some l' ->
                 exists l, handlers (bus w) !! type' = Some l
                           /\ forall x, x ∈ l' -> x ∈ l) as (Hf & Hn & Hh).
    { unfold call. destruct (functions w (calls w) (callee h) event) as [e|];
        [simpl; by eauto|].
      destruct h as [f|k f]; simpl; [by eauto|].
      split; [done|]. split; [done|]. intros type' l' Hl'.
      destruct (decide (type = type')) as [<-|Hne].
      - rewrite lookup_alter_eq in Hl'.
        destruct (handlers (bus w) !! type) as [l|]; [|done].
        injection Hl' as <-. exists l. split; [done|].
        by intros x [_ Hx]%list_elem_of_filter.
      - rewrite lookup_alter_ne in Hl' by done. by eauto. }
    destruct (call type event h w) as [[e|] w1]; simpl in *; [by eauto|].
    destruct (IH w1) as (Hf1 & Hn1 & Hh1).
    split; [congruence|]. split; [congruence|].
    intros type' l' Hl'. destruct (Hh1 type' l' Hl') as (l1 & Hl1 & Hsub1).
    destruct (Hh type' l1 Hl1) as (l & Hl & Hsub). exists l. split; [done|].
    intros x Hx. by apply Hsub, Hsub1.
Qed.

(** Calling handlers that all return: each call is logged, and of a
    handler list what is left are the handlers that are not closures made
    by [once] among those called. *)
Lemma forEach_returns (type : string) (event : Event) (hs : list Handler) (w : World) :
  (forall h log, h ∈ hs -> functions w log (callee h) event = None) ->
  fst (forEach type event hs w) = None
  /\ calls (snd (forEach type event hs w)) =
       calls w ++ map (fun h => (callee h, event)) hs
  /\ functions (snd (forEach type event hs w)) = functions w
  /\ forall type',
       handlers (bus (snd (forEach type event hs w))) !! type' =
         if decide (type = type')
         then filter (fun h => is_plain h = true \/ h ∉ hs)
                <$> handlers (bus w) !! type'
         else handlers (bus w) !! type'.
Proof.
  revert w. induction hs as [|h hs IH]; intros w Hret.
  - simpl. rewrite app_nil_r. split; [done|]. split; [done|]. split; [done|].
    intros type'. case_decide; [|done].
    destruct (handlers (bus w) !! type') as [l|]; [|done]. simpl. f_equal.
    symmetry. apply filter_ext_all. intros x _. right. apply not_elem_of_nil.
  - cbn [forEach]. unfold call.
    rewrite (Hret h (calls w) (list_elem_of_here _ _)).
    set (w1 := {| bus := bus w; calls := calls w ++ [(callee h, event)];
                  functions := functions w |}).
    set (w2 := {| bus := unsubscribe type h (bus w);
                  calls := calls w ++ [(callee h, event)];
                  functions := functions w |}).
    assert (forall w', functions w' = functions w ->
              forall h' log, h' ∈ hs -> functions w' log (callee h') event = None)
      as Hret'.
    { intros w' -> h' log Hh'. apply Hret. by apply list_elem_of_further. }
    destruct h as [f|k f].
    + destruct (IH w1 (Hret' w1 eq_refl)) as (Ho & Hc & Hf & Hh).
      split; [done|]. split; [|split; [done|]].
      * rewrite Hc. simpl. by rewrite <- app_assoc.
      * intros type'. rewrite Hh. simpl. case_decide; [|done].
        destruct (handlers (bus w) !! type') as [l|]; [|done]. simpl. f_equal.
        apply list_filter_iff. intros x. rewrite not_elem_of_cons.
        split; [|tauto]. intros [Hp|Hx]; [by left|].
        destruct (decide (x = plain f)) as [->|Hne]; [by left|by right].
    + destruct (IH w2 (Hret' w2 eq_refl)) as (Ho & Hc & Hf & Hh).
      split; [done|]. split; [|split; [done|]].
      * rewrite Hc. simpl. by rewrite <- app_assoc.
      * intros type'. rewrite Hh. simpl. case_decide as Ht.
        2:{ by rewrite lookup_alter_ne. }
        subst type'. rewrite lookup_alter_eq.
        destruct (handlers (bus w) !! type) as [l|]; [|done]. simpl. f_equal.
        rewrite list_filter_filter. apply list_filter_iff. intros x.
        rewrite not_elem_of_cons. split.
        -- intros [[Hp|Hx] Hne]; [by left|by right].
        -- intros [Hp|[Hne Hx]]; [|by split; [right|]].
           split; [by left|]. intros ->. discriminate Hp.
Qed.


(** What [emit] does under a name that is not inherited, when the
    handlers registered for it return. *)
Lemma emit_effect (type : string) (payload : Object)
    (random_id : string) (now : Z) (w : World) (type' : string) :
  let event := {| id := random_id; timestamp := now; source := "tool";
                  EventBus.type := type; payload := payload |} in
  inherited type = false ->
  (forall h log, h ∈ default [] (handlers (bus w) !! type) ->
     functions w log (callee h) event = None) ->
  fst (emit type payload random_id now w) = None
  /\ calls (snd (emit type payload random_id now w)) =
       calls w ++ map (fun h => (callee h, event))
                    (default [] (handlers (bus w) !! type))
  /\ functions (snd (emit type payload random_id now w)) = functions w
  /\ handlers (bus (snd (emit type payload random_id now w))) !! type' =
       if decide (type = type')
       then filter (fun h => is_plain h = true) <$> (handlers (bus w) !! type')
       else handlers (bus w) !! type'.
Proof.
  intros event Hown Hret. unfold emit. rewrite Hown.
  destruct (forEach_returns type event (default [] (handlers (bus w) !! type)) w Hret)
    as (Ho & Hc & Hf & Hh).
  split; [exact Ho|]. split; [exact Hc|]. split; [exact Hf|].
  fold event. rewrite Hh. case_decide as Ht; [subst type'|done].
  destruct (handlers (bus w) !! type) as [l|]; [|done]. simpl. f_equal.
  apply filter_ext_elem_of. intros x Hx. tauto.
Qed.

(** Under a name that is not inherited, when the handlers registered for
    it return, [emit(type, payload)] returns after calling these handlers,
    and only those, once each and in the order they were registered, all
    with the same event.  Afterwards the closures made by [once] are no
    longer registered for [type], the other handlers still are, in the same
    order, and the handlers of every other type are untouched. *)
Theorem emit_calls_registered (type : string) (payload : Object)
    (random_id : string) (now : Z) (w : World) :
  let event := {| id := random_id; timestamp := now; source := "tool";
                  EventBus.type := type; payload := payload |} in
  let registered := default [] (handlers (bus w) !! type) in
  let w' := snd (emit type payload random_id now w) in
  inherited type = false ->
  (forall h log, h ∈ registered -> functions w log (callee h) event = None) ->
  fst (emit type payload random_id now w) = None
  /\ calls w' = calls w ++ map (fun h => (callee h, event)) registered
  /\ handlers (bus w') !! type =
       (filter (fun h => is_plain h = true) <$> handlers (bus w) !! type)
  /\ forall type', type' <> type ->
       handlers (bus w') !! type' = handlers (bus w) !! type'.
Proof.
  intros event registered w' Hown Hret. unfold w', event, registered.
  split; [|split; [|split]].
  - by apply (emit_effect type payload random_id now w type).
  - by apply (emit_effect type payload random_id now w type).
  - destruct (emit_effect type payload random_id now w type Hown Hret)
      as (_ & _ & _ & ->).
    by rewrite decide_True.
  - intros type' Hne.
    destruct (emit_effect type payload random_id now w type' Hown Hret)
      as (_ & _ & _ & ->).
    by rewrite decide_False.
Qed.

(** Two handlers, the second registered with [once], and one event. *)
Lemma emit_calls_registered_witness :
  let event := {| id := "k3j9x0a1b"; timestamp := 1700000000000; source := "tool";
                  EventBus.type := "tool.complete"; payload := ∅ |} in
  let w := {| bus := {| handlers := {[ "tool.complete" := [plain 7; one_shot 0 8] ]};
                        next_serial := 1 |};
              calls := []; functions := fun _ _ _ => None |} in
  let w' := snd (emit "tool.complete" ∅ "k3j9x0a1b" 1700000000000 w) in
  calls w' = [(7%nat, event); (8%nat, event)]
  /\ handlers (bus w') !! "tool.complete" = Some [plain 7].
Proof.
  intros event w w'.
  destruct (emit_calls_registered "tool.complete" ∅ "k3j9x0a1b" 1700000000000 w)
    as (_ & Hc & Hh & _); [reflexivity|done|].
  split; [exact Hc|exact Hh].
Defined.

(** Under a name that is not inherited, the function returned by [on]
    removes every registration of the handler for that type, not only the
    one it was returned for: after registering a handler twice and
    unsubscribing once, the handler is not registered any more, even where
    it had been registered before; the other handlers of the type keep
    their order and the other types are untouched. *)
Theorem unsubscribe_removes_every_registration (type : string) (h : Handler)
    (this : SimpleEventBus) :
  inherited type = false ->
  exists this1 this2,
    on type h this = inr this1
    /\ on type h this1 = inr this2
    /\ let before := default [] (handlers this !! type) in
       let this' := unsubscribe type h this2 in
       handlers this' !! type = Some (filter (fun h' => h' <> h) before)
       /\ (h ∉ default [] (handlers this' !! type))
       /\ forall type', type' <> type ->
            handlers this' !! type' = handlers this !! type'.
Proof.
  intros Hown. exists (register type h this), (register type h (register type h this)).
  unfold on. rewrite Hown. split; [done|]. split; [done|].
  cbv zeta. unfold unsubscribe, register. simpl.
  rewrite lookup_alter_eq, !lookup_insert_eq. simpl.
  rewrite !filter_app, !filter_cons_False, !filter_nil, !app_nil_r by tauto.
  split; [done|]. split.
  - simpl. rewrite list_elem_of_filter. tauto.
  - intros type' Hne. by rewrite lookup_alter_ne, !lookup_insert_ne.
Qed.

Lemma unsubscribe_removes_every_registration_witness :
  let this := {| handlers := {[ "tool.start" := [plain 1; plain 2; plain 1] ]};
                 next_serial := 0 |} in
  exists this1 this2,
    on "tool.start" (plain 1) this = inr this1
    /\ on "tool.start" (plain 1) this1 = inr this2
    /\ handlers (unsubscribe "tool.start" (plain 1) this2) !! "tool.start"
       = Some [plain 2].
Proof.
  intros this.
  destruct (unsubscribe_removes_every_registration "tool.start" (plain 1) this)
    as (this1 & this2 & H1 & H2 & H & _); [reflexivity|].
  exists this1, this2. split; [exact H1|]. split; [exact H2|]. exact H.
Defined.



(** In a bus built by calls of its methods, the closures made by [once]
    that are registered carry serial numbers below the next one. *)
Lemma reachable_fresh (this : SimpleEventBus) :
  reachable this ->
  forall type l k f, handlers this !! type = Some l -> one_shot k f ∈ l ->
    (k < next_serial this)%nat.
Proof.
  induction 1 as [|ty g this this' _ IH Hon|ty g this this' wrapper _ IH Honce
                  |ty h this _ IH|ty payload random_id now w _ IH];
    intros type l k f Hl Hin.
  - simpl in Hl. by rewrite lookup_empty in Hl.
  - unfold on in Hon. destruct (inherited ty); [discriminate|].
    injection Hon as <-. simpl in *. destruct (decide (ty = type)) as [->|Hne].
    + rewrite lookup_insert_eq in Hl. injection Hl as <-.
      apply elem_of_app in Hin as [Hin|Hin].
      * destruct (handlers this !! type) as [l'|] eqn:Hl'; simpl in Hin.
        -- by apply (IH type l' k f).
        -- by apply elem_of_nil in Hin.
      * apply list_elem_of_singleton in Hin. discriminate Hin.
    + rewrite lookup_insert_ne in Hl by done. by apply (IH type l k f).
  - unfold once, on in Honce. destruct (inherited ty); [discriminate|].
    injection Honce as <- <-. simpl in *.
    destruct (decide (ty = type)) as [->|Hne].
    + rewrite lookup_insert_eq in Hl. injection Hl as <-.
      apply elem_of_app in Hin as [Hin|Hin].
      * destruct (handlers this !! type) as [l'|] eqn:Hl'; simpl in Hin.
        -- specialize (IH type l' k f Hl' Hin). lia.
        -- by apply elem_of_nil in Hin.
      * apply list_elem_of_singleton in Hin. injection Hin as -> _. lia.
    + rewrite lookup_insert_ne in Hl by done.
      specialize (IH type l k f Hl Hin). lia.
  - simpl in *. destruct (decide (ty = type)) as [->|Hne].
    + rewrite lookup_alter_eq in Hl.
      destruct (handlers this !! type) as [l'|] eqn:Hl'; [|done].
      injection Hl as <-. apply list_elem_of_filter in Hin as [_ Hin].
      by apply (IH type l' k f).
    + rewrite lookup_alter_ne in Hl by done. by apply (IH type l k f).
  - unfold emit in *. destruct (inherited ty); [by apply (IH type l k f)|].
    destruct (forEach_keeps ty
      {| id := random_id; timestamp := now; source := "tool";
         EventBus.type := ty; payload := payload |}
      (default [] (handlers (bus w) !! ty)) w) as (_ & Hn & Hh).
    rewrite Hn. destruct (Hh type l Hl) as (l' & Hl' & Hsub).
    apply (IH type l' k f Hl'). by apply Hsub.
Qed.

(** In a bus built by calls of its methods, under a name that is not
    inherited, calling the function that [once] returned before any event
    is emitted takes the registration back and nothing else: the handlers
    of the type are those from before the call of [once], and the other
    types are untouched. *)
Theorem once_cancelled (type : string) (f : nat) (this : SimpleEventBus) :
  reachable this ->
  inherited type = false ->
  exists this1 wrapper,
    once type f this = inr (this1, wrapper)
    /\ let this' := unsubscribe type wrapper this1 in
       handlers this' !! type = Some (default [] (handlers this !! type))
       /\ forall type', type' <> type ->
            handlers this' !! type' = handlers this !! type'.
Proof.
  intros Hreach Hown. unfold once, on. rewrite Hown.
  eexists _, _. split; [reflexivity|].
  cbv zeta. unfold unsubscribe, register. simpl. split.
  - rewrite lookup_alter_eq, lookup_insert_eq. simpl. f_equal.
    rewrite filter_app, filter_cons_False, filter_nil, app_nil_r by tauto.
    destruct (handlers this !! type) as [l|] eqn:Hl; [|done]. simpl.
    apply filter_ext_all. intros x Hx ->.
    pose proof (reachable_fresh this Hreach type l _ _ Hl Hx). lia.
  - intros type' Hne. by rewrite lookup_alter_ne, lookup_insert_ne.
Qed.

Lemma once_cancelled_witness :
  let this := register "tool.complete" (plain 7) create in
  exists this1 wrapper,
    once "tool.complete" 8 this = inr (this1, wrapper)
    /\ handlers (unsubscribe "tool.complete" wrapper this1) !! "tool.complete"
       = Some [plain 7].
Proof.
  intros this.
  destruct (once_cancelled "tool.complete" 8 this)
    as (this1 & wrapper & Honce & H & _).
  - by apply (reachable_on "tool.complete" 7 create this reachable_create).
  - reflexivity.
  - exists this1, wrapper. split; [exact Honce|exact H].
Defined.





End EventBusFacts.

(** ** The event queue *)

Module QueuedEventBusFacts.
Import Js EventBus QueuedEventBus.

Lemma emit_all_snoc es e this :
  emit_all (es ++ [e]) this =
    emit_queued (e_type e) (e_payload e) (e_id e) (e_now e) (emit_all es this).
Proof. unfold emit_all. by rewrite fold_left_app. Qed.

Lemma tail_drop {A} (l : list A) : tail l = drop 1 l.
Proof. by destruct l. Qed.

Lemma push_shift {A} (all : list A) (x : A) (n : nat) :
  (0 < n)%nat ->
  (if (n <? length (drop (length all - n) all ++ [x]))%nat
   then tail (drop (length all - n) all ++ [x])
   else drop (length all - n) all ++ [x])
  = drop (length (all ++ [x]) - n) (all ++ [x]).
Proof.
  intros Hn. rewrite !length_app, length_drop. simpl.
  destruct (decide (length all < n)%nat) as [Hlt|Hge].
  - replace (length all - n)%nat with 0%nat by lia.
    replace (length all + 1 - n)%nat with 0%nat by lia.
    rewrite (proj2 (Nat.ltb_ge _ _)) by lia. done.
  - rewrite (proj2 (Nat.ltb_lt _ _)) by lia.
    rewrite tail_drop.
    replace (length all + 1 - n)%nat with ((length all - n) + 1)%nat by lia.
    rewrite <- drop_drop. f_equal. rewrite drop_app_le by lia. done.
Qed.

(** The event queue holds the most recent entries, at most 100 of them,
    oldest first: after any series of calls of [emit] on a bus whose queue
    held at most 100 entries, the queue is what remains of the old queue
    followed by the new entries once all but the last 100 are dropped. *)
Theorem queue_keeps_latest (es : list Emission) (this : QueuedBus) :
  (length (eventQueue this) <= MAX_QUEUE_SIZE)%nat ->
  let all := eventQueue this ++ map entry es in
  eventQueue (emit_all es this) = drop (length all - MAX_QUEUE_SIZE) all
  /\ (length (eventQueue (emit_all es this)) <= MAX_QUEUE_SIZE)%nat.
Proof.
  intros Hlen all.
  assert (eventQueue (emit_all es this) = drop (length all - MAX_QUEUE_SIZE) all)
    as Hq.
  { unfold all. clear all. induction es as [|e es IH] using rev_ind.
    - simpl. rewrite app_nil_r.
      by replace (length (eventQueue this) - MAX_QUEUE_SIZE)%nat with 0%nat by lia.
    - rewrite emit_all_snoc. unfold emit_queued. cbn [eventQueue].
      fold (entry e). rewrite IH, map_app, app_assoc. simpl.
      apply push_shift. unfold MAX_QUEUE_SIZE. lia. }
  split; [exact Hq|]. rewrite Hq, length_drop. unfold MAX_QUEUE_SIZE. lia.
Qed.

Lemma queue_keeps_latest_witness :
  let e := {| e_type := "tool:execution:progress"; e_payload := ∅;
              e_id := "k3j9x0a1b"; e_now := 1700000000000 |} in
  let this := {| world := {| bus := create; calls := [];
                             functions := fun _ _ _ => None |};
                 eventQueue := [] |} in
  eventQueue (emit_all [e] this) = [entry e]
  /\ (length (eventQueue (emit_all [e] this)) <= MAX_QUEUE_SIZE)%nat.
Proof.
  intros e this. apply (queue_keeps_latest [e] this). simpl.
  unfold MAX_QUEUE_SIZE. lia.
Defined.

End QueuedEventBusFacts.

(** ** The tests of the integer-stream tools *)

Module IntStreamTests.
Import Js Compiler IntStream Client.

(** 'validates sequence numbers': the first query works, the increment
    changes the sequence, the query on the old sequence fails. *)
Example test_validates_sequence_numbers :
  calls (map invoke
    [ get_current_value (Some {[ "basedOnSequence" := VNumber 1 ]});
      increment_value (Some {[ "basedOnSequence" := VNumber 1;
                               "amount" := VNumber 5 ]});
      get_current_value (Some {[ "basedOnSequence" := VNumber 1 ]}) ]) initial
  = ([ Fulfilled {| sequence := 1; type := Types.full; content := "Value is 0";
                    baseSequence := None; value := VNumber 0 |};
       Fulfilled {| sequence := 2; type := Types.full; content := "Value is now 5";
                    baseSequence := None; value := VNumber 5 |};
       Rejected (Error "Invalid sequence number") ],
     {| currentValue := VNumber 5; currentSequence := 2 |}).
Proof. reflexivity. Qed.

(** 'allows parallel queries with same sequence', in the state the test
    before leaves. *)
Example test_parallel_queries :
  let st := {| currentValue := VNumber 5; currentSequence := 2 |} in
  exists r0 r1,
    parallel [getCurrentValue; getCurrentValue]
      [ {[ "basedOnSequence" := VNumber 2 ]};
        {[ "basedOnSequence" := VNumber 2 ]} ] st = (Fulfilled [r0; r1], st)
    /\ value r0 = value r1.
Proof.
  intros st.
  exists {| sequence := 2; type := Types.full; content := "Value is 5";
            baseSequence := None; value := VNumber 5 |},
         {| sequence := 2; type := Types.full; content := "Value is 5";
            baseSequence := None; value := VNumber 5 |}.
  split; reflexivity.
Qed.

(** 'prevents parallel mutations'. *)
Example test_parallel_mutations :
  let st := {| currentValue := VNumber 5; currentSequence := 2 |} in
  parallel [incrementValue; incrementValue]
    [ {[ "basedOnSequence" := VNumber 2; "amount" := VNumber 1 ]};
      {[ "basedOnSequence" := VNumber 2; "amount" := VNumber 1 ]} ] st
  = (Rejected (Error "parallel() can only be used with query tools"), st).
Proof. reflexivity. Qed.

End IntStreamTests.
